(** * Disentanglement metrics of odin.bay.vi.metrics

    A shallow embedding of [odin/bay/vi/metrics.py]: the clustering scores,
    the discrete mutual information and entropy, the mutual information gap,
    the disentanglement and completeness scores, the relative strength of
    a correlation matrix, and the functions that run one job per factor.

    Numbers.  A NumPy float is a value of [npfloat]: a real number, one of the
    two infinities, or NaN.  Finite values are exact reals, so rounding,
    overflow and the sign of zero are outside the model; what the model keeps
    is where a division or a logarithm leaves the finite numbers, because the
    code branches on it ([np.nan_to_num], [x / 0], [log 1]).

    Arrays.  A 2-D array is the list of its rows, a 1-D array the list of its
    entries.  An array without rows is taken to have no columns.

    Exceptions.  A Python call either returns a value or raises: [result].

    Workers.  [mutual_info_estimate], [representative_importance_matrix] and
    [dci_scores] hand one job per factor to [odin.utils.mpi.MPI] and to
    scikit-learn estimators.  Neither is part of the sources: they are the
    variables of the section [Jobs], and what a property needs of them is
    among its hypotheses. *)

From Stdlib Require Import String.
From Stdlib Require Import Reals Lra Lia ZArith Bool Arith List Permutation Sorted.
Import ListNotations.
Open Scope R_scope.

(* ===================================================================== *)
(** ** Exceptions and results *)
(* ===================================================================== *)

(** The exceptions the modelled functions raise.  [IndexError i n] is
    "index i is out of bounds for axis 0 with size n". *)
Inductive exn : Type :=
| NameError (name : string)
| ValueError (msg : string)
| KeyError (key : string)
| IndexError (index size : nat)
| AssertionError.

Inductive result (A : Type) : Type :=
| Ok (a : A)
| Raise (e : exn).
Arguments Ok {A} a.
Arguments Raise {A} e.

Definition bind {A B : Type} (c : result A) (k : A -> result B) : result B :=
  match c with
  | Ok a => k a
  | Raise e => Raise e
  end.

Notation "x <- c ;; k" := (bind c (fun x => k))
  (at level 61, c at next level, right associativity).

(** Runs [f] on the elements from left to right, as a [for] loop that stores
    each result; the first exception ends the loop. *)
Fixpoint mapM {A B : Type} (f : A -> result B) (l : list A) : result (list B) :=
  match l with
  | [] => Ok []
  | a :: l' => b <- f a ;; bs <- mapM f l' ;; Ok (b :: bs)
  end.

(* ===================================================================== *)
(** ** NumPy floats *)
(* ===================================================================== *)

Inductive npfloat : Type :=
| Fin (x : R)
| PInf
| NInf
| NaN.

Definition is_zero (x : R) : bool := if Req_dec_T x 0 then true else false.
Definition is_pos (x : R) : bool := if Rlt_dec 0 x then true else false.

Definition fadd (a b : npfloat) : npfloat :=
  match a, b with
  | NaN, _ | _, NaN => NaN
  | Fin x, Fin y => Fin (x + y)
  | PInf, NInf | NInf, PInf => NaN
  | PInf, _ | _, PInf => PInf
  | NInf, _ | _, NInf => NInf
  end.

Definition fopp (a : npfloat) : npfloat :=
  match a with
  | Fin x => Fin (- x)
  | PInf => NInf
  | NInf => PInf
  | NaN => NaN
  end.

Definition fsub (a b : npfloat) : npfloat := fadd a (fopp b).

(** The infinity whose sign is the sign of [x]; [x] is not zero. *)
Definition inf_of_sign (x : R) : npfloat := if is_pos x then PInf else NInf.

Definition fmul (a b : npfloat) : npfloat :=
  match a, b with
  | NaN, _ | _, NaN => NaN
  | Fin x, Fin y => Fin (x * y)
  | Fin x, PInf | PInf, Fin x => if is_zero x then NaN else inf_of_sign x
  | Fin x, NInf | NInf, Fin x => if is_zero x then NaN else inf_of_sign (- x)
  | PInf, PInf | NInf, NInf => PInf
  | PInf, NInf | NInf, PInf => NInf
  end.

(** True division of NumPy: [0 / 0] is NaN and [x / 0] an infinity, with a
    warning and no exception. *)
Definition fdiv (a b : npfloat) : npfloat :=
  match a, b with
  | NaN, _ | _, NaN => NaN
  | Fin x, Fin y =>
      if is_zero y then (if is_zero x then NaN else inf_of_sign x)
      else Fin (x / y)
  | Fin _, PInf | Fin _, NInf => Fin 0
  | PInf, Fin y => if is_zero y then PInf else inf_of_sign y
  | NInf, Fin y => if is_zero y then NInf else inf_of_sign (- y)
  | _, _ => NaN
  end.

(** [np.log] of a real: minus infinity at 0, NaN below. *)
Definition flog (a : npfloat) : npfloat :=
  match a with
  | Fin x => if is_zero x then NInf else if is_pos x then Fin (ln x) else NaN
  | PInf => PInf
  | _ => NaN
  end.

(** [np.sum] of a vector. *)
Definition fsum (l : list npfloat) : npfloat := fold_left fadd l (Fin 0).

(** [np.mean] of a vector: the sum over the length, NaN for an empty one. *)
Definition fmean (l : list npfloat) : npfloat :=
  fdiv (fsum l) (Fin (INR (length l))).

(** Sum of a list of reals. *)
Definition Rsum (l : list R) : R := fold_right Rplus 0 l.

(* ===================================================================== *)
(** ** Arrays *)
(* ===================================================================== *)

(** Arrays by number of dimensions.  [Arr3] stands for three dimensions and
    more: the functions below only look at the number of dimensions there. *)
Inductive ndarray (A : Type) : Type :=
| Arr0 (x : A)
| Arr1 (v : list A)
| Arr2 (m : list (list A))
| Arr3 (t : list (list (list A))).
Arguments Arr0 {A} x.
Arguments Arr1 {A} v.
Arguments Arr2 {A} m.
Arguments Arr3 {A} t.

(** [m.shape[0]] and [m.shape[1]] of a 2-D array. *)
Definition nrows {A : Type} (m : list (list A)) : nat := length m.
Definition ncols {A : Type} (m : list (list A)) : nat :=
  match m with
  | [] => 0
  | r :: _ => length r
  end.

(** [m[:, j]]. *)
Definition column {A : Type} (d : A) (m : list (list A)) (j : nat) : list A :=
  map (fun r => nth j r d) m.

(** The columns of [m], left to right. *)
Definition columns {A : Type} (d : A) (m : list (list A)) : list (list A) :=
  map (column d m) (seq 0 (ncols m)).

(** [np.atleast_2d]. *)
Definition atleast_2d {A : Type} (a : ndarray A) : ndarray A :=
  match a with
  | Arr0 x => Arr2 [[x]]
  | Arr1 v => Arr2 [v]
  | _ => a
  end.

(** [np.atleast_1d]. *)
Definition atleast_1d {A : Type} (a : ndarray A) : ndarray A :=
  match a with
  | Arr0 x => Arr1 [x]
  | _ => a
  end.

(* ===================================================================== *)
(** ** Clustering scores: [unsupervised_clustering_scores] *)
(* ===================================================================== *)

Definition array : Type := ndarray R.

(** A dict of scores, in insertion order. *)
Definition scores : Type := list (string * npfloat).

(** [d[k]]. *)
Fixpoint getitem (d : scores) (k : string) : result npfloat :=
  match d with
  | [] => Raise (KeyError k)
  | (k', v) :: d' => if String.eqb k k' then Ok v else getitem d' k
  end.

(** The names [metrics.py] binds in its module namespace before the star
    import of line 30 (the imports of lines 16 to 28) ... *)
Definition names_before_star : list string :=
  ["absolute_import"; "division"; "print_function"; "warnings"; "np"; "sp";
   "KMeans"; "GradientBoostingClassifier"; "adjusted_mutual_info_score";
   "adjusted_rand_score"; "mutual_info_score"; "normalized_mutual_info_score";
   "silhouette_score"; "entropy1D"; "GaussianMixture"]%string.

(** ... and after it (the imports of lines 31 and 32, [__all__] and the
    functions the file defines). *)
Definition names_after_star : list string :=
  ["catch_warnings_ignore"; "MPI"; "get_cpu_count"; "__all__";
   "unsupervised_clustering_scores"; "discrete_mutual_info";
   "discrete_entropy"; "mutual_info_estimate"; "mutual_info_gap";
   "disentanglement_score"; "completeness_score";
   "representative_importance_matrix"; "dci_scores";
   "relative_strength"]%string.

Definition mem_name (name : string) (l : list string) : bool :=
  existsb (String.eqb name) l.

(** What the function takes from outside [metrics.py].  [pyobj] is the type
    of the objects a global name can be bound to.  [star_import] is the
    namespace that [from odin.bay.vi.downstream_metrics import *] adds:
    that module is not part of the sources, so every theorem holds for any
    such namespace, under the hypotheses it states on it.  The scikit-learn
    calls are functions that return or raise; [call_accuracy f] and
    [call_scores f] are what calling the object [f] does. *)
Record namespace (pyobj : Type) : Type := {
  star_import : string -> option pyobj;
  module_object : string -> pyobj;
  KMeans_fit_predict : pyobj -> nat -> Z -> array -> result array;
  GaussianMixture_fit_predict : pyobj -> Z -> array -> result array;
  silhouette_score : array -> array -> result npfloat;
  adjusted_rand_score : array -> array -> result npfloat;
  normalized_mutual_info_score : array -> array -> result npfloat;
  call_accuracy : pyobj -> array -> array -> result npfloat;
  call_scores : pyobj -> array -> array -> pyobj -> string -> result scores
}.
Arguments star_import {pyobj} _ _.
Arguments module_object {pyobj} _ _.
Arguments KMeans_fit_predict {pyobj} _ _ _ _ _.
Arguments GaussianMixture_fit_predict {pyobj} _ _ _ _.
Arguments silhouette_score {pyobj} _ _ _.
Arguments adjusted_rand_score {pyobj} _ _ _.
Arguments normalized_mutual_info_score {pyobj} _ _ _.
Arguments call_accuracy {pyobj} _ _ _ _.
Arguments call_scores {pyobj} _ _ _ _ _ _.

(** Reading a global name inside a function of the module: a definition of
    the file made after the star import wins, then the star import, then an
    import made before it; a name that none of them binds is a NameError
    (none of the names read below is a builtin). *)
Definition load_global {pyobj : Type} (ns : namespace pyobj) (name : string)
  : result pyobj :=
  if mem_name name names_after_star then Ok (module_object ns name)
  else match star_import ns name with
       | Some o => Ok o
       | None =>
           if mem_name name names_before_star then Ok (module_object ns name)
           else Raise (NameError name)
       end.

(** [a <= b] on floats: false as soon as one side is NaN. *)
Definition fle (a b : npfloat) : bool :=
  match a, b with
  | NaN, _ | _, NaN => false
  | NInf, _ => true
  | _, PInf => true
  | Fin x, Fin y => if Rle_dec x y then true else false
  | _, _ => false
  end.

Definition isnan (a : npfloat) : bool :=
  match a with NaN => true | _ => false end.

(** The scan of [np.argmax]: [mp] is the largest value so far, found at
    [at_]; a NaN stops the scan. *)
Fixpoint argmax_scan (mp : npfloat) (at_ i : nat) (l : list npfloat) : nat :=
  match l with
  | [] => at_
  | x :: l' =>
      if isnan mp then at_
      else if fle x mp then argmax_scan mp at_ (S i) l'
      else argmax_scan x i (S i) l'
  end.

Definition argmax (l : list npfloat) : result nat :=
  match l with
  | [] => Raise (ValueError "attempt to get argmax of an empty sequence")
  | x :: l' => Ok (argmax_scan x 0 1 l')
  end.

(** [np.min(m, axis=0, keepdims=True)] and [np.max(...)]: one value per
    column; a ValueError when there is no row to reduce. *)
Definition reduce_axis0 (op : R -> R -> R) (opname : string)
  (m : list (list R)) : result (list R) :=
  match m with
  | [] => Raise (ValueError ("zero-size array to reduction operation "
                             ++ opname ++ " which has no identity"))
  | _ => Ok (map (fun c => match c with
                           | [] => 0
                           | x :: c' => fold_left op c' x
                           end) (columns 0 m))
  end.

(** [(row - vmin) / (vmax - vmin)], the row broadcast against the two
    one-row arrays. *)
Fixpoint normalise_row (row vmin vmax : list R) : list npfloat :=
  match row, vmin, vmax with
  | x :: row', lo :: vmin', hi :: vmax' =>
      fdiv (Fin (x - lo)) (Fin (hi - lo)) :: normalise_row row' vmin' vmax'
  | _, _, _ => []
  end.

(** Lines 77 to 81: a 2-D [factors] is scaled to [0, 1] column by column
    and replaced by the arg-max of each row. *)
Definition labels_of_factors (factors : array) : result array :=
  match factors with
  | Arr2 m =>
      vmin <- reduce_axis0 Rmin "minimum" m ;;
      vmax <- reduce_axis0 Rmax "maximum" m ;;
      idx <- mapM (fun row => argmax (normalise_row row vmin vmax)) m ;;
      Ok (Arr1 (map INR idx))
  | _ => Ok factors
  end.

(** Lines 103 to 108. *)
Definition score_dict {pyobj : Type} (ns : namespace pyobj)
  (representations factors factors_pred : array) : result scores :=
  asw_score <- silhouette_score ns representations factors ;;
  ari_score <- adjusted_rand_score ns factors factors_pred ;;
  nmi_score <- normalized_mutual_info_score ns factors factors_pred ;;
  accuracy <- load_global ns "unsupervised_clustering_accuracy" ;;
  uca_score <- call_accuracy ns accuracy factors factors_pred ;;
  Ok [("ASW", asw_score); ("ARI", ari_score); ("NMI", nmi_score);
      ("UCA", uca_score)]%string.

(** [{k: (v + score2[k]) / 2 for k, v in score1.items()}]. *)
Definition average_scores (score1 score2 : scores) : result scores :=
  mapM (fun kv : string * npfloat =>
          v2 <- getitem score2 (fst kv) ;;
          Ok (fst kv, fdiv (fadd (snd kv) v2) (Fin 2))) score1.

Definition unsupervised_clustering_scores {pyobj : Type} (ns : namespace pyobj)
  (representations factors : array) (prediction_algorithm : string)
  (seed : Z) : result scores :=
  factors <- labels_of_factors factors ;;
  if String.eqb prediction_algorithm "knn" then
    n_factors <- load_global ns "n_factors" ;;
    factors_pred <- KMeans_fit_predict ns n_factors 200%nat seed representations ;;
    score_dict ns representations factors factors_pred
  else if String.eqb prediction_algorithm "gmm" then
    n_factors <- load_global ns "n_factors" ;;
    factors_pred <- GaussianMixture_fit_predict ns n_factors seed representations ;;
    score_dict ns representations factors factors_pred
  else if String.eqb prediction_algorithm "both" then
    clustering_scores <- load_global ns "clustering_scores" ;;
    n_factors <- load_global ns "n_factors" ;;
    score1 <- call_scores ns clustering_scores representations factors
                n_factors "knn" ;;
    clustering_scores <- load_global ns "clustering_scores" ;;
    n_factors <- load_global ns "n_factors" ;;
    score2 <- call_scores ns clustering_scores representations factors
                n_factors "gmm" ;;
    average_scores score1 score2
  else
    Raise (ValueError ("Not support for prediction_algorithm: '"
                       ++ prediction_algorithm ++ "'")).

(* ===================================================================== *)
(** ** scikit-learn: [mutual_info_score] and [entropy] on label vectors *)
(* ===================================================================== *)

(** The two functions are scikit-learn's ([sklearn.metrics]); they are
    written here with the sums and logarithms of their implementation.  The
    order in which the cells of the contingency table are added is that of
    their first appearance, which does not matter to a sum of reals. *)

Definition pair_eq_dec (p q : Z * Z) : {p = q} + {p <> q}.
Proof. decide equality; apply Z.eq_dec. Defined.

(** Number of entries of [l] equal to [a]. *)
Definition count (a : Z) (l : list Z) : nat := count_occ Z.eq_dec l a.

(** The labels that occur in [l], each once. *)
Definition unique (l : list Z) : list Z := nodup Z.eq_dec l.

(** [sklearn.metrics.cluster.entropy]: the entropy of a labelling, in nats;
    1.0 for an empty one. *)
Definition entropy1D (labels : list Z) : R :=
  match labels with
  | [] => 1
  | _ =>
      let pi_sum := INR (length labels) in
      - Rsum (map (fun a => let pi := INR (count a labels) in
                            (pi / pi_sum) * (ln pi - ln pi_sum))
                  (unique labels))
  end.

(** One non-zero cell [(a, b)] of the contingency table of two labellings:
    [contingency_nm * (log_contingency_nm - log(contingency_sum))
     + contingency_nm * log_outer]. *)
Definition mi_cell (labels_true labels_pred : list Z) (c : Z * Z) : R :=
  let pairs := combine labels_true labels_pred in
  let contingency_sum := INR (length pairs) in
  let nz_val := INR (count_occ pair_eq_dec pairs c) in
  let pi := INR (count (fst c) labels_true) in
  let pj := INR (count (snd c) labels_pred) in
  let contingency_nm := nz_val / contingency_sum in
  let log_outer := - ln (pi * pj) + ln contingency_sum + ln contingency_sum in
  contingency_nm * (ln nz_val - ln contingency_sum) + contingency_nm * log_outer.

(** [mi.sum()]: the sum over the non-zero cells of the table. *)
Definition mi_value (labels_true labels_pred : list Z) : R :=
  Rsum (map (mi_cell labels_true labels_pred)
            (nodup pair_eq_dec (combine labels_true labels_pred))).

(** [sklearn.metrics.mutual_info_score]: the two labellings must have the
    same length. *)
Definition mutual_info_score (labels_true labels_pred : list Z) : result R :=
  if Nat.eqb (length labels_true) (length labels_pred) then
    Ok (mi_value labels_true labels_pred)
  else
    Raise (ValueError "Found input variables with inconsistent numbers of samples").

(* ===================================================================== *)
(** ** [discrete_mutual_info], [discrete_entropy], [mutual_info_gap] *)
(* ===================================================================== *)

(** The matrix [m] of shape [num_latents, num_factors], filled row by row. *)
Definition discrete_mutual_info (codes factors : ndarray Z)
  : result (list (list R)) :=
  match atleast_2d codes, atleast_2d factors with
  | Arr2 codes, Arr2 factors =>
      let num_latents := ncols codes in
      let num_factors := ncols factors in
      mapM (fun i =>
              mapM (fun j => mutual_info_score (column 0%Z factors j)
                                               (column 0%Z codes i))
                   (seq 0 num_factors))
           (seq 0 num_latents)
  | _, _ => Raise AssertionError
  end.

(** What [discrete_entropy] returns: a number for a 1-D array, the array of
    the columns' entropies for a 2-D one. *)
Inductive entropy_value : Type :=
| Scalar (h : R)
| Vector (h : list R).

Definition discrete_entropy (labels : ndarray Z) : result entropy_value :=
  match atleast_1d labels with
  | Arr0 x => Ok (Scalar (entropy1D [x]))
  | Arr1 v => Ok (Scalar (entropy1D v))
  | Arr2 m =>
      let num_factors := ncols m in
      Ok (Vector (map (fun j => entropy1D (column 0%Z m j)) (seq 0 num_factors)))
  | Arr3 _ =>
      Raise (ValueError "Only support 1-D or 2-D array for labels entropy.")
  end.

(** [np.sort] of a vector of finite numbers: ascending. *)
Fixpoint insert_sorted (x : R) (l : list R) : list R :=
  match l with
  | [] => [x]
  | y :: l' => if Rle_dec x y then x :: l else y :: insert_sorted x l'
  end.

Definition np_sort (l : list R) : list R := fold_right insert_sorted [] l.

(** [np.sort(m, axis=0)]: every column sorted, the shape kept. *)
Definition sort_axis0 (m : list (list R)) : list (list R) :=
  let cs := map np_sort (columns 0 m) in
  map (fun i => map (fun c => nth i c 0) cs) (seq 0 (nrows m)).

(** [m[i, :]]. *)
Definition getrow {A : Type} (m : list (list A)) (i : nat) : result (list A) :=
  match nth_error m i with
  | Some r => Ok r
  | None => Raise (IndexError i (length m))
  end.

(** Elementwise operation on two vectors of the same length. *)
Fixpoint map2 {A B C : Type} (f : A -> B -> C) (l : list A) (l' : list B)
  : list C :=
  match l, l' with
  | a :: l, b :: l' => f a b :: map2 f l l'
  | _, _ => []
  end.

Definition mutual_info_gap (representations factors : ndarray Z)
  : result npfloat :=
  let representations := atleast_2d representations in
  let factors := atleast_2d factors in
  m <- discrete_mutual_info representations factors ;;
  let sorted_m := rev (sort_axis0 m) in
  entropy_ <- discrete_entropy factors ;;
  top1 <- getrow sorted_m 0 ;;
  top2 <- getrow sorted_m 1 ;;
  match entropy_ with
  | Vector h =>
      Ok (fmean (map2 fdiv (map2 (fun a b => Fin (a - b)) top1 top2)
                           (map Fin h)))
  | Scalar _ => Raise (IndexError 0 0)  (* [entropy_[:]] of a number *)
  end.

(* ===================================================================== *)
(** ** Disentanglement and completeness *)
(* ===================================================================== *)

(** [scipy.special.entr]. *)
Definition entr (p : npfloat) : npfloat :=
  match p with
  | Fin x =>
      if is_zero x then Fin 0
      else if is_pos x then Fin (- x * ln x) else NInf
  | PInf | NInf => NInf
  | NaN => NaN
  end.

(** [scipy.stats.entropy(pk, base=base)] of one line: [pk] is normalised to
    sum 1, the entropy taken in nats and divided by [log(base)]. *)
Definition sp_entropy (pk : list R) (base : nat) : npfloat :=
  let total := Fin (Rsum pk) in
  let pk := map (fun x => fdiv (Fin (1 * x)) total) pk in
  let S := fsum (map entr pk) in
  fdiv S (flog (Fin (INR base))).

(** [m.sum()]. *)
Definition matrix_sum (m : list (list R)) : R := Rsum (map Rsum m).

(** [np.ones_like(m)]. *)
Definition ones_like (m : list (list R)) : list (list R) :=
  map (map (fun _ => 1)) m.

(** The constant added to every entry before the entropy is taken. *)
Definition smoothing : R := 1e-11.

Definition disentanglement_score (importance_matrix : list (list R))
  : npfloat :=
  let per_code :=
    map (fun row => fsub (Fin 1)
                      (sp_entropy (map (fun x => x + smoothing) row)
                                  (ncols importance_matrix)))
        importance_matrix in
  let importance_matrix :=
    if is_zero (matrix_sum importance_matrix)
    then ones_like importance_matrix else importance_matrix in
  let code_importance :=
    map (fun row => fdiv (Fin (Rsum row))
                         (Fin (matrix_sum importance_matrix)))
        importance_matrix in
  fsum (map2 fmul per_code code_importance).

Definition completeness_score (importance_matrix : list (list R))
  : npfloat :=
  let per_factor :=
    map (fun col => fsub (Fin 1)
                      (sp_entropy (map (fun x => x + smoothing) col)
                                  (nrows importance_matrix)))
        (columns 0 importance_matrix) in
  let importance_matrix :=
    if is_zero (matrix_sum importance_matrix)
    then ones_like importance_matrix else importance_matrix in
  let factor_importance :=
    map (fun col => fdiv (Fin (Rsum col))
                         (Fin (matrix_sum importance_matrix)))
        (columns 0 importance_matrix) in
  fsum (map2 fmul per_factor factor_importance).

(* ===================================================================== *)
(** ** Relative strength *)
(* ===================================================================== *)

(** [np.max(mat, axis=1)]: one value per row; a ValueError when the rows
    are empty. *)
Definition reduce_axis1 (op : R -> R -> R) (opname : string)
  (m : list (list R)) : result (list R) :=
  match ncols m with
  | O => Raise (ValueError ("zero-size array to reduction operation "
                            ++ opname ++ " which has no identity"))
  | _ => Ok (map (fun r => match r with
                           | [] => 0
                           | x :: r' => fold_left op r' x
                           end) m)
  end.

(** The largest finite double, [np.finfo(np.float64).max]. *)
Definition float_max : R := (2 - / 2 ^ 52) * 2 ^ 1023.

(** [np.nan_to_num(x, nan=0.0)]: NaN becomes 0 and an infinity the largest
    finite number of its sign. *)
Definition nan_to_num (a : npfloat) : npfloat :=
  match a with
  | NaN => Fin 0
  | PInf => Fin float_max
  | NInf => Fin (- float_max)
  | Fin x => Fin x
  end.

(** [np.mean(np.nan_to_num(np.power(maxima, 2) / sums, nan=0.0))]. *)
Definition axis_score (maxima sums : list R) : npfloat :=
  fmean (map nan_to_num
           (map2 fdiv (map (fun x => Fin (x ^ 2)) maxima) (map Fin sums))).

Definition relative_strength (mat : list (list R)) : result npfloat :=
  max0 <- reduce_axis0 Rmax "maximum" mat ;;
  let score_x := axis_score max0 (map Rsum (columns 0 mat)) in
  max1 <- reduce_axis1 Rmax "maximum" mat ;;
  let score_y := axis_score max1 (map Rsum mat) in
  Ok (fdiv (fadd score_x score_y) (Fin 2)).

(* ===================================================================== *)
(** ** Per-factor jobs: [mutual_info_estimate],
       [representative_importance_matrix], [dci_scores] *)
(* ===================================================================== *)

(** A [for] loop over [l] that carries a state; the first exception ends
    it. *)
Fixpoint foldM {A B : Type} (f : B -> A -> result B) (l : list A) (b : B)
  : result B :=
  match l with
  | [] => Ok b
  | a :: l' => b' <- f b a ;; foldM f l' b'
  end.

(** [l] with [x] at index [i]. *)
Fixpoint update {A : Type} (i : nat) (x : A) (l : list A) : list A :=
  match l, i with
  | [], _ => []
  | _ :: l', O => x :: l'
  | a :: l', S i' => a :: update i' x l'
  end.

(** [l[i] = x] on a Python list. *)
Definition list_setitem {A : Type} (l : list A) (i : nat) (x : A)
  : result (list A) :=
  if Nat.ltb i (length l) then Ok (update i x l)
  else Raise (IndexError i (length l)).

(** [m[:, i] = v] on an array [m] of shape [(len(m), num_cols)]: [v] has one
    entry per row, or a single entry that is broadcast.  The number of
    columns is passed along because an array without rows does not show
    it. *)
Definition set_column (num_cols : nat) (m : list (list R)) (i : nat)
  (v : list R) : result (list (list R)) :=
  if Nat.leb num_cols i then Raise (IndexError i num_cols)
  else if Nat.eqb (length v) (length m) then
    Ok (map2 (fun r x => update i x r) m v)
  else if Nat.eqb (length v) 1 then
    Ok (map (update i (nth 0 v 0)) m)
  else Raise (ValueError "could not broadcast input array").

(** [m[:, j]], an IndexError when [m] has no column [j]. *)
Definition getcolumn {A : Type} (d : A) (m : list (list A)) (j : nat)
  : result (list A) :=
  if Nat.ltb j (ncols m) then Ok (column d m j)
  else Raise (IndexError j (ncols m)).

(** [np.mean(pred == y)] of two vectors of labels: the share of the
    positions where they agree.  Vectors of different lengths are compared
    by broadcasting when one of them has a single entry, and cannot be
    compared otherwise. *)
Definition agree (a b : Z) : npfloat := Fin (if Z.eqb a b then 1 else 0).

Definition accuracy (pred y : list Z) : result npfloat :=
  if Nat.eqb (length pred) (length y) then Ok (fmean (map2 agree pred y))
  else if Nat.eqb (length pred) 1 then
    Ok (fmean (map (agree (nth 0 pred 0%Z)) y))
  else if Nat.eqb (length y) 1 then
    Ok (fmean (map (fun a => agree a (nth 0 y 0%Z)) pred))
  else Raise (ValueError "operands could not be broadcast together").

(** A classifier class of scikit-learn, as [representative_importance_matrix]
    uses it: [hasattr(algo, 'feature_importances_')] on the class,
    [algo(random_state=...).fit(X, y)], and on the fitted model
    [feature_importances_] and [predict(X)]. *)
Record estimator : Type := {
  model : Type;
  has_feature_importances : bool;
  fit : Z -> list (list R) -> list Z -> result model;
  feature_importances_ : model -> result (list R);
  predict : model -> list (list R) -> result (list Z)
}.

(** What a job of [representative_importance_matrix] returns:
    [(factor_idx, feat, train, test)]. *)
Definition train_result : Type := nat * list R * npfloat * npfloat.

Section Jobs.

(** [odin.utils.mpi.MPI(jobs, func, ncpu, batch=1)] is not among the
    sources.  Iterating over it gives the values [func] returns for the
    jobs, as the worker processes complete them; here it is any function
    from the jobs and [func] to the list of the values in the order they
    arrive.  The number of processes, [max(1, get_cpu_count() - 1)], is left
    to it.  What the properties assume of it is [completion_order] below. *)
Variable MPI : forall B : Type, list nat -> (nat -> result B) -> result (list B).

(** [sklearn.feature_selection.mutual_info_classif] and
    [mutual_info_regression]: from [X], [y], [discrete_features],
    [n_neighbors] and [random_state] one estimate per column of [X]. *)
Variable mutual_info_classif mutual_info_regression :
  list (list R) -> list R -> bool -> nat -> Z -> result (list R).

(** [np.empty(shape=(rows, cols))]: an array of that shape with whatever the
    memory holds. *)
Variable np_empty : nat -> nat -> list (list R).

Variable GradientBoostingClassifier : estimator.

Definition mutual_info_estimate (representations factors : list (list R))
  (continuous_representations continuous_factors : bool)
  (n_neighbors : nat) (random_state : Z) : result (list (list R)) :=
  let mutual_info := if continuous_factors then mutual_info_regression
                     else mutual_info_classif in
  let num_latents := ncols representations in
  let num_factors := ncols factors in
  let mi_matrix := np_empty num_latents num_factors in
  let func := fun idx =>
    y <- getcolumn 0 factors idx ;;
    mi <- mutual_info representations y (negb continuous_representations)
                      n_neighbors random_state ;;
    Ok (idx, mi) in
  yielded <- MPI _ (seq 0 num_factors) func ;;
  foldM (fun mi_matrix '(i, mi) => set_column num_factors mi_matrix i mi)
        yielded mi_matrix.

(** The job [_train] of [representative_importance_matrix]. *)
Definition _train (algo : estimator) (random_state : Z)
  (repr_train : list (list R)) (factor_train : list (list Z))
  (repr_test : list (list R)) (factor_test : list (list Z))
  (factor_idx : nat) : result train_result :=
  y_train <- getcolumn 0%Z factor_train factor_idx ;;
  model <- fit algo random_state repr_train y_train ;;
  importances <- feature_importances_ algo model ;;
  let feat := map Rabs importances in
  pred_train <- predict algo model repr_train ;;
  y_train <- getcolumn 0%Z factor_train factor_idx ;;
  train <- accuracy pred_train y_train ;;
  pred_test <- predict algo model repr_test ;;
  y_test <- getcolumn 0%Z factor_test factor_idx ;;
  test <- accuracy pred_test y_test ;;
  Ok (factor_idx, feat, train, test).

(** The body of the loop over the results: the column of the factor and its
    two accuracies are stored. *)
Definition store_result (num_factors : nat)
  (state : list (list R) * list npfloat * list npfloat) (r : train_result)
  : result (list (list R) * list npfloat * list npfloat) :=
  let '(importance_matrix, train_acc, test_acc) := state in
  let '(i, feat, train, test) := r in
  importance_matrix <- set_column num_factors importance_matrix i feat ;;
  train_acc <- list_setitem train_acc i train ;;
  test_acc <- list_setitem test_acc i test ;;
  Ok (importance_matrix, train_acc, test_acc).

Definition representative_importance_matrix
  (repr_train : list (list R)) (factor_train : list (list Z))
  (repr_test : list (list R)) (factor_test : list (list Z))
  (random_state : Z) (algo : estimator)
  : result (list (list R) * list npfloat * list npfloat) :=
  let num_latents := ncols repr_train in
  let num_factors := ncols factor_train in
  if negb (has_feature_importances algo) then Raise AssertionError
  else
    let importance_matrix := repeat (repeat 0 num_factors) num_latents in
    let train_acc := map (fun i => Fin (INR i)) (seq 0 num_factors) in
    let test_acc := map (fun i => Fin (INR i)) (seq 0 num_factors) in
    yielded <- MPI _ (seq 0 num_factors)
                   (_train algo random_state repr_train factor_train
                           repr_test factor_test) ;;
    foldM (store_result num_factors) yielded
          (importance_matrix, train_acc, test_acc).

Definition dci_scores
  (repr_train : list (list R)) (factor_train : list (list Z))
  (repr_test : list (list R)) (factor_test : list (list Z))
  (random_state : Z) : result (npfloat * npfloat * npfloat) :=
  r <- representative_importance_matrix repr_train factor_train
         repr_test factor_test random_state GradientBoostingClassifier ;;
  let '(importance, train_acc, test_acc) := r in
  let train_acc := fmean train_acc in
  let test_acc := fmean test_acc in
  let d := disentanglement_score importance in
  let c := completeness_score importance in
  let i := test_acc in
  Ok (d, c, i).

End Jobs.

(* ===================================================================== *)
(** ** Vocabulary of the statements *)
(* ===================================================================== *)

(** The text an exception carries. *)
Definition exn_message (e : exn) : string :=
  match e with
  | NameError name => ("name '" ++ name ++ "' is not defined")%string
  | ValueError msg => msg
  | KeyError key => key
  | IndexError _ _ => "index is out of bounds"%string
  | AssertionError => "codes and factors must be matrix"%string
  end.

(** [contains s msg]: [s] occurs in [msg]. *)
Fixpoint contains (s msg : string) : bool :=
  if String.prefix s msg then true
  else match msg with
       | EmptyString => false
       | String _ msg' => contains s msg'
       end.

Definition is_name_error (e : exn) : bool :=
  match e with NameError _ => true | _ => false end.

(** The algorithms [unsupervised_clustering_scores] knows. *)
Definition supported_algorithm (name : string) : bool :=
  String.eqb name "knn" || String.eqb name "gmm" || String.eqb name "both".

(** [factors] has something to reduce: it is not a 2-D array without rows
    or with empty rows. *)
Definition has_entries (factors : array) : bool :=
  match factors with
  | Arr2 m =>
      match m with [] => false | _ => true end
      && forallb (fun r : list R => match r with [] => false | _ => true end) m
  | _ => true
  end.

(** A namespace in which the star import binds the accuracy function the
    file uses and nothing else; the library calls return constants. *)
Definition bare_namespace : namespace unit := {|
  star_import := fun name =>
    if String.eqb name "unsupervised_clustering_accuracy" then Some tt else None;
  module_object := fun _ => tt;
  KMeans_fit_predict := fun _ _ _ _ => Ok (Arr1 []);
  GaussianMixture_fit_predict := fun _ _ _ => Ok (Arr1 []);
  silhouette_score := fun _ _ => Ok (Fin 0);
  adjusted_rand_score := fun _ _ => Ok (Fin 0);
  normalized_mutual_info_score := fun _ _ => Ok (Fin 0);
  call_accuracy := fun _ _ _ => Ok (Fin 0);
  call_scores := fun _ _ _ _ _ => Ok []
|}.

(** The largest value of a line. *)
Definition largest (line : list R) : R :=
  match line with
  | [] => 0
  | x :: line' => fold_left Rmax line' x
  end.

(** [l] without the first occurrence of [x]. *)
Fixpoint remove_one (x : R) (l : list R) : list R :=
  match l with
  | [] => []
  | y :: l' => if Req_dec_T x y then l' else y :: remove_one x l'
  end.

(** The second-largest value of a line: the largest of the others. *)
Definition second_largest (line : list R) : R :=
  largest (remove_one (largest line) line).

(** The mutual information gap as the specification words it: from the
    mutual-information matrix [m] (one row per code) and the entropies [h]
    of the factors, the mean over the factors [j] of
    [(top1_j - top2_j) / entropy(factor_j)]. *)
Definition mutual_info_gap_spec (m : list (list R)) (h : list R) : npfloat :=
  fmean (map (fun j =>
                fdiv (Fin (largest (column 0 m j)
                           - second_largest (column 0 m j)))
                     (Fin (nth j h 0)))
             (seq 0 (length h))).

(** The codes of [m] taken in the order [p]: column [i] of the result is
    column [nth i p] of [m]. *)
Definition permute_columns (p : list nat) (m : list (list Z)) : list (list Z) :=
  map (fun r => map (fun i => nth i r 0%Z) p) m.

(** The scores as the specification words them.  [share line W] is the part
    of a line in the total mass of the weights [W]. *)
Definition share (line : list R) (W : list (list R)) : npfloat :=
  fdiv (Fin (Rsum line)) (Fin (matrix_sum W)).



(** The same sums with the entropy taken of the line plus [smoothing], and
    the shares taken in the weights [W]. *)
Definition smooth (line : list R) : list R := map (fun x => x + smoothing) line.

Definition weighted_disentanglement (M W : list (list R)) : npfloat :=
  fsum (map (fun i =>
               fmul (fsub (Fin 1) (sp_entropy (smooth (nth i M [])) (ncols M)))
                    (share (nth i W []) W))
            (seq 0 (nrows M))).


(** The weights the code uses: the matrix itself, all ones when its entries
    sum to zero. *)
Definition importance_weights (M : list (list R)) : list (list R) :=
  if is_zero (matrix_sum M) then ones_like M else M.



Definition nonnegative (M : list (list R)) : Prop :=
  Forall (Forall (fun x => 0 <= x)) M.

(** Every row of [M] has [k] entries. *)
Definition rectangular {A : Type} (k : nat) (M : list (list A)) : Prop :=
  Forall (fun r => length r = k) M.





(** The number of codes [mutual_info_gap] sees: the columns of
    [np.atleast_2d(representations)]. *)
Definition num_codes (representations : ndarray Z) : nat :=
  match atleast_2d representations with
  | Arr2 m => ncols m
  | _ => 0
  end.

(** The matrix [discrete_mutual_info] fills and the vector
    [discrete_entropy] returns, for 2-D arrays with as many rows. *)
Definition mi_matrix (codes factors : list (list Z)) : list (list R) :=
  map (fun i => map (fun j => mi_value (column 0%Z factors j)
                                       (column 0%Z codes i))
                    (seq 0 (ncols factors)))
      (seq 0 (ncols codes)).

Definition factor_entropies (factors : list (list Z)) : list R :=
  map (fun j => entropy1D (column 0%Z factors j)) (seq 0 (ncols factors)).



(** A column with at least two different labels, and one with a single
    label repeated. *)
Definition varies (labels : list Z) : Prop :=
  exists a b, In a labels /\ In b labels /\ a <> b.

Definition constant (labels : list Z) : Prop :=
  exists a n, labels = repeat a (S n).

(** A cell of the contingency table read the other way round. *)
Definition swap_pair (c : Z * Z) : Z * Z := (snd c, fst c).

(** Relabelling: column [i] of [m] with its labels renamed by [fs i]. *)
Definition relabel (fs : nat -> Z -> Z) (m : list (list Z)) : list (list Z) :=
  map (fun r => map (fun i => fs i (nth i r 0%Z)) (seq 0 (length r))) m.

Definition injective (f : Z -> Z) : Prop := forall a b, f a = f b -> a = b.

Definition rename_pair (f g : Z -> Z) (c : Z * Z) : Z * Z := (f (fst c), g (snd c)).

(** The samples (rows) of [m] taken in the order [p]. *)
Definition reorder {A : Type} (p : list nat) (m : list (list A)) : list (list A) :=
  map (fun i => nth i m []) p.

(** The transpose of a matrix: its columns as rows. *)
Definition transpose (M : list (list R)) : list (list R) := columns 0 M.
(** What the properties assume of [MPI] (its source is not in the
    repository): when [func] returns on every job, iterating gives the
    values of [func] on the jobs, each job once, in the order in which the
    workers complete them. *)
Definition completion_order
  (MPI : forall B : Type, list nat -> (nat -> result B) -> result (list B))
  : Prop :=
  forall (B : Type) (jobs : list nat) (func : nat -> result B),
    (forall j, In j jobs -> exists r, func j = Ok r) ->
    exists order, Permutation order jobs /\ MPI B jobs func = mapM func order.

(** The matrix of [rows] rows and [cols] columns whose column [j] is
    [v j]. *)
Definition from_columns (rows cols : nat) (v : nat -> list R)
  : list (list R) :=
  map (fun l => map (fun j => nth l (v j) 0) (seq 0 cols)) (seq 0 rows).

(** The classifier fits the codes to the labels [y]; its model reports one
    importance per code and predicts one label per sample. *)
Definition fits (algo : estimator) (random_state : Z)
  (repr_train : list (list R)) (y : list Z) (repr_test : list (list R))
  : Prop :=
  exists m importances pred_train pred_test,
    fit algo random_state repr_train y = Ok m
    /\ feature_importances_ algo m = Ok importances
    /\ length importances = ncols repr_train
    /\ predict algo m repr_train = Ok pred_train
    /\ length pred_train = length repr_train
    /\ predict algo m repr_test = Ok pred_test
    /\ length pred_test = length repr_test.

(** The parts of the result of a job, empty when the job raises. *)
Definition job_feat (r : result train_result) : list R :=
  match r with
  | Ok (_, feat, _, _) => feat
  | Raise _ => []
  end.

Definition job_train (r : result train_result) : npfloat :=
  match r with
  | Ok (_, _, train, _) => train
  | Raise _ => NaN
  end.

Definition job_test (r : result train_result) : npfloat :=
  match r with
  | Ok (_, _, _, test) => test
  | Raise _ => NaN
  end.

(** An [MPI] whose workers complete the jobs last to first, and a classifier
    that predicts the label 0 and reports the importances [-1] and [3]. *)
Definition MPI_reversed (B : Type) (jobs : list nat) (func : nat -> result B)
  : result (list B) :=
  mapM func (rev jobs).

Definition zero_classifier : estimator := {|
  model := unit;
  has_feature_importances := true;
  fit := fun _ _ _ => Ok tt;
  feature_importances_ := fun _ => Ok [-1; 3];
  predict := fun _ X => Ok (map (fun _ => 0%Z) X)
|}.

(** The columns of [M] taken in the order [q]. *)
Definition take_columns (q : list nat) (M : list (list R)) : list (list R) :=
  map (fun r => map (fun j => nth j r 0) q) M.

(* ===================================================================== *)
(** * Properties *)
(* ===================================================================== *)

(** ** Clustering scores *)

Arguments load_global : simpl never.

Lemma contains_here (s post : string) : contains s (s ++ post) = true.
Proof.
  assert (H : String.prefix s (s ++ post) = true).
  { induction s as [|c s IH]; simpl.
    - now destruct post.
    - destruct (Ascii.ascii_dec c c) as [_|N]; [exact IH | now elim N]. }
  destruct (s ++ post)%string; cbn [contains]; now rewrite H.
Qed.

Lemma contains_app (s pre post : string) :
  contains s (pre ++ s ++ post) = true.
Proof.
  induction pre as [|c pre IH].
  - cbn [append]. apply contains_here.
  - cbn [append contains]. rewrite IH. now destruct (String.prefix s _).
Qed.

(** A name that neither the file nor the star import binds. *)
Lemma load_global_unbound {pyobj : Type} (ns : namespace pyobj) (name : string) :
  mem_name name names_after_star = false ->
  mem_name name names_before_star = false ->
  star_import ns name = None ->
  load_global ns name = Raise (NameError name).
Proof.
  intros Ha Hb Hs. unfold load_global. now rewrite Ha, Hs, Hb.
Qed.

Lemma load_n_factors {pyobj : Type} (ns : namespace pyobj) :
  star_import ns "n_factors" = None ->
  load_global ns "n_factors" = Raise (NameError "n_factors").
Proof. intros H. now apply load_global_unbound. Qed.

Lemma mapM_ok_forall {A B : Type} (f : A -> result B) (l : list A) :
  (forall a, In a l -> exists b, f a = Ok b) ->
  exists bs, mapM f l = Ok bs /\ length bs = length l.
Proof.
  induction l as [|a l IH]; intros H; simpl.
  - now exists [].
  - destruct (H a (or_introl eq_refl)) as [b ->].
    destruct IH as [bs [-> Hl]]; [intros; apply H; now right|].
    exists (b :: bs). simpl. now rewrite Hl.
Qed.

(** The scaling of lines 77 to 81 returns whenever there is something to
    reduce ... *)
Lemma labels_of_factors_ok (factors : array) :
  has_entries factors = true -> exists labels, labels_of_factors factors = Ok labels.
Proof.
  destruct factors as [x|v|m|t]; simpl; intros H; eauto.
  destruct m as [|r m]; [discriminate|]. simpl in H.
  destruct r as [|x r]; [discriminate|]. simpl in H.
  cbn [reduce_axis0 bind].
  set (vmin := map _ _). set (vmax := map _ _).
  assert (Hmin : exists lo vmin', vmin = lo :: vmin').
  { subst vmin. unfold columns. simpl. eauto. }
  assert (Hmax : exists hi vmax', vmax = hi :: vmax').
  { subst vmax. unfold columns. simpl. eauto. }
  destruct Hmin as [lo [vmin' ->]]. destruct Hmax as [hi [vmax' ->]].
  destruct (mapM_ok_forall
              (fun row => argmax (normalise_row row (lo :: vmin') (hi :: vmax')))
              ((x :: r) :: m)) as [idx [-> _]].
  - intros row Hin.
    assert (Hrow : row <> []).
    { destruct Hin as [<-|Hin]; [discriminate|].
      rewrite forallb_forall in H. specialize (H row Hin).
      now destruct row. }
    destruct row as [|y row]; [now elim Hrow|]. simpl. eauto.
  - simpl. eauto.
Qed.

(** ... and raises a ValueError otherwise. *)
Lemma labels_of_factors_raises (factors : array) (e : exn) :
  labels_of_factors factors = Raise e -> exists msg, e = ValueError msg.
Proof.
  destruct factors as [x|v|m|t]; simpl; try discriminate.
  destruct m as [|r m]; cbn [reduce_axis0 bind]; [intros [= <-]; eauto|].
  set (vmin := map _ _). set (vmax := map _ _).
  generalize ((r :: m)). intros rows.
  assert (H : forall e, mapM (fun row => argmax (normalise_row row vmin vmax)) rows = Raise e ->
              exists msg, e = ValueError msg).
  { induction rows as [|row rows IH]; simpl; [discriminate|].
    intros e'. destruct (normalise_row row vmin vmax); simpl; [intros [= <-]; eauto|].
    destruct (mapM _ rows); simpl in *; [discriminate|].
    intros [= <-]. now apply IH. }
  destruct (mapM _ rows); simpl; [discriminate|].
  intros [= <-]. now apply H.
Qed.

Lemma supported_cases (name : string) :
  supported_algorithm name = true ->
  name = "knn"%string \/ name = "gmm"%string \/ name = "both"%string.
Proof.
  unfold supported_algorithm. intros H.
  apply orb_prop in H as [H|H]; [apply orb_prop in H as [H|H]|];
    apply String.eqb_eq in H; auto.
Qed.

Lemma unsupported_cases (name : string) :
  supported_algorithm name = false ->
  String.eqb name "knn" = false /\ String.eqb name "gmm" = false
  /\ String.eqb name "both" = false.
Proof.
  unfold supported_algorithm. intros H.
  apply orb_false_elim in H as [H H3]. apply orb_false_elim in H as [H1 H2].
  auto.
Qed.

(** C1 (the code at a failing input): with two codes, two samples and the
    default algorithm 'both', the call raises a NameError where the claim
    has it return the averaged scores. *)
Theorem both_raises_name_error :
  unsupervised_clustering_scores bare_namespace
    (Arr2 [[0; 0]; [1; 1]]) (Arr2 [[1; 0]; [0; 1]]) "both" 1
  = Raise (NameError "clustering_scores").
Proof.
  unfold unsupervised_clustering_scores.
  destruct (labels_of_factors_ok (Arr2 [[1; 0]; [0; 1]]) eq_refl) as [labels ->].
  reflexivity.
Qed.

(** C8 (amended): an algorithm name outside 'knn', 'gmm', 'both' makes the
    call raise a ValueError whatever the inputs and whatever the clustering
    functions are; when [factors] is 1-D, or 2-D with at least one row and
    one column, the message is the one of line 100 and includes the name. *)
Theorem unsupported_algorithm_raises {pyobj : Type} (ns : namespace pyobj)
  (representations factors : array) (name : string) (seed : Z) :
  supported_algorithm name = false ->
  (exists msg,
      unsupervised_clustering_scores ns representations factors name seed
      = Raise (ValueError msg))
  /\ (has_entries factors = true ->
      let msg := ("Not support for prediction_algorithm: '" ++ name ++ "'")%string in
      unsupervised_clustering_scores ns representations factors name seed
      = Raise (ValueError msg)
      /\ contains name msg = true).
Proof.
  intros H. apply unsupported_cases in H as [H1 [H2 H3]].
  unfold unsupervised_clustering_scores. split.
  - destruct (labels_of_factors factors) as [labels|e] eqn:E; simpl.
    + rewrite H1, H2, H3. eauto.
    + apply labels_of_factors_raises in E as [msg ->]. eauto.
  - intros He. destruct (labels_of_factors_ok factors He) as [labels ->].
    simpl. rewrite H1, H2, H3. split; [reflexivity|].
    apply (contains_app name "Not support for prediction_algorithm: '" "'").
Qed.

Lemma unsupported_algorithm_raises_witness :
  supported_algorithm "kmeans" = false
  /\ has_entries (Arr2 [[1; 0]; [0; 1]]) = true
  /\ unsupervised_clustering_scores bare_namespace
       (Arr2 [[0; 0]; [1; 1]]) (Arr2 [[1; 0]; [0; 1]]) "kmeans" 1
     = Raise (ValueError "Not support for prediction_algorithm: 'kmeans'").
Proof.
  split; [reflexivity|]. split; [reflexivity|].
  apply (unsupported_algorithm_raises bare_namespace
           (Arr2 [[0; 0]; [1; 1]]) (Arr2 [[1; 0]; [0; 1]]) "kmeans" 1);
    reflexivity.
Defined.

(** C8 (counterexample): a 2-D [factors] with one row and no column makes
    line 81 raise first, with a message that does not include the name. *)
Lemma unsupported_algorithm_empty_factors :
  exists e,
    unsupervised_clustering_scores bare_namespace
      (Arr2 [[0]]) (Arr2 [[]]) "kmeans" 1 = Raise e
    /\ contains "kmeans" (exn_message e) = false.
Proof.
  exists (ValueError "attempt to get argmax of an empty sequence").
  split; reflexivity.
Qed.

(** C10 (amended): when the star import does not bind [n_factors], a call
    with 'knn', 'gmm' or 'both' never returns; it raises a NameError, for
    [n_factors] or (under 'both') for [clustering_scores], provided that
    [factors] is 1-D, or 2-D with at least one row and one column. *)
Theorem supported_algorithms_never_return {pyobj : Type} (ns : namespace pyobj)
  (representations factors : array) (name : string) (seed : Z) :
  star_import ns "n_factors" = None ->
  supported_algorithm name = true ->
  (forall d,
      unsupervised_clustering_scores ns representations factors name seed
      <> Ok d)
  /\ (has_entries factors = true ->
      exists x,
        unsupervised_clustering_scores ns representations factors name seed
        = Raise (NameError x)
        /\ (x = "n_factors"%string
            \/ (name = "both"%string /\ x = "clustering_scores"%string))).
Proof.
  intros Hs H. pose proof (load_n_factors ns Hs) as Hn.
  assert (Hb : load_global ns "clustering_scores" = Raise (NameError "clustering_scores")
               \/ exists o, load_global ns "clustering_scores" = Ok o).
  { destruct (load_global ns "clustering_scores") as [o|e] eqn:E; eauto.
    left. unfold load_global in E. simpl in E.
    destruct (star_import ns "clustering_scores"); [discriminate|].
    exact (eq_sym E). }
  unfold unsupervised_clustering_scores. split.
  - intros d. destruct (labels_of_factors factors) as [labels|e]; simpl;
      [|discriminate].
    destruct (supported_cases name H) as [->|[->| ->]]; simpl;
      try (rewrite Hn; simpl; discriminate).
    destruct Hb as [->|[o ->]]; simpl; [discriminate|].
    rewrite Hn. simpl. discriminate.
  - intros He. destruct (labels_of_factors_ok factors He) as [labels ->].
    simpl.
    destruct (supported_cases name H) as [->|[->| ->]]; simpl;
      try (rewrite Hn; simpl; solve [eauto]).
    destruct Hb as [->|[o ->]]; simpl; [eauto|].
    rewrite Hn. simpl. eauto.
Qed.

Lemma supported_algorithms_never_return_witness :
  star_import bare_namespace "n_factors" = None
  /\ supported_algorithm "knn" = true
  /\ forall d,
      unsupervised_clustering_scores bare_namespace
        (Arr2 [[0; 0]; [1; 1]]) (Arr1 [0; 1]) "knn" 1 <> Ok d.
Proof.
  split; [reflexivity|]. split; [reflexivity|].
  apply (supported_algorithms_never_return bare_namespace
           (Arr2 [[0; 0]; [1; 1]]) (Arr1 [0; 1]) "knn" 1); reflexivity.
Defined.

(** C10 (counterexample): with a 2-D [factors] of one row and no column the
    exception is the ValueError of line 81, not a NameError. *)
Lemma supported_algorithm_empty_factors :
  exists e,
    unsupervised_clustering_scores bare_namespace
      (Arr2 [[0]]) (Arr2 [[]]) "knn" 1 = Raise e
    /\ is_name_error e = false.
Proof.
  exists (ValueError "attempt to get argmax of an empty sequence").
  split; reflexivity.
Qed.

(** ** Mutual information matrix *)

Lemma column_length {A : Type} (d : A) (m : list (list A)) (j : nat) :
  length (column d m j) = length m.
Proof. unfold column. apply length_map. Qed.

Lemma mapM_ok_map {A B : Type} (f : A -> result B) (g : A -> B) (l : list A) :
  (forall a, In a l -> f a = Ok (g a)) -> mapM f l = Ok (map g l).
Proof.
  induction l as [|a l IH]; intros H; simpl; [reflexivity|].
  rewrite (H a (or_introl eq_refl)). simpl.
  rewrite IH; [reflexivity|]. intros; apply H; now right.
Qed.

Lemma mapM_length {A B : Type} (f : A -> result B) (l : list A) (bs : list B) :
  mapM f l = Ok bs -> length bs = length l.
Proof.
  revert bs. induction l as [|a l IH]; simpl; intros bs.
  - now intros [= <-].
  - destruct (f a); simpl; [|discriminate].
    destruct (mapM f l); simpl; [|discriminate].
    intros [= <-]. simpl. f_equal. now apply IH.
Qed.

Lemma mutual_info_score_ok (a b : list Z) :
  length a = length b -> mutual_info_score a b = Ok (mi_value a b).
Proof.
  intros H. unfold mutual_info_score. rewrite H, Nat.eqb_refl. reflexivity.
Qed.

(** With as many rows of codes as of factors no call of
    [mutual_info_score] raises, and entry [(i, j)] is the score of factor
    [j] and code [i]. *)
Lemma discrete_mutual_info_ok (codes factors : list (list Z)) :
  length codes = length factors ->
  discrete_mutual_info (Arr2 codes) (Arr2 factors)
  = Ok (map (fun i => map (fun j => mi_value (column 0%Z factors j)
                                             (column 0%Z codes i))
                          (seq 0 (ncols factors)))
            (seq 0 (ncols codes))).
Proof.
  intros H. unfold discrete_mutual_info. simpl.
  apply mapM_ok_map. intros i _. apply mapM_ok_map. intros j _.
  apply mutual_info_score_ok. now rewrite !column_length.
Qed.

Lemma discrete_mutual_info_rows (codes factors : ndarray Z) (m : list (list R)) :
  discrete_mutual_info codes factors = Ok m -> length m = num_codes codes.
Proof.
  unfold discrete_mutual_info, num_codes.
  destruct (atleast_2d codes) as [x|v|c|t]; try discriminate.
  destruct (atleast_2d factors) as [x|v|f|t]; try discriminate.
  intros H. apply mapM_length in H. now rewrite H, length_seq.
Qed.

Lemma sort_axis0_length (m : list (list R)) :
  length (sort_axis0 m) = length m.
Proof. unfold sort_axis0, nrows. now rewrite length_map, length_seq. Qed.

Lemma getrow_ok_lt {A : Type} (m : list (list A)) (i : nat) (r : list A) :
  getrow m i = Ok r -> (i < length m)%nat.
Proof.
  unfold getrow. destruct (nth_error m i) eqn:E; [|discriminate].
  intros _. apply nth_error_Some. now rewrite E.
Qed.

Lemma atleast_2d_idem {A : Type} (a : ndarray A) :
  atleast_2d (atleast_2d a) = atleast_2d a.
Proof. now destruct a. Qed.



Lemma nth_map_seq {A : Type} (f : nat -> A) (n i : nat) (d : A) :
  (i < n)%nat -> nth i (map f (seq 0 n)) d = f i.
Proof.
  intros H. rewrite (nth_indep _ d (f 0%nat)) by now rewrite length_map, length_seq.
  rewrite map_nth, seq_nth by assumption. reflexivity.
Qed.

Lemma Rsum_map_opp {A : Type} (g : A -> R) (l : list A) :
  Rsum (map (fun a => - g a) l) = - Rsum (map g l).
Proof. induction l as [|a l IH]; simpl; [lra|]. rewrite IH. lra. Qed.

Lemma Rsum_map_ext_in {A : Type} (f g : A -> R) (l : list A) :
  (forall a, In a l -> f a = g a) -> Rsum (map f l) = Rsum (map g l).
Proof.
  intros H. f_equal. apply map_ext_in. exact H.
Qed.

(** ** A labelling against itself *)





Lemma count_pos (a : Z) (x : list Z) : In a x -> 0 < INR (count a x).
Proof.
  intros H. apply lt_0_INR. unfold count.
  now apply (proj1 (count_occ_In Z.eq_dec x a)).
Qed.







(** ** Sorting *)

Lemma insert_sorted_comm (x y : R) (l : list R) :
  insert_sorted x (insert_sorted y l) = insert_sorted y (insert_sorted x l).
Proof.
  induction l as [|z l IH]; simpl.
  - destruct (Rle_dec x y), (Rle_dec y x); try reflexivity.
    + f_equal; [lra | f_equal; lra].
    + lra.
  - destruct (Rle_dec y z) as [Hy|Hy], (Rle_dec x z) as [Hx|Hx]; simpl;
      destruct (Rle_dec x y) as [Hxy|Hxy], (Rle_dec y x) as [Hyx|Hyx];
      try (destruct (Rle_dec x z)); try (destruct (Rle_dec y z));
      try lra; try reflexivity.
    + assert (x = y) by lra. subst. reflexivity.
    + now rewrite IH.
    + now rewrite IH.
    + now rewrite IH.
Qed.

(** The sorted vector depends on the values only, not on their order. *)
Lemma np_sort_perm (l l' : list R) : Permutation l l' -> np_sort l = np_sort l'.
Proof.
  induction 1; simpl.
  - reflexivity.
  - now f_equal.
  - apply insert_sorted_comm.
  - congruence.
Qed.

Lemma insert_sorted_permutation (x : R) (l : list R) :
  Permutation (insert_sorted x l) (x :: l).
Proof.
  induction l as [|y l IH]; simpl; [reflexivity|].
  destruct (Rle_dec x y); [reflexivity|].
  rewrite IH. apply perm_swap.
Qed.

Lemma np_sort_permutation (l : list R) : Permutation (np_sort l) l.
Proof.
  induction l as [|x l IH]; simpl; [reflexivity|].
  rewrite insert_sorted_permutation. now constructor.
Qed.

Lemma np_sort_length (l : list R) : length (np_sort l) = length l.
Proof. apply Permutation_length, np_sort_permutation. Qed.

Lemma insert_sorted_sorted (x : R) (l : list R) :
  StronglySorted Rle l -> StronglySorted Rle (insert_sorted x l).
Proof.
  induction 1 as [|y l Hs IH Hy]; simpl.
  - repeat constructor.
  - destruct (Rle_dec x y) as [Hxy|Hxy].
    + constructor; [now constructor|]. constructor; [exact Hxy|].
      eapply Forall_impl; [|exact Hy]. simpl. intros; lra.
    + constructor; [exact IH|].
      rewrite (insert_sorted_permutation x l). constructor; [lra | exact Hy].
Qed.

Lemma np_sort_sorted (l : list R) : StronglySorted Rle (np_sort l).
Proof.
  induction l as [|x l IH]; simpl; [constructor|].
  now apply insert_sorted_sorted.
Qed.

Lemma all_equal_snoc (a : R) (l : list R) :
  Forall (eq a) l -> a :: l = l ++ [a].
Proof.
  induction 1 as [|y l <- _ IH]; simpl; [reflexivity|]. now rewrite <- IH.
Qed.

(** A value that is at least every entry goes last. *)
Lemma insert_sorted_upper (a : R) (l : list R) :
  StronglySorted Rle l -> Forall (fun y => y <= a) l ->
  insert_sorted a l = l ++ [a].
Proof.
  induction 1 as [|y l Hs IH Hy]; intros Ha; simpl; [reflexivity|].
  inversion Ha as [|? ? Hya Hla]; subst.
  destruct (Rle_dec a y) as [Hay|Hay].
  - assert (y = a) by lra. subst y. f_equal. apply all_equal_snoc.
    rewrite Forall_forall in *. intros z Hz.
    specialize (Hy z Hz). specialize (Hla z Hz). lra.
  - f_equal. now apply IH.
Qed.

Lemma np_sort_upper (a : R) (l : list R) :
  Forall (fun y => y <= a) l -> rev (np_sort (a :: l)) = a :: rev (np_sort l).
Proof.
  intros H. simpl. rewrite insert_sorted_upper.
  - now rewrite rev_app_distr.
  - apply np_sort_sorted.
  - now rewrite (np_sort_permutation l).
Qed.

(** ** Largest and second-largest value *)

Lemma fold_left_Rmax (l : list R) (x : R) :
  In (fold_left Rmax l x) (x :: l)
  /\ Forall (fun y => y <= fold_left Rmax l x) (x :: l).
Proof.
  revert x. induction l as [|y l IH]; intros x; simpl.
  - split; [now left|]. constructor; [lra|constructor].
  - destruct (IH (Rmax x y)) as [Hin Hall]. split.
    + destruct Hin as [Hin|Hin]; [|now right; right].
      rewrite <- Hin. unfold Rmax. destruct (Rle_dec x y); auto.
    + inversion Hall as [|? ? Hm Hl]; subst.
      pose proof (Rmax_l x y). pose proof (Rmax_r x y).
      constructor; [lra|]. constructor; [lra|exact Hl].
Qed.

Lemma largest_in (l : list R) : l <> [] -> In (largest l) l.
Proof.
  destruct l as [|x l]; [now intros H; elim H|]. intros _.
  apply fold_left_Rmax.
Qed.

Lemma largest_upper (l : list R) : Forall (fun y => y <= largest l) l.
Proof.
  destruct l as [|x l]; [constructor|]. apply fold_left_Rmax.
Qed.

Lemma remove_one_permutation (a : R) (l : list R) :
  In a l -> Permutation l (a :: remove_one a l).
Proof.
  induction l as [|y l IH]; simpl; [contradiction|].
  intros H. destruct (Req_dec_T a y) as [->|Hne]; [reflexivity|].
  destruct H as [H|H]; [congruence|].
  rewrite (IH H) at 1. apply perm_swap.
Qed.

(** The descending sort of a line starts with its largest value ... *)
Lemma sorted_descending_head (l : list R) :
  l <> [] ->
  rev (np_sort l) = largest l :: rev (np_sort (remove_one (largest l) l)).
Proof.
  intros H. pose proof (remove_one_permutation _ _ (largest_in l H)) as P.
  rewrite (np_sort_perm _ _ P). apply np_sort_upper.
  pose proof (Permutation_Forall P (largest_upper l)) as U.
  now inversion U.
Qed.

(** ... followed by its second-largest value. *)
Lemma sorted_descending_top2 (l : list R) :
  (2 <= length l)%nat ->
  exists rest,
    rev (np_sort l) = largest l :: second_largest l :: rest.
Proof.
  intros H. assert (Hl : l <> []) by (destruct l; [simpl in H; lia | discriminate]).
  rewrite (sorted_descending_head l Hl).
  pose proof (remove_one_permutation _ _ (largest_in l Hl)) as P.
  apply Permutation_length in P. simpl in P.
  assert (Hr : remove_one (largest l) l <> []).
  { destruct (remove_one (largest l) l); [simpl in P; lia | discriminate]. }
  rewrite (sorted_descending_head _ Hr). unfold second_largest. eauto.
Qed.

Lemma sorted_top_entries (l : list R) (d' : nat) :
  length l = S (S d') ->
  nth (S d') (np_sort l) 0 = largest l
  /\ nth d' (np_sort l) 0 = second_largest l.
Proof.
  intros H. destruct (sorted_descending_top2 l) as [rest E]; [lia|].
  pose proof (np_sort_length l) as Hlen. rewrite H in Hlen.
  assert (E' : np_sort l = rev rest ++ [second_largest l] ++ [largest l]).
  { rewrite <- (rev_involutive (np_sort l)), E. simpl.
    now rewrite <- app_assoc. }
  assert (Hr : length (rev rest) = d').
  { rewrite E' in Hlen. rewrite !length_app in Hlen. simpl in Hlen. lia. }
  rewrite E'. split.
  - rewrite app_nth2 by lia. rewrite Hr.
    replace (S d' - d')%nat with 1%nat by lia. reflexivity.
  - rewrite app_nth2 by lia. rewrite Hr, Nat.sub_diag. reflexivity.
Qed.

(** ** Mutual information gap *)

Lemma map2_map {A B C D : Type} (f : B -> C -> D) (g : A -> B) (g' : A -> C)
  (l : list A) :
  map2 f (map g l) (map g' l) = map (fun x => f (g x) (g' x)) l.
Proof. induction l as [|a l IH]; simpl; [reflexivity|]. now rewrite IH. Qed.

Lemma rev_map_seq_top {A : Type} (f : nat -> A) (d' : nat) :
  rev (map f (seq 0 (S (S d'))))
  = f (S d') :: f d' :: rev (map f (seq 0 d')).
Proof.
  rewrite (seq_S (S d')), (seq_S d'). simpl Nat.add.
  rewrite !map_app, !rev_app_distr. reflexivity.
Qed.

(** The first two rows of [np.sort(m, axis=0)[::-1]]: the largest and the
    second-largest value of every column. *)
Lemma sorted_rows (m : list (list R)) (d' : nat) :
  length m = S (S d') ->
  exists rest,
    rev (sort_axis0 m)
    = map (fun j => largest (column 0 m j)) (seq 0 (ncols m))
      :: map (fun j => second_largest (column 0 m j)) (seq 0 (ncols m))
      :: rest.
Proof.
  intros H. unfold sort_axis0, nrows, columns. rewrite H, rev_map_seq_top.
  rewrite !map_map. eexists. f_equal; [|f_equal].
  - apply map_ext. intros j.
    apply (sorted_top_entries (column 0 m j) d').
    now rewrite column_length.
  - apply map_ext. intros j.
    apply (sorted_top_entries (column 0 m j) d').
    now rewrite column_length.
Qed.

Lemma mi_matrix_shape (codes factors : list (list Z)) :
  length (mi_matrix codes factors) = ncols codes
  /\ (ncols codes <> 0%nat -> ncols (mi_matrix codes factors) = ncols factors).
Proof.
  unfold mi_matrix. rewrite length_map, length_seq. split; [reflexivity|].
  destruct (ncols codes); [now intros H; elim H|]. intros _. simpl.
  now rewrite length_map, length_seq.
Qed.

(** With at least two codes and as many rows of codes as of factors the
    function returns a value. *)
Lemma mutual_info_gap_returns (representations factors : list (list Z)) :
  length representations = length factors ->
  (2 <= ncols representations)%nat ->
  exists v, mutual_info_gap (Arr2 representations) (Arr2 factors) = Ok v.
Proof.
  intros Hn Hd. unfold mutual_info_gap. cbn [atleast_2d].
  rewrite (discrete_mutual_info_ok _ _ Hn).
  cbn [bind discrete_entropy atleast_1d].
  fold (mi_matrix representations factors).
  destruct (mi_matrix_shape representations factors) as [Hlen _].
  destruct (ncols representations) as [|[|d']] eqn:Ed; try lia.
  destruct (sorted_rows (mi_matrix representations factors) d' Hlen) as [rest ->].
  unfold getrow. cbn [nth_error bind]. eauto.
Qed.

(** C9: with exactly one code column (and as many rows of codes as of
    factors) [mutual_info_gap] raises the IndexError of [sorted_m[1, :]],
    index 1 out of bounds for size 1; and whenever the function returns a
    value the representations have at least two code columns. *)
Theorem mutual_info_gap_needs_two_codes :
  (forall representations factors : list (list Z),
      ncols representations = 1%nat ->
      length representations = length factors ->
      mutual_info_gap (Arr2 representations) (Arr2 factors)
      = Raise (IndexError 1 1))
  /\ (forall (representations factors : ndarray Z) (v : npfloat),
         mutual_info_gap representations factors = Ok v ->
         (2 <= num_codes representations)%nat).
Proof.
  split.
  - intros representations factors Hd Hn. unfold mutual_info_gap.
    cbn [atleast_2d]. rewrite (discrete_mutual_info_ok _ _ Hn), Hd.
    cbn [bind discrete_entropy atleast_1d seq map].
    unfold getrow. cbn. reflexivity.
  - intros representations factors v. unfold mutual_info_gap.
    destruct (discrete_mutual_info _ _) as [m|e] eqn:Em; [|discriminate].
    apply discrete_mutual_info_rows in Em.
    unfold num_codes in Em. rewrite atleast_2d_idem in Em. fold (num_codes representations) in Em.
    cbn [bind]. destruct (discrete_entropy _); [|discriminate]. cbn [bind].
    destruct (getrow _ 0); [|discriminate]. cbn [bind].
    destruct (getrow _ 1) eqn:E1; [|discriminate].
    apply getrow_ok_lt in E1. rewrite length_rev, sort_axis0_length in E1.
    intros _. lia.
Qed.

Lemma mutual_info_gap_needs_two_codes_witness :
  (ncols [[0%Z]; [0%Z]; [1%Z]; [1%Z]] = 1%nat
   /\ mutual_info_gap (Arr2 [[0%Z]; [0%Z]; [1%Z]; [1%Z]])
                      (Arr2 [[0%Z]; [0%Z]; [1%Z]; [1%Z]])
      = Raise (IndexError 1 1))
  /\ exists v,
      mutual_info_gap (Arr2 [[0; 1]; [0; 2]; [1; 3]]%Z)
                      (Arr2 [[5; 0]; [6; 0]; [7; 1]]%Z) = Ok v
      /\ (2 <= num_codes (Arr2 [[0; 1]; [0; 2]; [1; 3]]%Z))%nat.
Proof.
  split.
  - split; [reflexivity|].
    apply (proj1 mutual_info_gap_needs_two_codes); reflexivity.
  - destruct (mutual_info_gap_returns
                [[0; 1]; [0; 2]; [1; 3]]%Z [[5; 0]; [6; 0]; [7; 1]]%Z)
      as [v Hv]; [reflexivity | simpl; lia |].
    exists v. split; [exact Hv|].
    exact (proj2 mutual_info_gap_needs_two_codes _ _ v Hv).
Defined.

(** C3: with at least two code columns (and as many rows of codes as of
    factors) [mutual_info_gap] returns the mean over the factors [j] of
    [(top1_j - top2_j) / entropy(factor_j)], with [top1_j] and [top2_j] the
    largest and second-largest value of column [j] of the matrix of
    [discrete_mutual_info] and the entropies those of [discrete_entropy]. *)
Theorem mutual_info_gap_is_mean_gap (representations factors : list (list Z)) :
  length representations = length factors ->
  (2 <= ncols representations)%nat ->
  discrete_mutual_info (Arr2 representations) (Arr2 factors)
  = Ok (mi_matrix representations factors)
  /\ discrete_entropy (Arr2 factors) = Ok (Vector (factor_entropies factors))
  /\ mutual_info_gap (Arr2 representations) (Arr2 factors)
     = Ok (mutual_info_gap_spec (mi_matrix representations factors)
                                (factor_entropies factors)).
Proof.
  intros Hn Hd.
  pose proof (discrete_mutual_info_ok _ _ Hn) as Hm.
  fold (mi_matrix representations factors) in Hm.
  split; [exact Hm|]. split; [reflexivity|].
  unfold mutual_info_gap. cbn [atleast_2d]. rewrite Hm.
  cbn [bind discrete_entropy atleast_1d].
  fold (factor_entropies factors).
  destruct (mi_matrix_shape representations factors) as [Hlen Hcols].
  destruct (ncols representations) as [|[|d']] eqn:Ed; try lia.
  destruct (sorted_rows (mi_matrix representations factors) d' Hlen) as [rest ->].
  unfold getrow. cbn [nth_error bind].
  rewrite Hcols by lia. unfold mutual_info_gap_spec, factor_entropies.
  rewrite map2_map, !map_map, map2_map, length_map, length_seq.
  do 2 f_equal. apply map_ext_in. intros j Hj. apply in_seq in Hj.
  rewrite (nth_map_seq (fun j => entropy1D (column 0%Z factors j))) by lia.
  reflexivity.
Qed.

Lemma mutual_info_gap_is_mean_gap_witness :
  mutual_info_gap (Arr2 [[0; 1]; [0; 2]; [1; 3]]%Z) (Arr2 [[5; 0]; [6; 0]; [7; 1]]%Z)
  = Ok (mutual_info_gap_spec
          (mi_matrix [[0; 1]; [0; 2]; [1; 3]]%Z [[5; 0]; [6; 0]; [7; 1]]%Z)
          (factor_entropies [[5; 0]; [6; 0]; [7; 1]]%Z)).
Proof.
  apply (mutual_info_gap_is_mean_gap
           [[0; 1]; [0; 2]; [1; 3]]%Z [[5; 0]; [6; 0]; [7; 1]]%Z);
    [reflexivity | simpl; lia].
Defined.

(** ** Permuting the codes *)

Lemma mapM_ext_in {A B : Type} (f g : A -> result B) (l : list A) :
  (forall a, In a l -> f a = g a) -> mapM f l = mapM g l.
Proof.
  induction l as [|a l IH]; intros H; simpl; [reflexivity|].
  rewrite (H a (or_introl eq_refl)), IH; [reflexivity|].
  intros; apply H; now right.
Qed.

Lemma map_nth_seq {A : Type} (f : nat -> A) (p : list nat) :
  map (fun i => f (nth i p 0%nat)) (seq 0 (length p)) = map f p.
Proof.
  induction p as [|c p IH]; simpl; [reflexivity|]. f_equal.
  rewrite <- seq_shift, map_map. exact IH.
Qed.

Lemma ncols_permute_columns (p : list nat) (m : list (list Z)) :
  Permutation p (seq 0 (ncols m)) -> ncols (permute_columns p m) = ncols m.
Proof.
  intros P. apply Permutation_length in P. rewrite length_seq in P.
  destruct m as [|r m]; simpl in *; [reflexivity|].
  now rewrite length_map.
Qed.

Lemma column_permute_columns (p : list nat) (m : list (list Z)) (i : nat) :
  (i < length p)%nat ->
  column 0%Z (permute_columns p m) i = column 0%Z m (nth i p 0%nat).
Proof.
  intros H. unfold column, permute_columns. rewrite map_map.
  apply map_ext. intros r.
  rewrite (nth_indep _ 0%Z (nth 0 r 0%Z)) by now rewrite length_map.
  apply (map_nth (fun c => nth c r 0%Z)).
Qed.

(** With as many rows of codes as of factors, permuting the codes permutes
    the rows of the mutual-information matrix. *)
Lemma mi_matrix_permute (p : list nat) (codes factors : list (list Z)) :
  Permutation p (seq 0 (ncols codes)) ->
  mi_matrix (permute_columns p codes) factors
  = map (fun c => map (fun j => mi_value (column 0%Z factors j)
                                         (column 0%Z codes c))
                      (seq 0 (ncols factors))) p.
Proof.
  intros P. unfold mi_matrix. rewrite (ncols_permute_columns _ _ P).
  pose proof (Permutation_length P) as L. rewrite length_seq in L.
  rewrite <- L.
  rewrite <- (map_nth_seq
                (fun c => map (fun j => mi_value (column 0%Z factors j)
                                                 (column 0%Z codes c))
                              (seq 0 (ncols factors))) p).
  apply map_ext_in. intros i Hi.
  apply in_seq in Hi. apply map_ext. intros j.
  now rewrite column_permute_columns by lia.
Qed.

Lemma column_permutation (m m' : list (list R)) (j : nat) :
  Permutation m m' -> Permutation (column 0 m j) (column 0 m' j).
Proof. intros P. unfold column. now apply Permutation_map. Qed.

(** Sorting the columns forgets the order of the rows. *)
Lemma sort_axis0_permutation (m m' : list (list R)) :
  Permutation m m' -> ncols m = ncols m' -> sort_axis0 m = sort_axis0 m'.
Proof.
  intros P Hc. unfold sort_axis0, nrows, columns.
  rewrite (Permutation_length P), Hc. apply map_ext. intros i.
  rewrite !map_map. apply map_ext. intros j. f_equal.
  apply np_sort_perm. now apply column_permutation.
Qed.

Lemma ncols_rows_of_length {A B : Type} (f : A -> list B) (l : list A) (k : nat) :
  (forall a, length (f a) = k) -> l <> [] -> ncols (map f l) = k.
Proof. destruct l; [now intros _ H; elim H|]. intros H _. apply H. Qed.

(** When the row counts differ every call of [mutual_info_score] raises the
    same error, whatever the code. *)
Lemma discrete_mutual_info_mismatch (codes codes' factors : list (list Z)) :
  length codes = length codes' -> ncols codes = ncols codes' ->
  length codes <> length factors ->
  discrete_mutual_info (Arr2 codes) (Arr2 factors)
  = discrete_mutual_info (Arr2 codes') (Arr2 factors).
Proof.
  intros Hl Hc Hne. unfold discrete_mutual_info. cbn [atleast_2d].
  rewrite Hc. apply mapM_ext_in. intros i _. apply mapM_ext_in. intros j _.
  unfold mutual_info_score. rewrite !column_length, <- Hl.
  destruct (Nat.eqb_spec (length factors) (length codes)); [congruence|reflexivity].
Qed.

(** C7: taking the code columns of the representations in another order
    does not change what [mutual_info_gap] returns (or raises); and with at
    least two codes and as many rows of codes as of factors it returns a
    value. *)
Theorem mutual_info_gap_permutation_invariant
  (p : list nat) (representations factors : list (list Z)) :
  Permutation p (seq 0 (ncols representations)) ->
  mutual_info_gap (Arr2 (permute_columns p representations)) (Arr2 factors)
  = mutual_info_gap (Arr2 representations) (Arr2 factors)
  /\ (length representations = length factors ->
      (2 <= ncols representations)%nat ->
      exists v,
        mutual_info_gap (Arr2 (permute_columns p representations)) (Arr2 factors)
        = Ok v).
Proof.
  intros P.
  assert (Hl : length (permute_columns p representations) = length representations)
    by apply length_map.
  pose proof (ncols_permute_columns _ _ P) as Hc.
  assert (E : mutual_info_gap (Arr2 (permute_columns p representations)) (Arr2 factors)
              = mutual_info_gap (Arr2 representations) (Arr2 factors)).
  { unfold mutual_info_gap. cbn [atleast_2d].
    destruct (Nat.eq_dec (length representations) (length factors)) as [Hn|Hn].
    - rewrite !discrete_mutual_info_ok by congruence.
      fold (mi_matrix (permute_columns p representations) factors).
      fold (mi_matrix representations factors).
      cbn [bind]. rewrite (mi_matrix_permute _ _ _ P).
      set (row := fun c : nat => map _ (seq 0 (ncols factors))).
      assert (S : sort_axis0 (map row p) = sort_axis0 (mi_matrix representations factors)).
      { apply sort_axis0_permutation.
        - unfold mi_matrix. fold row. now apply Permutation_map.
        - unfold mi_matrix. fold row.
          destruct (ncols representations) as [|d] eqn:Ed.
          + apply Permutation_sym, Permutation_nil in P. now subst p.
          + assert (Hp : p <> []).
            { intros ->. apply Permutation_length in P. simpl in P. lia. }
            rewrite (ncols_rows_of_length row p (ncols factors)),
                    (ncols_rows_of_length row (seq 0 (S d)) (ncols factors));
              try reflexivity; try assumption; try discriminate;
              intros a; unfold row; now rewrite length_map, length_seq. }
      now rewrite S.
    - now rewrite (discrete_mutual_info_mismatch
                     (permute_columns p representations) representations factors)
        by congruence. }
  split; [exact E|]. intros Hn Hd. rewrite E.
  now apply mutual_info_gap_returns.
Qed.

Lemma mutual_info_gap_permutation_invariant_witness :
  Permutation [1; 0]%nat (seq 0 (ncols [[0; 1]; [0; 2]; [1; 3]]%Z))
  /\ mutual_info_gap (Arr2 (permute_columns [1; 0]%nat [[0; 1]; [0; 2]; [1; 3]]%Z))
                     (Arr2 [[5; 0]; [6; 0]; [7; 1]]%Z)
     = mutual_info_gap (Arr2 [[0; 1]; [0; 2]; [1; 3]]%Z)
                       (Arr2 [[5; 0]; [6; 0]; [7; 1]]%Z)
  /\ exists v,
      mutual_info_gap (Arr2 (permute_columns [1; 0]%nat [[0; 1]; [0; 2]; [1; 3]]%Z))
                      (Arr2 [[5; 0]; [6; 0]; [7; 1]]%Z) = Ok v.
Proof.
  assert (P : Permutation [1; 0]%nat (seq 0 (ncols [[0; 1]; [0; 2]; [1; 3]]%Z)))
    by (simpl; apply perm_swap).
  split; [exact P|].
  destruct (mutual_info_gap_permutation_invariant
              [1; 0]%nat [[0; 1]; [0; 2]; [1; 3]]%Z [[5; 0]; [6; 0]; [7; 1]]%Z P)
    as [E V].
  split; [exact E|]. apply V; [reflexivity | simpl; lia].
Defined.

(** ** Arithmetic of NumPy floats on finite values *)

Lemma is_zero_true (x : R) : x = 0 -> is_zero x = true.
Proof. intros H. unfold is_zero. now destruct (Req_dec_T x 0). Qed.

Lemma is_zero_false (x : R) : x <> 0 -> is_zero x = false.
Proof. intros H. unfold is_zero. now destruct (Req_dec_T x 0). Qed.

Lemma is_pos_true (x : R) : 0 < x -> is_pos x = true.
Proof. intros H. unfold is_pos. now destruct (Rlt_dec 0 x). Qed.

Lemma fdiv_fin (x y : R) : y <> 0 -> fdiv (Fin x) (Fin y) = Fin (x / y).
Proof. intros H. simpl. now rewrite is_zero_false. Qed.

Lemma fold_fadd_fin (l : list R) (a : R) :
  fold_left fadd (map Fin l) (Fin a) = Fin (a + Rsum l).
Proof.
  revert a. induction l as [|x l IH]; intros a; simpl.
  - f_equal. lra.
  - rewrite IH. f_equal. lra.
Qed.

Lemma fsum_fin (l : list R) : fsum (map Fin l) = Fin (Rsum l).
Proof. unfold fsum. rewrite fold_fadd_fin. f_equal. lra. Qed.


Lemma entr_pos (x : R) : 0 < x -> entr (Fin x) = Fin (- x * ln x).
Proof.
  intros H. simpl. rewrite is_zero_false by lra. now rewrite is_pos_true.
Qed.

Lemma Rsum_pos (l : list R) : Forall (fun x => 0 < x) l -> l <> [] -> 0 < Rsum l.
Proof.
  intros H Hl. destruct H as [|x l Hx H]; [now elim Hl|]. simpl.
  assert (0 <= Rsum l); [|lra].
  clear -H. induction H; simpl; lra.
Qed.


Lemma ln_INR_pos (n : nat) : (2 <= n)%nat -> / 2 < ln (INR n).
Proof.
  intros H. apply le_INR in H. change (INR 2) with (1 + 1) in H.
  pose proof ln_lt_2 as L.
  destruct (Req_dec (INR n) 2) as [->|Hne]; [exact L|].
  assert (ln 2 < ln (INR n)) by (apply ln_increasing; lra). lra.
Qed.

(** The entropy of a line of positive numbers, base at least 2: a finite
    number, the sum of [-p ln p] over the normalised entries divided by the
    logarithm of the base. *)
Lemma sp_entropy_pos (pk : list R) (base : nat) :
  Forall (fun x => 0 < x) pk -> pk <> [] -> (2 <= base)%nat ->
  sp_entropy pk base
  = Fin (Rsum (map (fun x => - (1 * x / Rsum pk) * ln (1 * x / Rsum pk)) pk)
         / ln (INR base)).
Proof.
  intros Hp Hne Hb. unfold sp_entropy.
  pose proof (Rsum_pos pk Hp Hne) as Hs.
  assert (E : map entr (map (fun x => fdiv (Fin (1 * x)) (Fin (Rsum pk))) pk)
              = map Fin (map (fun x => - (1 * x / Rsum pk) * ln (1 * x / Rsum pk)) pk)).
  { rewrite !map_map. apply map_ext_in. intros x Hx.
    rewrite Forall_forall in Hp. specialize (Hp x Hx).
    rewrite fdiv_fin by lra. apply entr_pos.
    apply Rdiv_lt_0_compat; lra. }
  rewrite E, fsum_fin.
  pose proof (ln_INR_pos base Hb) as Hl.
  assert (0 < INR base) by (apply lt_0_INR; lia).
  unfold flog. rewrite is_zero_false by lra. rewrite is_pos_true by lra.
  apply fdiv_fin. lra.
Qed.

(** ** Disentanglement and completeness as weighted sums *)

Lemma ncols_ones_like (M : list (list R)) : ncols (ones_like M) = ncols M.
Proof. destruct M; simpl; [reflexivity|]. apply length_map. Qed.


Lemma length_importance_weights (M : list (list R)) :
  length (importance_weights M) = length M.
Proof.
  unfold importance_weights, ones_like.
  destruct (is_zero _); [apply length_map|reflexivity].
Qed.

Lemma map2_nth {A B C : Type} (f : A -> B -> C) (l : list A) (l' : list B)
  (d : A) (d' : B) :
  length l = length l' ->
  map2 f l l' = map (fun i => f (nth i l d) (nth i l' d')) (seq 0 (length l)).
Proof.
  revert l'. induction l as [|a l IH]; intros [|b l'] H; simpl in *;
    try discriminate; [reflexivity|].
  f_equal. rewrite <- seq_shift, map_map. apply IH. now injection H.
Qed.

Lemma disentanglement_score_weighted (M : list (list R)) :
  disentanglement_score M = weighted_disentanglement M (importance_weights M).
Proof.
  unfold disentanglement_score, weighted_disentanglement, share, smooth, nrows.
  fold (importance_weights M). f_equal.
  rewrite (map2_nth _ _ _ (Fin 0) (Fin 0))
    by now rewrite !length_map, length_importance_weights.
  rewrite length_map. apply map_ext_in. intros i Hi. apply in_seq in Hi.
  f_equal.
  - rewrite (nth_indep _ _ (fsub (Fin 1)
               (sp_entropy (map (fun x => x + smoothing) []) (ncols M))))
      by (rewrite length_map; lia).
    apply (map_nth (fun row => fsub (Fin 1)
                     (sp_entropy (map (fun x => x + smoothing) row) (ncols M)))).
  - rewrite (nth_indep _ _ (fdiv (Fin (Rsum []))
                                 (Fin (matrix_sum (importance_weights M)))))
      by (rewrite length_map, length_importance_weights; lia).
    apply (map_nth (fun row => fdiv (Fin (Rsum row))
                                    (Fin (matrix_sum (importance_weights M))))).
Qed.


(** ** Lines with equal entries *)

Lemma smoothing_pos : 0 < smoothing.
Proof. unfold smoothing. lra. Qed.



Lemma nth_repeat_lt {A : Type} (a d : A) (k i : nat) :
  (i < k)%nat -> nth i (repeat a k) d = a.
Proof.
  intros H. rewrite (nth_indep _ d a) by now rewrite repeat_length.
  apply nth_repeat.
Qed.










(** ** An importance matrix that sums to zero *)

Lemma Rsum_nonneg (l : list R) : Forall (fun x => 0 <= x) l -> 0 <= Rsum l.
Proof. induction 1; simpl; lra. Qed.







(** With a base of 1 the entropy of a line is [0 / log 1]. *)
Lemma sp_entropy_single (a : R) : 0 < a -> sp_entropy [a] 1 = NaN.
Proof.
  intros Ha. unfold sp_entropy, fsum.
  cbn [map Rsum fold_right fold_left].
  rewrite fdiv_fin by lra.
  replace (1 * a / (a + 0)) with 1 by (field; lra).
  rewrite entr_pos by lra. rewrite ln_1. cbn [fadd].
  unfold flog. cbn [INR]. rewrite is_zero_false by lra. rewrite is_pos_true by lra.
  rewrite ln_1. cbn [fdiv]. rewrite !is_zero_true by lra. reflexivity.
Qed.


(** ** The rows of the identity matrix *)











(** ** Bounds on [-p ln p] *)

Lemma ln_le_sub1 (x : R) : 0 < x -> ln x <= x - 1.
Proof.
  intros Hx. pose proof (exp_ineq1_le (x - 1)) as H.
  replace (1 + (x - 1)) with x in H by lra.
  destruct H as [H|H].
  - apply (ln_increasing _ _ Hx) in H. rewrite ln_exp in H. lra.
  - rewrite H at 1. rewrite ln_exp. lra.
Qed.


Lemma ln_le_mono (x y : R) : 0 < x -> x <= y -> ln x <= ln y.
Proof.
  intros Hx [H|H]; [|subst; lra]. left. now apply ln_increasing.
Qed.




Lemma div_le_bound (a b S : R) : 0 < S -> a <= b * S -> a / S <= b.
Proof.
  intros HS H. apply (Rmult_le_reg_r S); [exact HS|].
  replace (a / S * S) with a by (field; lra). exact H.
Qed.

Lemma div_ge_bound (a b S : R) : 0 < S -> b * S <= a -> b <= a / S.
Proof.
  intros HS H. apply (Rmult_le_reg_r S); [exact HS|].
  replace (a / S * S) with a by (field; lra). exact H.
Qed.


Lemma Rsum_map_le {A : Type} (f g : A -> R) (l : list A) :
  (forall a, In a l -> f a <= g a) -> Rsum (map f l) <= Rsum (map g l).
Proof.
  induction l as [|a l IH]; intros H; simpl; [lra|].
  pose proof (H a (or_introl eq_refl)).
  assert (Rsum (map f l) <= Rsum (map g l)) by (apply IH; intros; apply H; now right).
  lra.
Qed.




(** ** The scores of the identity matrix *)

Lemma fsum_bounds {A : Type} (f : A -> npfloat) (l : list A) (lo hi : R) :
  (forall a, In a l -> exists y, f a = Fin y /\ lo <= y <= hi) ->
  exists x, fsum (map f l) = Fin x
            /\ INR (length l) * lo <= x <= INR (length l) * hi.
Proof.
  intros H.
  assert (E : exists ys, map f l = map Fin ys
                         /\ INR (length l) * lo <= Rsum ys <= INR (length l) * hi).
  { induction l as [|a l IH].
    - exists []. simpl. split; [reflexivity|lra].
    - destruct (H a (or_introl eq_refl)) as [y [Hy Hb]].
      destruct IH as [ys [Hys Hs]]; [intros; apply H; now right|].
      exists (y :: ys). change (length (a :: l)) with (S (length l)).
      rewrite S_INR. simpl. rewrite Hy, Hys. split; [reflexivity|lra]. }
  destruct E as [ys [-> Hs]]. rewrite fsum_fin. eauto.
Qed.










(** ** Relative strength *)

Lemma reduce_axis0_largest (mat : list (list R)) :
  mat <> [] ->
  reduce_axis0 Rmax "maximum" mat = Ok (map largest (columns 0 mat)).
Proof. destruct mat; [now intros H; elim H|]. reflexivity. Qed.

Lemma reduce_axis1_largest (mat : list (list R)) :
  ncols mat <> 0%nat ->
  reduce_axis1 Rmax "maximum" mat = Ok (map largest mat).
Proof.
  intros H. unfold reduce_axis1. destruct (ncols mat); [now elim H|]. reflexivity.
Qed.

(** The score of one axis, line by line. *)
Lemma axis_score_lines (lines : list (list R)) :
  axis_score (map largest lines) (map Rsum lines)
  = fmean (map (fun line => nan_to_num (fdiv (Fin (largest line ^ 2))
                                             (Fin (Rsum line)))) lines).
Proof.
  unfold axis_score. now rewrite !map_map, map2_map, map_map.
Qed.




Lemma columns_nonempty {A : Type} (d : A) (mat : list (list A)) :
  ncols mat <> 0%nat -> columns d mat <> [].
Proof.
  unfold columns. destruct (ncols mat); [now intros H; elim H|]. discriminate.
Qed.









(** ** A constant column *)

Lemma unique_repeat (a : Z) (n : nat) : unique (repeat a (S n)) = [a].
Proof.
  unfold unique. induction n as [|n IH]; [reflexivity|].
  change (repeat a (S (S n))) with (a :: repeat a (S n)).
  cbn [nodup]. destruct (in_dec Z.eq_dec a (repeat a (S n))) as [_|N].
  - exact IH.
  - elim N. now left.
Qed.

(** X1: the entropy of a constant column is exactly 0. *)
Theorem entropy_of_constant_column (a : Z) (n : nat) :
  discrete_entropy (Arr1 (repeat a (S n))) = Ok (Scalar 0).
Proof.
  unfold discrete_entropy. cbn [atleast_1d]. do 2 f_equal.
  unfold entropy1D. rewrite unique_repeat.
  change (repeat a (S n)) with (a :: repeat a n) at 1.
  cbn [map Rsum fold_right]. unfold count.
  rewrite count_occ_repeat_eq by reflexivity. rewrite repeat_length. lra.
Qed.

(** ** Sums over the distinct values and sums over the samples *)

Section Counting.
Context {A : Type} (dec : forall a b : A, {a = b} + {a <> b}).

Lemma Rsum_app (l l' : list R) : Rsum (l ++ l') = Rsum l + Rsum l'.
Proof. induction l as [|x l IH]; simpl; [lra|]. rewrite IH. lra. Qed.

Lemma Rsum_map_plus {B : Type} (f g : B -> R) (l : list B) :
  Rsum (map (fun u => f u + g u) l) = Rsum (map f l) + Rsum (map g l).
Proof. induction l as [|x l IH]; simpl; [lra|]. rewrite IH. lra. Qed.

Lemma Rsum_map_scal {B : Type} (c : R) (f : B -> R) (l : list B) :
  Rsum (map (fun u => c * f u) l) = c * Rsum (map f l).
Proof. induction l as [|x l IH]; simpl; [lra|]. rewrite IH. lra. Qed.

(** The weight of [x] alone in a list without repetition. *)
Lemma Rsum_select (x : A) (g : A -> R) (l : list A) :
  NoDup l ->
  Rsum (map (fun u => (if dec x u then 1 else 0) * g u) l)
  = if in_dec dec x l then g x else 0.
Proof.
  induction 1 as [|y l Hy Hl IH]; simpl; [reflexivity|].
  rewrite IH. destruct (dec y x) as [->|Hne].
  - destruct (dec x x) as [_|N]; [|now elim N].
    destruct (in_dec dec x l); [contradiction|lra].
  - destruct (dec x y) as [E|_]; [now elim Hne|].
    destruct (in_dec dec x l); lra.
Qed.

(** Adding over the distinct values, each as often as it occurs, is adding
    over the samples. *)
Lemma Rsum_nodup_count (g : A -> R) (l : list A) :
  Rsum (map (fun u => INR (count_occ dec l u) * g u) (nodup dec l))
  = Rsum (map g l).
Proof.
  induction l as [|x l IH]; [reflexivity|].
  assert (E : forall L,
             Rsum (map (fun u => INR (count_occ dec (x :: l) u) * g u) L)
             = Rsum (map (fun u => INR (count_occ dec l u) * g u) L)
               + Rsum (map (fun u => (if dec x u then 1 else 0) * g u) L)).
  { intros L. rewrite <- Rsum_map_plus. apply Rsum_map_ext_in. intros u _.
    simpl. destruct (dec x u); [rewrite S_INR|]; lra. }
  cbn [nodup]. destruct (in_dec dec x l) as [Hin|Hnin].
  - rewrite E, IH, Rsum_select by apply NoDup_nodup.
    destruct (in_dec dec x (nodup dec l)) as [_|N]; [simpl; lra|].
    elim N. now apply nodup_In.
  - cbn [map Rsum fold_right]. fold (Rsum (map (fun u => INR (count_occ dec (x :: l) u) * g u) (nodup dec l))).
    rewrite E, IH, Rsum_select by apply NoDup_nodup.
    destruct (in_dec dec x (nodup dec l)) as [Hin|_].
    + elim Hnin. now apply nodup_In in Hin.
    + rewrite count_occ_cons_eq by reflexivity.
      rewrite (proj1 (count_occ_not_In dec l x) Hnin). simpl INR. unfold Rsum. lra.
Qed.
End Counting.

Lemma Rsum_incl_le {A : Type} (g : A -> R) (l l' : list A) :
  NoDup l -> incl l l' -> (forall u, 0 <= g u) ->
  Rsum (map g l) <= Rsum (map g l').
Proof.
  intros Hd. revert l'. induction Hd as [|x l Hx Hd IH]; intros l' Hi Hg.
  - simpl. clear Hi. induction l' as [|y l' IH]; simpl; [lra|].
    pose proof (Hg y). unfold Rsum in *. lra.
  - assert (Hin : In x l') by (apply Hi; now left).
    apply in_split in Hin as [l1 [l2 ->]].
    assert (Hi' : incl l (l1 ++ l2)).
    { intros u Hu. assert (In u (l1 ++ x :: l2)) as H by (apply Hi; now right).
      apply in_app_or in H. apply in_or_app.
      destruct H as [H|[H|H]]; auto. subst. contradiction. }
    specialize (IH _ Hi' Hg). rewrite map_app, Rsum_app in *.
    simpl. unfold Rsum in *. lra.
Qed.

Lemma Rsum_list_prod {A B : Type} (f : A -> R) (g : B -> R)
  (l : list A) (l' : list B) :
  Rsum (map (fun p => f (fst p) * g (snd p)) (list_prod l l'))
  = Rsum (map f l) * Rsum (map g l').
Proof.
  induction l as [|a l IH]; simpl; [lra|].
  rewrite map_app, Rsum_app, map_map. cbn [fst snd].
  rewrite Rsum_map_scal. fold (list_prod l l'). rewrite IH.
  unfold Rsum. simpl. lra.
Qed.

Lemma Rsum_map_const {A : Type} (c : R) (l : list A) :
  Rsum (map (fun _ => c) l) = INR (length l) * c.
Proof.
  induction l as [|x l IH]; [simpl; lra|].
  change (length (x :: l)) with (S (length l)). rewrite S_INR.
  simpl. unfold Rsum in *. rewrite IH. lra.
Qed.

(** The counts of the distinct labels add up to the number of samples. *)
Lemma Rsum_counts (l : list Z) :
  Rsum (map (fun a => INR (count a l)) (unique l)) = INR (length l).
Proof.
  unfold count, unique.
  rewrite (Rsum_map_ext_in _ (fun a => INR (count_occ Z.eq_dec l a) * 1))
    by (intros; lra).
  rewrite (Rsum_nodup_count Z.eq_dec (fun _ => 1)), Rsum_map_const. lra.
Qed.

(** ** Labellings of equal length, sample by sample *)

Lemma map_fst_combine {A B : Type} (x : list A) (y : list B) :
  length x = length y -> map fst (combine x y) = x.
Proof.
  revert y. induction x as [|a x IH]; intros [|b y] H; simpl in *;
    try discriminate; [reflexivity|]. f_equal. apply IH. now injection H.
Qed.

Lemma map_snd_combine {A B : Type} (x : list A) (y : list B) :
  length x = length y -> map snd (combine x y) = y.
Proof.
  revert y. induction x as [|a x IH]; intros [|b y] H; simpl in *;
    try discriminate; [reflexivity|]. f_equal. apply IH. now injection H.
Qed.

Lemma count_pair_le_fst (x y : list Z) (c : Z * Z) :
  (count_occ pair_eq_dec (combine x y) c <= count (fst c) x)%nat.
Proof.
  unfold count. revert y. induction x as [|a x IH]; intros [|b y];
    cbn [combine]; try (simpl; lia).
  specialize (IH y).
  destruct (pair_eq_dec (a, b) c) as [E|N].
  - rewrite (count_occ_cons_eq _ _ E), count_occ_cons_eq by now subst c. lia.
  - rewrite (count_occ_cons_neq _ _ N).
    destruct (Z.eq_dec a (fst c)) as [E'|N'].
    + rewrite (count_occ_cons_eq _ _ E'). lia.
    + rewrite (count_occ_cons_neq _ _ N'). lia.
Qed.

Lemma count_pair_le_snd (x y : list Z) (c : Z * Z) :
  (count_occ pair_eq_dec (combine x y) c <= count (snd c) y)%nat.
Proof.
  unfold count. revert y. induction x as [|a x IH]; intros [|b y];
    cbn [combine]; try (simpl; lia).
  specialize (IH y).
  destruct (pair_eq_dec (a, b) c) as [E|N].
  - rewrite (count_occ_cons_eq _ _ E), count_occ_cons_eq by now subst c. lia.
  - rewrite (count_occ_cons_neq _ _ N).
    destruct (Z.eq_dec b (snd c)) as [E'|N'].
    + rewrite (count_occ_cons_eq _ _ E'). lia.
    + rewrite (count_occ_cons_neq _ _ N'). lia.
Qed.

Lemma count_pair_pos (x y : list Z) (c : Z * Z) :
  In c (combine x y) -> (1 <= count_occ pair_eq_dec (combine x y) c)%nat.
Proof. intros H. now apply (proj1 (count_occ_In pair_eq_dec _ c)). Qed.

(** The three counts of a cell that occurs: the cell, its row and its
    column of the contingency table. *)
Lemma cell_counts (x y : list Z) (c : Z * Z) :
  In c (combine x y) ->
  1 <= INR (count_occ pair_eq_dec (combine x y) c)
  /\ INR (count_occ pair_eq_dec (combine x y) c) <= INR (count (fst c) x)
  /\ INR (count_occ pair_eq_dec (combine x y) c) <= INR (count (snd c) y).
Proof.
  intros H. pose proof (count_pair_pos x y c H) as P.
  apply le_INR in P. simpl in P. split; [exact P|].
  split; apply le_INR; [apply count_pair_le_fst | apply count_pair_le_snd].
Qed.

(** The term a sample adds to the mutual information, up to the factor
    [1 / n]. *)
Lemma mi_value_samples (x y : list Z) :
  length x = length y ->
  mi_value x y
  = / INR (length x)
    * Rsum (map (fun c => ln (INR (count_occ pair_eq_dec (combine x y) c))
                          - ln (INR (count (fst c) x))
                          - ln (INR (count (snd c) y))
                          + ln (INR (length x)))
                (combine x y)).
Proof.
  intros H. unfold mi_value.
  assert (L : length (combine x y) = length x)
    by (rewrite length_combine; lia).
  rewrite <- Rsum_map_scal.
  rewrite <- (Rsum_nodup_count pair_eq_dec _ (combine x y)).
  apply Rsum_map_ext_in. intros c Hc. apply nodup_In in Hc.
  destruct (cell_counts x y c Hc) as [H1 [H2 H3]].
  unfold mi_cell. rewrite L. rewrite ln_mult by lra. unfold Rdiv. ring.
Qed.

Lemma entropy1D_samples (x : list Z) :
  x <> [] ->
  entropy1D x
  = - (/ INR (length x)
       * Rsum (map (fun a => ln (INR (count a x)) - ln (INR (length x))) x)).
Proof.
  intros H. unfold entropy1D. destruct x as [|a0 x0]; [now elim H|].
  set (x := a0 :: x0). f_equal.
  rewrite <- Rsum_map_scal.
  rewrite <- (Rsum_nodup_count Z.eq_dec _ x).
  apply Rsum_map_ext_in. intros a _. unfold count, Rdiv. ring.
Qed.

(** ** Bounds on mutual information and entropy *)

Lemma count_le_length (a : Z) (x : list Z) : INR (count a x) <= INR (length x).
Proof. apply le_INR. unfold count. apply count_occ_bound. Qed.

Lemma Rsum_map_nonneg {A : Type} (g : A -> R) (l : list A) :
  (forall u, In u l -> 0 <= g u) -> 0 <= Rsum (map g l).
Proof.
  induction l as [|x l IH]; intros H; simpl; [lra|].
  pose proof (H x (or_introl eq_refl)).
  assert (0 <= Rsum (map g l)) by (apply IH; intros; apply H; now right).
  unfold Rsum in *. lra.
Qed.

Lemma Rsum_map_pos_one {A : Type} (g : A -> R) (l : list A) (a : A) :
  (forall u, In u l -> 0 <= g u) -> In a l -> 0 < g a -> 0 < Rsum (map g l).
Proof.
  intros H Ha Hp. apply in_split in Ha as [l1 [l2 ->]].
  rewrite map_app, Rsum_app. simpl.
  assert (0 <= Rsum (map g l1))
    by (apply Rsum_map_nonneg; intros; apply H, in_or_app; now left).
  assert (0 <= Rsum (map g l2))
    by (apply Rsum_map_nonneg; intros; apply H, in_or_app; right; now right).
  unfold Rsum in *. lra.
Qed.

Lemma length_pos_INR {A : Type} (l : list A) : l <> [] -> 0 < INR (length l).
Proof. intros H. apply lt_0_INR. destruct l; [now elim H|simpl; lia]. Qed.

(** The entropy of a labelling is not negative ... *)
Lemma entropy1D_nonneg (x : list Z) : 0 <= entropy1D x.
Proof.
  destruct x as [|a0 x0]; [simpl; lra|]. set (x := a0 :: x0).
  assert (Hx : x <> []) by discriminate.
  rewrite (entropy1D_samples x Hx). pose proof (length_pos_INR x Hx) as Hn.
  rewrite Ropp_mult_distr_r, <- Rsum_map_opp.
  apply Rmult_le_pos; [left; now apply Rinv_0_lt_compat|].
  apply Rsum_map_nonneg. intros a Ha.
  pose proof (count_pos a x Ha). pose proof (count_le_length a x).
  pose proof (ln_le_mono _ _ H H0). lra.
Qed.

Lemma count_lt_length (a b : Z) (x : list Z) :
  In b x -> a <> b -> (count a x < length x)%nat.
Proof.
  unfold count. induction x as [|c x IH]; simpl; [contradiction|].
  intros [->|Hb] Hne.
  - destruct (Z.eq_dec b a) as [E|_]; [now elim Hne|].
    pose proof (count_occ_bound Z.eq_dec a x). lia.
  - specialize (IH Hb Hne). destruct (Z.eq_dec c a); lia.
Qed.

(** ... and positive as soon as two labels differ. *)
Lemma entropy1D_pos (x : list Z) (a b : Z) :
  In a x -> In b x -> a <> b -> 0 < entropy1D x.
Proof.
  intros Ha Hb Hne.
  assert (Hx : x <> []) by (destruct x; [contradiction|discriminate]).
  rewrite (entropy1D_samples x Hx). pose proof (length_pos_INR x Hx) as Hn.
  rewrite Ropp_mult_distr_r, <- Rsum_map_opp.
  apply Rmult_lt_0_compat; [now apply Rinv_0_lt_compat|].
  apply (Rsum_map_pos_one _ x a).
  - intros u Hu. pose proof (count_pos u x Hu). pose proof (count_le_length u x).
    pose proof (ln_le_mono _ _ H H0). lra.
  - exact Ha.
  - pose proof (count_pos a x Ha) as Hc.
    pose proof (count_lt_length a b x Hb Hne) as Hlt. apply lt_INR in Hlt.
    pose proof (ln_increasing _ _ Hc Hlt). lra.
Qed.

(** The mutual information of two labellings is at most the entropy of the
    first ... *)
Lemma mi_value_le_entropy (x y : list Z) :
  length x = length y -> x <> [] -> mi_value x y <= entropy1D x.
Proof.
  intros H Hx. rewrite (mi_value_samples x y H), (entropy1D_samples x Hx).
  pose proof (length_pos_INR x Hx) as Hn.
  rewrite Ropp_mult_distr_r, <- Rsum_map_opp.
  apply Rmult_le_compat_l; [left; now apply Rinv_0_lt_compat|].
  assert (E : forall g : Z -> R,
             Rsum (map g x) = Rsum (map (fun c => g (fst c)) (combine x y))).
  { intros g. rewrite <- (map_map fst g), (map_fst_combine x y H). reflexivity. }
  rewrite (E (fun a => - (ln (INR (count a x)) - ln (INR (length x))))).
  apply Rsum_map_le. intros c Hc.
  destruct (cell_counts x y c Hc) as [H1 [H2 H3]].
  assert (ln (INR (count_occ pair_eq_dec (combine x y) c))
          <= ln (INR (count (snd c) y))) by (apply ln_le_mono; lra).
  lra.
Qed.

Lemma cells_in_product (x y : list Z) :
  incl (nodup pair_eq_dec (combine x y)) (list_prod (unique x) (unique y)).
Proof.
  intros [a b] H. apply nodup_In in H. apply in_prod; unfold unique; apply nodup_In.
  - eapply in_combine_l; eassumption.
  - eapply in_combine_r; eassumption.
Qed.

(** ... and it is not negative. *)
Lemma mi_value_nonneg (x y : list Z) :
  length x = length y -> 0 <= mi_value x y.
Proof.
  intros H. destruct x as [|a0 x0].
  { unfold mi_value. simpl. lra. }
  set (x := a0 :: x0) in *. assert (Hx : x <> []) by discriminate.
  pose proof (length_pos_INR x Hx) as Hn. set (n := INR (length x)) in *.
  rewrite (mi_value_samples x y H). fold n.
  apply Rmult_le_pos; [left; now apply Rinv_0_lt_compat|].
  set (r := fun c : Z * Z =>
              INR (count (fst c) x) * INR (count (snd c) y)
              / (n * INR (count_occ pair_eq_dec (combine x y) c))).
  assert (Hlow : Rsum (map (fun c => 1 - r c) (combine x y))
                 <= Rsum (map (fun c => ln (INR (count_occ pair_eq_dec (combine x y) c))
                                        - ln (INR (count (fst c) x))
                                        - ln (INR (count (snd c) y)) + ln n)
                              (combine x y))).
  { apply Rsum_map_le. intros c Hc.
    destruct (cell_counts x y c Hc) as [H1 [H2 H3]].
    assert (Hr : 0 < r c).
    { unfold r. apply Rdiv_lt_0_compat; apply Rmult_lt_0_compat; lra. }
    pose proof (ln_le_sub1 (r c) Hr) as L.
    unfold r in L at 1. unfold Rdiv in L.
    rewrite ln_mult, ln_mult, ln_Rinv, ln_mult in L; try lra.
    - apply Rmult_lt_0_compat; lra.
    - apply Rmult_lt_0_compat; lra.
    - apply Rinv_0_lt_compat, Rmult_lt_0_compat; lra. }
  assert (Hr : Rsum (map r (combine x y)) <= n).
  { rewrite <- (Rsum_nodup_count pair_eq_dec r (combine x y)).
    rewrite (Rsum_map_ext_in _
               (fun c => / n * (INR (count (fst c) x) * INR (count (snd c) y)))).
    - rewrite Rsum_map_scal.
      assert (B : Rsum (map (fun c => INR (count (fst c) x) * INR (count (snd c) y))
                            (nodup pair_eq_dec (combine x y)))
                  <= n * n).
      { etransitivity.
        - apply (Rsum_incl_le _ _ (list_prod (unique x) (unique y))).
          + apply NoDup_nodup.
          + apply cells_in_product.
          + intros u. apply Rmult_le_pos; apply pos_INR.
        - rewrite (Rsum_list_prod (fun a => INR (count a x)) (fun b => INR (count b y))).
          rewrite !Rsum_counts, <- H. fold n. lra. }
      apply (Rmult_le_compat_l (/ n)) in B; [|left; now apply Rinv_0_lt_compat].
      replace (/ n * (n * n)) with n in B by (field; lra). exact B.
    - intros c Hc. apply nodup_In in Hc.
      destruct (cell_counts x y c Hc) as [H1 [H2 H3]].
      unfold r. field. lra. }
  rewrite (Rsum_map_ext_in (fun c => 1 - r c) (fun c => 1 + - r c)) in Hlow
    by (intros; lra).
  rewrite Rsum_map_plus, Rsum_map_opp, Rsum_map_const in Hlow.
  assert (L : INR (length (combine x y)) = n).
  { unfold n. f_equal. rewrite length_combine. lia. }
  rewrite L in Hlow. lra.
Qed.

(** ** The range of the mutual information gap *)

Lemma mi_value_le_entropy_pred (x y : list Z) :
  length x = length y -> y <> [] -> mi_value x y <= entropy1D y.
Proof.
  intros H Hy. rewrite (mi_value_samples x y H), (entropy1D_samples y Hy).
  assert (Hx : x <> []) by (destruct x, y; try discriminate; now elim Hy).
  pose proof (length_pos_INR x Hx) as Hn. rewrite <- H.
  rewrite Ropp_mult_distr_r, <- Rsum_map_opp.
  apply Rmult_le_compat_l; [left; now apply Rinv_0_lt_compat|].
  assert (E : forall g : Z -> R,
             Rsum (map g y) = Rsum (map (fun c => g (snd c)) (combine x y))).
  { intros g. rewrite <- (map_map snd g), (map_snd_combine x y H). reflexivity. }
  rewrite (E (fun a => - (ln (INR (count a y)) - ln (INR (length x))))).
  apply Rsum_map_le. intros c Hc.
  destruct (cell_counts x y c Hc) as [H1 [H2 H3]].
  assert (ln (INR (count_occ pair_eq_dec (combine x y) c))
          <= ln (INR (count (fst c) x))) by (apply ln_le_mono; lra).
  lra.
Qed.

Lemma column_mi_matrix (codes factors : list (list Z)) (j : nat) :
  (j < ncols factors)%nat ->
  column 0 (mi_matrix codes factors) j
  = map (fun i => mi_value (column 0%Z factors j) (column 0%Z codes i))
        (seq 0 (ncols codes)).
Proof.
  intros H. unfold column at 1, mi_matrix. rewrite map_map.
  apply map_ext. intros i. now rewrite nth_map_seq.
Qed.

(** What [mutual_info_gap] returns on 2-D arrays with at least two codes
    and as many rows. *)
Lemma mutual_info_gap_value (representations factors : list (list Z)) :
  length representations = length factors ->
  (2 <= ncols representations)%nat ->
  mutual_info_gap (Arr2 representations) (Arr2 factors)
  = Ok (mutual_info_gap_spec (mi_matrix representations factors)
                             (factor_entropies factors)).
Proof.
  intros Hn Hd. unfold mutual_info_gap. cbn [atleast_2d].
  rewrite (discrete_mutual_info_ok _ _ Hn).
  fold (mi_matrix representations factors).
  cbn [bind discrete_entropy atleast_1d].
  fold (factor_entropies factors).
  destruct (mi_matrix_shape representations factors) as [Hlen Hcols].
  destruct (ncols representations) as [|[|d']] eqn:Ed; try lia.
  destruct (sorted_rows (mi_matrix representations factors) d' Hlen) as [rest ->].
  unfold getrow. cbn [nth_error bind].
  rewrite Hcols by lia. unfold mutual_info_gap_spec, factor_entropies.
  rewrite map2_map, !map_map, map2_map, length_map, length_seq.
  do 2 f_equal. apply map_ext_in. intros j Hj. apply in_seq in Hj.
  rewrite (nth_map_seq (fun j => entropy1D (column 0%Z factors j))) by lia.
  reflexivity.
Qed.

Lemma remove_one_incl (a : R) (l : list R) : incl (remove_one a l) l.
Proof.
  induction l as [|y l IH]; simpl; [easy|].
  destruct (Req_dec_T a y); intros u Hu; [now right|].
  destruct Hu as [<-|Hu]; [now left|right; now apply IH].
Qed.

(** The gap between the two largest values of a line of at least two
    numbers between 0 and [b]. *)
Lemma top_gap_bounds (l : list R) (b : R) :
  (2 <= length l)%nat -> Forall (fun v => 0 <= v <= b) l ->
  0 <= largest l - second_largest l <= b.
Proof.
  intros Hlen Hb. rewrite Forall_forall in Hb.
  assert (Hl : l <> []) by (destruct l; [simpl in Hlen; lia|discriminate]).
  pose proof (largest_in l Hl) as H1.
  pose proof (remove_one_permutation _ _ H1) as P.
  assert (Hr : remove_one (largest l) l <> []).
  { apply Permutation_length in P. simpl in P.
    destruct (remove_one (largest l) l); [simpl in P; lia|discriminate]. }
  pose proof (largest_in _ Hr) as H2. fold (second_largest l) in H2.
  apply remove_one_incl in H2.
  pose proof (largest_upper l) as U. rewrite Forall_forall in U.
  specialize (U _ H2). pose proof (Hb _ H1). pose proof (Hb _ H2). lra.
Qed.

Lemma varies_nonempty (l : list Z) : varies l -> l <> [].
Proof. intros [a [b [Ha _]]]. destruct l; [contradiction|discriminate]. Qed.

(** X2: with as many rows of codes as of factors, every entry of the matrix
    of [discrete_mutual_info] is at least 0 and at most the entropy of its
    factor and the entropy of its code. *)
Theorem discrete_mutual_info_bounds (codes factors : list (list Z)) (i j : nat) :
  length codes = length factors ->
  (i < ncols codes)%nat -> (j < ncols factors)%nat ->
  exists m,
    discrete_mutual_info (Arr2 codes) (Arr2 factors) = Ok m
    /\ 0 <= nth j (nth i m []) 0
    /\ nth j (nth i m []) 0 <= entropy1D (column 0%Z factors j)
    /\ nth j (nth i m []) 0 <= entropy1D (column 0%Z codes i).
Proof.
  intros Hn Hi Hj. eexists. split; [apply (discrete_mutual_info_ok _ _ Hn)|].
  rewrite (nth_map_seq _ _ _ _ Hi), (nth_map_seq _ _ _ _ Hj).
  assert (L : length (column 0%Z factors j) = length (column 0%Z codes i))
    by now rewrite !column_length.
  assert (Hf : column 0%Z factors j <> []).
  { destruct factors; [simpl in Hj; lia|discriminate]. }
  assert (Hc : column 0%Z codes i <> []).
  { destruct codes; [simpl in Hi; lia|discriminate]. }
  split; [now apply mi_value_nonneg|].
  split; [now apply mi_value_le_entropy | now apply mi_value_le_entropy_pred].
Qed.

Lemma discrete_mutual_info_bounds_witness :
  exists m,
    discrete_mutual_info (Arr2 [[0; 1]; [0; 2]; [1; 3]]%Z)
                         (Arr2 [[5; 0]; [6; 0]; [7; 1]]%Z) = Ok m
    /\ 0 <= nth 1 (nth 0 m []) 0
    /\ nth 1 (nth 0 m []) 0 <= entropy1D (column 0%Z [[5; 0]; [6; 0]; [7; 1]]%Z 1)
    /\ nth 1 (nth 0 m []) 0 <= entropy1D (column 0%Z [[0; 1]; [0; 2]; [1; 3]]%Z 0).
Proof.
  apply (discrete_mutual_info_bounds
           [[0; 1]; [0; 2]; [1; 3]]%Z [[5; 0]; [6; 0]; [7; 1]]%Z 0 1);
    [reflexivity | simpl; lia | simpl; lia].
Defined.

(** X3: with at least two codes, at least one factor, as many rows of codes
    as of factors and no factor column that holds a single label,
    [mutual_info_gap] returns a number between 0 and 1. *)
Theorem mutual_info_gap_range (representations factors : list (list Z)) :
  length representations = length factors ->
  (2 <= ncols representations)%nat -> (1 <= ncols factors)%nat ->
  (forall j, (j < ncols factors)%nat -> varies (column 0%Z factors j)) ->
  exists v,
    mutual_info_gap (Arr2 representations) (Arr2 factors) = Ok (Fin v)
    /\ 0 <= v <= 1.
Proof.
  intros Hn Hd Hk Hv. rewrite (mutual_info_gap_value _ _ Hn Hd).
  unfold mutual_info_gap_spec, fmean.
  assert (Lh : length (factor_entropies factors) = ncols factors)
    by (unfold factor_entropies; now rewrite length_map, length_seq).
  rewrite Lh, length_map, length_seq.
  destruct (fsum_bounds
              (fun j => fdiv (Fin (largest (column 0 (mi_matrix representations factors) j)
                                   - second_largest
                                       (column 0 (mi_matrix representations factors) j)))
                             (Fin (nth j (factor_entropies factors) 0)))
              (seq 0 (ncols factors)) 0 1) as [s [-> Hs]].
  - intros j Hj. apply in_seq in Hj.
    unfold factor_entropies.
    rewrite (nth_map_seq (fun j => entropy1D (column 0%Z factors j))) by lia.
    destruct (Hv j) as [a [b [Ha [Hb Hab]]]]; [lia|].
    pose proof (entropy1D_pos _ a b Ha Hb Hab) as Hpos.
    rewrite fdiv_fin by lra. eexists. split; [reflexivity|].
    rewrite column_mi_matrix by lia.
    destruct (top_gap_bounds
                (map (fun i => mi_value (column 0%Z factors j)
                                        (column 0%Z representations i))
                     (seq 0 (ncols representations)))
                (entropy1D (column 0%Z factors j))) as [G0 G1].
    + rewrite length_map, length_seq. exact Hd.
    + apply Forall_forall. intros t Ht. apply in_map_iff in Ht as [i [<- _]].
      assert (L : length (column 0%Z factors j)
                  = length (column 0%Z representations i))
        by now rewrite !column_length.
      split; [now apply mi_value_nonneg|].
      apply mi_value_le_entropy; [exact L|].
      apply varies_nonempty. apply Hv. lia.
    + split.
      * apply Rmult_le_pos; [exact G0|]. left. now apply Rinv_0_lt_compat.
      * apply div_le_bound; lra.
  - rewrite length_seq in Hs.
    assert (0 < INR (ncols factors)) by (apply lt_0_INR; lia).
    rewrite fdiv_fin by lra. eexists. split; [reflexivity|].
    split.
    + apply Rmult_le_pos; [lra|]. left. now apply Rinv_0_lt_compat.
    + apply div_le_bound; lra.
Qed.

Lemma mutual_info_gap_range_witness :
  exists v,
    mutual_info_gap (Arr2 [[0; 1]; [0; 2]; [1; 3]]%Z)
                    (Arr2 [[5; 0]; [6; 0]; [7; 1]]%Z) = Ok (Fin v)
    /\ 0 <= v <= 1.
Proof.
  apply (mutual_info_gap_range
           [[0; 1]; [0; 2]; [1; 3]]%Z [[5; 0]; [6; 0]; [7; 1]]%Z);
    [reflexivity | simpl; lia | simpl; lia |].
  intros [|[|j]] Hj; [| |simpl in Hj; lia].
  - exists 5%Z, 6%Z. simpl. repeat split; auto; lia.
  - exists 0%Z, 1%Z. simpl. repeat split; auto; lia.
Defined.

(** ** A factor with a single label *)

Lemma fold_fadd_nan (l : list npfloat) : fold_left fadd l NaN = NaN.
Proof. induction l as [|x l IH]; simpl; [reflexivity|exact IH]. Qed.

Lemma fsum_nan (l : list npfloat) : In NaN l -> fsum l = NaN.
Proof.
  unfold fsum. generalize (Fin 0). induction l as [|x l IH]; intros acc H;
    [contradiction|].
  simpl. destruct H as [->|H].
  - replace (fadd acc NaN) with NaN by now destruct acc.
    apply fold_fadd_nan.
  - now apply IH.
Qed.

Lemma entropy1D_constant (a : Z) (n : nat) : entropy1D (repeat a (S n)) = 0.
Proof.
  unfold entropy1D. rewrite unique_repeat.
  change (repeat a (S n)) with (a :: repeat a n) at 1.
  cbn [map Rsum fold_right]. unfold count.
  rewrite count_occ_repeat_eq by reflexivity. rewrite repeat_length. lra.
Qed.

(** X4: when a factor column holds a single label (its entropy is 0),
    [mutual_info_gap] returns NaN, whatever the other factors are. *)
Theorem mutual_info_gap_constant_factor
  (representations factors : list (list Z)) (j : nat) :
  length representations = length factors ->
  (2 <= ncols representations)%nat -> (j < ncols factors)%nat ->
  constant (column 0%Z factors j) ->
  mutual_info_gap (Arr2 representations) (Arr2 factors) = Ok NaN.
Proof.
  intros Hn Hd Hj [a [n Hc]]. rewrite (mutual_info_gap_value _ _ Hn Hd).
  unfold mutual_info_gap_spec, fmean.
  assert (Lh : length (factor_entropies factors) = ncols factors)
    by (unfold factor_entropies; now rewrite length_map, length_seq).
  rewrite Lh. rewrite fsum_nan; [reflexivity|].
  apply in_map_iff. exists j. split; [|apply in_seq; lia].
  unfold factor_entropies.
  rewrite (nth_map_seq (fun j => entropy1D (column 0%Z factors j))) by lia.
  rewrite Hc, entropy1D_constant.
  rewrite column_mi_matrix by lia.
  destruct (top_gap_bounds
              (map (fun i => mi_value (column 0%Z factors j)
                                      (column 0%Z representations i))
                   (seq 0 (ncols representations))) 0) as [G0 G1].
  - rewrite length_map, length_seq. exact Hd.
  - apply Forall_forall. intros t Ht. apply in_map_iff in Ht as [i [<- _]].
    assert (L : length (column 0%Z factors j)
                = length (column 0%Z representations i))
      by now rewrite !column_length.
    split; [now apply mi_value_nonneg|].
    rewrite <- (entropy1D_constant a n), <- Hc.
    apply mi_value_le_entropy; [exact L|]. rewrite Hc. discriminate.
  - cbn [fdiv]. rewrite !is_zero_true by lra. reflexivity.
Qed.

Lemma mutual_info_gap_constant_factor_witness :
  mutual_info_gap (Arr2 [[0; 1]; [0; 2]; [1; 3]]%Z)
                  (Arr2 [[5; 4]; [6; 4]; [7; 4]]%Z) = Ok NaN.
Proof.
  apply (mutual_info_gap_constant_factor
           [[0; 1]; [0; 2]; [1; 3]]%Z [[5; 4]; [6; 4]; [7; 4]]%Z 1);
    [reflexivity | simpl; lia | simpl; lia |].
  exists 4%Z, 2%nat. reflexivity.
Defined.

(** ** Exchanging the two labellings *)

Section Injective.
Context {A B : Type} (decA : forall a b : A, {a = b} + {a <> b})
        (decB : forall a b : B, {a = b} + {a <> b})
        (f : A -> B) (f_inj : forall a b, f a = f b -> a = b).

Lemma in_map_inj (a : A) (l : list A) : In (f a) (map f l) <-> In a l.
Proof.
  rewrite in_map_iff. split.
  - intros [b [E H]]. apply f_inj in E. now subst.
  - intros H. now exists a.
Qed.

Lemma nodup_map_inj (l : list A) : nodup decB (map f l) = map f (nodup decA l).
Proof.
  induction l as [|a l IH]; simpl; [reflexivity|].
  destruct (in_dec decB (f a) (map f l)) as [H|H];
    destruct (in_dec decA a l) as [H'|H']; simpl; rewrite ?IH; try reflexivity.
  - elim H'. now apply in_map_inj.
  - elim H. now apply in_map_inj.
Qed.

Lemma count_occ_map_inj (a : A) (l : list A) :
  count_occ decB (map f l) (f a) = count_occ decA l a.
Proof.
  induction l as [|b l IH]; [reflexivity|]. cbn [map].
  destruct (decA b a) as [E|N].
  - rewrite (count_occ_cons_eq decA l E), count_occ_cons_eq by now subst.
    now rewrite IH.
  - rewrite (count_occ_cons_neq decA l N), count_occ_cons_neq;
      [exact IH|]. intros E. apply f_inj in E. contradiction.
Qed.
End Injective.

Lemma swap_pair_inj (c c' : Z * Z) : swap_pair c = swap_pair c' -> c = c'.
Proof. destruct c, c'. unfold swap_pair. simpl. congruence. Qed.

Lemma combine_swap (x y : list Z) : combine y x = map swap_pair (combine x y).
Proof.
  revert y. induction x as [|a x IH]; intros [|b y]; simpl; try reflexivity.
  now rewrite IH.
Qed.

(** The mutual information does not depend on which labelling comes
    first. *)
Lemma mi_value_sym (x y : list Z) : mi_value y x = mi_value x y.
Proof.
  unfold mi_value. rewrite combine_swap.
  rewrite (nodup_map_inj pair_eq_dec pair_eq_dec swap_pair swap_pair_inj), map_map.
  apply Rsum_map_ext_in. intros c _. unfold mi_cell.
  rewrite combine_swap, length_map.
  rewrite (count_occ_map_inj pair_eq_dec pair_eq_dec swap_pair swap_pair_inj).
  cbn [swap_pair fst snd].
  rewrite (Rmult_comm (INR (count (snd c) y)) (INR (count (fst c) x))).
  reflexivity.
Qed.

(** X5: exchanging codes and factors transposes the matrix of
    [discrete_mutual_info]: entry [(i, j)] of one is entry [(j, i)] of the
    other. *)
Theorem discrete_mutual_info_symmetric (codes factors : list (list Z)) (i j : nat) :
  length codes = length factors ->
  (i < ncols codes)%nat -> (j < ncols factors)%nat ->
  exists m m',
    discrete_mutual_info (Arr2 codes) (Arr2 factors) = Ok m
    /\ discrete_mutual_info (Arr2 factors) (Arr2 codes) = Ok m'
    /\ nth j (nth i m []) 0 = nth i (nth j m' []) 0.
Proof.
  intros Hn Hi Hj. eexists. eexists.
  split; [apply (discrete_mutual_info_ok _ _ Hn)|].
  split; [apply (discrete_mutual_info_ok _ _ (eq_sym Hn))|].
  rewrite (nth_map_seq _ _ _ _ Hi), (nth_map_seq _ _ _ _ Hj).
  rewrite (nth_map_seq _ _ _ _ Hj), (nth_map_seq _ _ _ _ Hi).
  apply mi_value_sym.
Qed.

Lemma discrete_mutual_info_symmetric_witness :
  exists m m',
    discrete_mutual_info (Arr2 [[0; 1]; [0; 2]; [1; 3]]%Z)
                         (Arr2 [[5; 0]; [6; 0]; [7; 1]]%Z) = Ok m
    /\ discrete_mutual_info (Arr2 [[5; 0]; [6; 0]; [7; 1]]%Z)
                            (Arr2 [[0; 1]; [0; 2]; [1; 3]]%Z) = Ok m'
    /\ nth 1 (nth 0 m []) 0 = nth 0 (nth 1 m' []) 0.
Proof.
  apply (discrete_mutual_info_symmetric
           [[0; 1]; [0; 2]; [1; 3]]%Z [[5; 0]; [6; 0]; [7; 1]]%Z 0 1);
    [reflexivity | simpl; lia | simpl; lia].
Defined.

(** ** Renaming the labels *)

Lemma count_map_inj (f : Z -> Z) (a : Z) (x : list Z) :
  injective f -> count (f a) (map f x) = count a x.
Proof. intros Hf. unfold count. now apply count_occ_map_inj. Qed.

Lemma unique_map_inj (f : Z -> Z) (x : list Z) :
  injective f -> unique (map f x) = map f (unique x).
Proof. intros Hf. unfold unique. now apply nodup_map_inj. Qed.

(** The entropy does not depend on the names of the labels ... *)
Lemma entropy1D_relabel (f : Z -> Z) (x : list Z) :
  injective f -> entropy1D (map f x) = entropy1D x.
Proof.
  intros Hf. unfold entropy1D. destruct x as [|a0 x0]; [reflexivity|].
  set (x := a0 :: x0). change (map f x) with (f a0 :: map f x0) at 1.
  cbv iota. fold (map f x).
  rewrite (unique_map_inj f x Hf), map_map, length_map. f_equal.
  apply Rsum_map_ext_in. intros a _. now rewrite (count_map_inj f a x Hf).
Qed.

Lemma combine_map (f g : Z -> Z) (x y : list Z) :
  combine (map f x) (map g y) = map (rename_pair f g) (combine x y).
Proof.
  revert y. induction x as [|a x IH]; intros [|b y]; simpl; try reflexivity.
  now rewrite IH.
Qed.

(** ... and neither does the mutual information. *)
Lemma mi_value_relabel (f g : Z -> Z) (x y : list Z) :
  injective f -> injective g -> mi_value (map f x) (map g y) = mi_value x y.
Proof.
  intros Hf Hg.
  assert (Hi : forall c c', rename_pair f g c = rename_pair f g c' -> c = c').
  { intros [a b] [a' b']. unfold rename_pair. simpl. intros [= E1 E2].
    apply Hf in E1. apply Hg in E2. now subst. }
  unfold mi_value. rewrite combine_map.
  rewrite (nodup_map_inj pair_eq_dec pair_eq_dec (rename_pair f g) Hi), map_map.
  apply Rsum_map_ext_in. intros c _. unfold mi_cell.
  rewrite combine_map, length_map.
  rewrite (count_occ_map_inj pair_eq_dec pair_eq_dec (rename_pair f g) Hi).
  cbn [rename_pair fst snd].
  now rewrite (count_map_inj f _ x Hf), (count_map_inj g _ y Hg).
Qed.

Lemma length_relabel (fs : nat -> Z -> Z) (m : list (list Z)) :
  length (relabel fs m) = length m.
Proof. apply length_map. Qed.

Lemma ncols_relabel (fs : nat -> Z -> Z) (m : list (list Z)) :
  ncols (relabel fs m) = ncols m.
Proof. destruct m; simpl; [reflexivity|]. now rewrite length_map, length_seq. Qed.

Lemma column_relabel (fs : nat -> Z -> Z) (m : list (list Z)) (i : nat) :
  rectangular (ncols m) m -> (i < ncols m)%nat ->
  column 0%Z (relabel fs m) i = map (fs i) (column 0%Z m i).
Proof.
  intros Hr Hi. unfold column, relabel. rewrite !map_map.
  apply map_ext_in. intros r Hin. unfold rectangular in Hr.
  rewrite Forall_forall in Hr. specialize (Hr r Hin).
  rewrite nth_map_seq by lia. reflexivity.
Qed.

Lemma mutual_info_score_relabel (f g : Z -> Z) (x y : list Z) :
  injective f -> injective g ->
  mutual_info_score (map f x) (map g y) = mutual_info_score x y.
Proof.
  intros Hf Hg. unfold mutual_info_score.
  now rewrite !length_map, (mi_value_relabel f g x y Hf Hg).
Qed.

(** X6: renaming the labels of every code column and of every factor
    column, each by a one-to-one map, changes nothing to what
    [mutual_info_gap] returns. *)
Theorem mutual_info_gap_relabel (fs gs : nat -> Z -> Z)
  (representations factors : list (list Z)) :
  (forall i, injective (fs i)) -> (forall j, injective (gs j)) ->
  rectangular (ncols representations) representations ->
  rectangular (ncols factors) factors ->
  mutual_info_gap (Arr2 (relabel fs representations)) (Arr2 (relabel gs factors))
  = mutual_info_gap (Arr2 representations) (Arr2 factors).
Proof.
  intros Hf Hg Hr Hk. unfold mutual_info_gap. cbn [atleast_2d].
  assert (Em : discrete_mutual_info (Arr2 (relabel fs representations))
                                    (Arr2 (relabel gs factors))
               = discrete_mutual_info (Arr2 representations) (Arr2 factors)).
  { unfold discrete_mutual_info. cbn [atleast_2d]. rewrite !ncols_relabel.
    apply mapM_ext_in. intros i Hi. apply in_seq in Hi.
    apply mapM_ext_in. intros j Hj. apply in_seq in Hj.
    rewrite !column_relabel by (assumption || lia).
    now apply mutual_info_score_relabel. }
  assert (Eh : discrete_entropy (Arr2 (relabel gs factors))
               = discrete_entropy (Arr2 factors)).
  { unfold discrete_entropy. cbn [atleast_1d]. rewrite ncols_relabel.
    do 2 f_equal. apply map_ext_in. intros j Hj. apply in_seq in Hj.
    rewrite column_relabel by (assumption || lia).
    now apply entropy1D_relabel. }
  now rewrite Em, Eh.
Qed.

Lemma mutual_info_gap_relabel_witness :
  mutual_info_gap
    (Arr2 (relabel (fun _ a => (a + 10)%Z) [[0; 1]; [0; 2]; [1; 3]]%Z))
    (Arr2 (relabel (fun _ a => (- a)%Z) [[5; 0]; [6; 0]; [7; 1]]%Z))
  = mutual_info_gap (Arr2 [[0; 1]; [0; 2]; [1; 3]]%Z)
                    (Arr2 [[5; 0]; [6; 0]; [7; 1]]%Z).
Proof.
  apply (mutual_info_gap_relabel (fun _ a => (a + 10)%Z) (fun _ a => (- a)%Z)).
  - intros _ a b H. lia.
  - intros _ a b H. lia.
  - repeat constructor.
  - repeat constructor.
Defined.

(** ** Reordering the samples *)

Lemma Rsum_perm (l l' : list R) : Permutation l l' -> Rsum l = Rsum l'.
Proof. induction 1; simpl; unfold Rsum in *; lra. Qed.

Lemma nth_all {A : Type} (l : list A) (d : A) :
  map (fun i => nth i l d) (seq 0 (length l)) = l.
Proof.
  induction l as [|a l IH]; simpl; [reflexivity|]. f_equal.
  rewrite <- seq_shift, map_map. exact IH.
Qed.

Lemma reorder_permutation {A : Type} (p : list nat) (l : list A) (d : A) :
  Permutation p (seq 0 (length l)) -> Permutation (map (fun i => nth i l d) p) l.
Proof.
  intros P. apply (Permutation_map (fun i => nth i l d)) in P.
  now rewrite nth_all in P.
Qed.

Lemma nth_column (m : list (list Z)) (i j : nat) :
  nth i (column 0%Z m j) 0%Z = nth j (nth i m []) 0%Z.
Proof.
  unfold column.
  destruct (Nat.lt_ge_cases i (length m)) as [H|H].
  - rewrite (nth_indep _ 0%Z (nth j [] 0%Z)) by now rewrite length_map.
    apply (map_nth (fun r => nth j r 0%Z)).
  - rewrite nth_overflow by now rewrite length_map.
    rewrite (nth_overflow m) by assumption. now destruct j.
Qed.

Lemma column_reorder (p : list nat) (m : list (list Z)) (j : nat) :
  column 0%Z (reorder p m) j = map (fun i => nth i (column 0%Z m j) 0%Z) p.
Proof.
  unfold reorder. unfold column at 1. rewrite map_map.
  apply map_ext. intros i. symmetry. apply nth_column.
Qed.

Lemma combine_reorder (p : list nat) (x y : list Z) :
  length x = length y ->
  combine (map (fun i => nth i x 0%Z) p) (map (fun i => nth i y 0%Z) p)
  = map (fun i => nth i (combine x y) (0%Z, 0%Z)) p.
Proof.
  intros H. induction p as [|i p IH]; simpl; [reflexivity|].
  rewrite IH. f_equal. symmetry. now apply combine_nth.
Qed.

Lemma count_perm (a : Z) (x x' : list Z) :
  Permutation x x' -> count a x = count a x'.
Proof. intros P. unfold count. now apply Permutation_count_occ. Qed.

(** The mutual information depends on the samples, not on their order. *)
Lemma mi_value_perm (x y x' y' : list Z) :
  length x = length y -> length x' = length y' ->
  Permutation (combine x y) (combine x' y') ->
  mi_value x y = mi_value x' y'.
Proof.
  intros H H' P. rewrite (mi_value_samples x y H), (mi_value_samples x' y' H').
  assert (Px : Permutation x x').
  { rewrite <- (map_fst_combine x y H), <- (map_fst_combine x' y' H').
    now apply Permutation_map. }
  assert (Py : Permutation y y').
  { rewrite <- (map_snd_combine x y H), <- (map_snd_combine x' y' H').
    now apply Permutation_map. }
  rewrite (Permutation_length Px). f_equal.
  rewrite (Rsum_perm _ _ (Permutation_map _ P)).
  apply Rsum_map_ext_in. intros c _.
  rewrite (proj1 (Permutation_count_occ pair_eq_dec _ _) P c).
  now rewrite (count_perm _ _ _ Px), (count_perm _ _ _ Py).
Qed.

Lemma entropy1D_perm (x x' : list Z) :
  Permutation x x' -> entropy1D x = entropy1D x'.
Proof.
  intros P. destruct x as [|a x0].
  - apply Permutation_nil in P. now subst.
  - assert (Hx : a :: x0 <> []) by discriminate.
    assert (Hx' : x' <> []).
    { intros ->. apply Permutation_sym, Permutation_nil in P. discriminate. }
    rewrite (entropy1D_samples _ Hx), (entropy1D_samples _ Hx').
    rewrite (Permutation_length P). do 2 f_equal.
    rewrite (Rsum_perm _ _ (Permutation_map _ P)).
    apply Rsum_map_ext_in. intros c _.
    now rewrite (count_perm _ _ _ P).
Qed.

Lemma ncols_reorder {A : Type} (p : list nat) (m : list (list A)) :
  rectangular (ncols m) m -> Permutation p (seq 0 (length m)) ->
  ncols (reorder p m) = ncols m.
Proof.
  intros Hr P. destruct p as [|i p].
  - apply Permutation_nil in P. destruct m; [reflexivity|discriminate].
  - simpl. assert (Hi : In i (seq 0 (length m)))
      by (apply (Permutation_in _ P); now left).
    apply in_seq in Hi. unfold rectangular in Hr. rewrite Forall_forall in Hr.
    apply Hr. apply nth_In. lia.
Qed.

(** X7: taking the samples in another order, the same for representations
    and factors, changes nothing to what [mutual_info_gap] returns. *)
Theorem mutual_info_gap_reorder (p : list nat)
  (representations factors : list (list Z)) :
  length representations = length factors ->
  rectangular (ncols representations) representations ->
  rectangular (ncols factors) factors ->
  Permutation p (seq 0 (length representations)) ->
  mutual_info_gap (Arr2 (reorder p representations)) (Arr2 (reorder p factors))
  = mutual_info_gap (Arr2 representations) (Arr2 factors).
Proof.
  intros Hn Hr Hk P.
  assert (P' : Permutation p (seq 0 (length factors))) by now rewrite <- Hn.
  assert (Hl : length (reorder p representations) = length (reorder p factors))
    by (unfold reorder; now rewrite !length_map).
  unfold mutual_info_gap. cbn [atleast_2d].
  rewrite (discrete_mutual_info_ok _ _ Hl), (discrete_mutual_info_ok _ _ Hn).
  rewrite (ncols_reorder p representations Hr P), (ncols_reorder p factors Hk P').
  assert (Em : forall i j,
             mi_value (column 0%Z (reorder p factors) j)
                      (column 0%Z (reorder p representations) i)
             = mi_value (column 0%Z factors j) (column 0%Z representations i)).
  { intros i j. rewrite !column_reorder.
    assert (L : length (column 0%Z factors j) = length (column 0%Z representations i))
      by now rewrite !column_length.
    apply mi_value_perm; [now rewrite !length_map | exact L |].
    rewrite (combine_reorder p _ _ L). apply reorder_permutation.
    rewrite length_combine, <- L, Nat.min_id, column_length. exact P'. }
  assert (Eh : forall j,
             entropy1D (column 0%Z (reorder p factors) j)
             = entropy1D (column 0%Z factors j)).
  { intros j. rewrite column_reorder. apply entropy1D_perm.
    apply reorder_permutation. now rewrite column_length. }
  cbn [bind discrete_entropy atleast_1d].
  rewrite (ncols_reorder p factors Hk P').
  rewrite (map_ext _ _ Eh).
  rewrite (map_ext (fun i => map (fun j => mi_value (column 0%Z (reorder p factors) j)
                                                    (column 0%Z (reorder p representations) i))
                                 (seq 0 (ncols factors)))
                   (fun i => map (fun j => mi_value (column 0%Z factors j)
                                                    (column 0%Z representations i))
                                 (seq 0 (ncols factors))));
    [reflexivity|].
  intros i. apply map_ext. intros j. apply Em.
Qed.

Lemma mutual_info_gap_reorder_witness :
  mutual_info_gap (Arr2 (reorder [2; 0; 1]%nat [[0; 1]; [0; 2]; [1; 3]]%Z))
                  (Arr2 (reorder [2; 0; 1]%nat [[5; 0]; [6; 0]; [7; 1]]%Z))
  = mutual_info_gap (Arr2 [[0; 1]; [0; 2]; [1; 3]]%Z)
                    (Arr2 [[5; 0]; [6; 0]; [7; 1]]%Z).
Proof.
  apply (mutual_info_gap_reorder [2; 0; 1]%nat);
    [reflexivity | repeat constructor | repeat constructor |].
  simpl. apply Permutation_sym.
  apply (perm_trans (l' := [0; 2; 1]%nat)); [|apply perm_swap].
  apply perm_skip, perm_swap.
Defined.

(** ** The range of the disentanglement and completeness scores *)

Lemma fsum_fin_map {A : Type} (f : A -> npfloat) (g : A -> R) (l : list A) :
  (forall a, In a l -> f a = Fin (g a)) -> fsum (map f l) = Fin (Rsum (map g l)).
Proof.
  intros H. rewrite <- fsum_fin, map_map. f_equal. now apply map_ext_in.
Qed.

(** The entropy of a line of [k >= 2] positive numbers, base [k], is a
    number between 0 and 1. *)
Lemma sp_entropy_range (pk : list R) (k : nat) :
  Forall (fun x => 0 < x) pk -> length pk = k -> (2 <= k)%nat ->
  exists h, sp_entropy pk k = Fin h /\ 0 <= h <= 1.
Proof.
  intros Hp Hlen Hk.
  assert (Hne : pk <> []) by (destruct pk; [simpl in Hlen; lia|discriminate]).
  rewrite (sp_entropy_pos pk k Hp Hne Hk). eexists. split; [reflexivity|].
  pose proof (Rsum_pos pk Hp Hne) as HS. remember (Rsum pk) as S eqn:ES.
  pose proof (ln_INR_pos k Hk) as HL.
  assert (HK : 0 < INR k) by (apply lt_0_INR; lia).
  rewrite Forall_forall in Hp.
  assert (Hle : forall x, In x pk -> x <= S).
  { intros x Hx. apply in_split in Hx as [l1 [l2 E]]. rewrite ES, E.
    rewrite Rsum_app. simpl.
    assert (0 <= Rsum l1).
    { apply Rsum_nonneg, Forall_forall. intros u Hu. left. apply Hp.
      rewrite E. apply in_or_app. now left. }
    assert (0 <= Rsum l2).
    { apply Rsum_nonneg, Forall_forall. intros u Hu. left. apply Hp.
      rewrite E. apply in_or_app. right. now right. }
    unfold Rsum in *. lra. }
  assert (Hsum : Rsum (map (fun x => 1 * x / S) pk) = 1).
  { rewrite (Rsum_map_ext_in _ (fun x => / S * x)) by (intros; field; lra).
    rewrite Rsum_map_scal, map_id, <- ES. field. lra. }
  split.
  - apply Rmult_le_pos; [|left; apply Rinv_0_lt_compat; lra].
    apply Rsum_map_nonneg. intros x Hx. specialize (Hp x Hx).
    assert (Hq : 0 < 1 * x / S) by (apply Rdiv_lt_0_compat; lra).
    assert (1 * x / S <= 1) by (apply div_le_bound; [lra|]; specialize (Hle x Hx); lra).
    pose proof (ln_le_mono _ _ Hq H) as L. rewrite ln_1 in L. nra.
  - apply div_le_bound; [lra|]. rewrite Rmult_1_l.
    assert (G : Rsum (map (fun x => - (1 * x / S) * ln (1 * x / S)
                                    - ln (INR k) * (1 * x / S)) pk)
                <= Rsum (map (fun x => / INR k - 1 * x / S) pk)).
    { apply Rsum_map_le. intros x Hx. specialize (Hp x Hx).
      assert (Hq : 0 < 1 * x / S) by (apply Rdiv_lt_0_compat; lra).
      remember (1 * x / S) as q eqn:Eq.
      assert (Hr : 0 < / (INR k * q))
        by (apply Rinv_0_lt_compat, Rmult_lt_0_compat; lra).
      pose proof (ln_le_sub1 _ Hr) as L.
      rewrite ln_Rinv, ln_mult in L by (try apply Rmult_lt_0_compat; lra).
      assert (E : q * (/ (INR k * q) - 1) = / INR k - q) by (field; lra).
      assert (q * (- (ln (INR k) + ln q)) <= q * (/ (INR k * q) - 1))
        by (apply Rmult_le_compat_l; lra).
      lra. }
    rewrite (Rsum_map_ext_in
               (fun x => - (1 * x / S) * ln (1 * x / S) - ln (INR k) * (1 * x / S))
               (fun x => - (1 * x / S) * ln (1 * x / S)
                         + - (ln (INR k) * (1 * x / S)))) in G by (intros; lra).
    rewrite Rsum_map_plus, Rsum_map_opp, Rsum_map_scal, Hsum in G.
    rewrite (Rsum_map_ext_in (fun x => / INR k - 1 * x / S)
                             (fun x => / INR k + - (1 * x / S))) in G by (intros; lra).
    rewrite Rsum_map_plus, Rsum_map_opp, Rsum_map_const, Hsum, Hlen in G.
    replace (INR k * / INR k) with 1 in G by (field; lra). lra.
Qed.

Lemma smooth_positive (line : list R) :
  Forall (fun x => 0 <= x) line -> Forall (fun x => 0 < x) (smooth line).
Proof.
  intros H. unfold smooth. apply Forall_map. eapply Forall_impl; [|exact H].
  intros x Hx. simpl in *. pose proof smoothing_pos. lra.
Qed.

Lemma matrix_sum_nonneg (M : list (list R)) : nonnegative M -> 0 <= matrix_sum M.
Proof.
  intros H. unfold matrix_sum. apply Rsum_nonneg. apply Forall_map.
  eapply Forall_impl; [|exact H]. intros row. apply Rsum_nonneg.
Qed.

Lemma matrix_sum_ones (M : list (list R)) (k : nat) :
  rectangular k M -> matrix_sum (ones_like M) = INR (length M) * INR k.
Proof.
  intros H. unfold matrix_sum, ones_like. rewrite map_map.
  rewrite (Rsum_map_ext_in _ (fun _ => INR k)).
  - apply Rsum_map_const.
  - intros row Hr. unfold rectangular in H. rewrite Forall_forall in H.
    rewrite Rsum_map_const, (H row Hr). lra.
Qed.

(** The weights of a non-negative matrix with at least one row and one
    column are non-negative and their total is positive. *)
Lemma importance_weights_positive (M : list (list R)) (k : nat) :
  rectangular k M -> nonnegative M -> (1 <= length M)%nat -> (1 <= k)%nat ->
  nonnegative (importance_weights M) /\ 0 < matrix_sum (importance_weights M).
Proof.
  intros Hr Hn Hd Hk. unfold importance_weights.
  destruct (Req_dec (matrix_sum M) 0) as [E|E].
  - rewrite (is_zero_true _ E). split.
    + unfold nonnegative, ones_like. apply Forall_map, Forall_forall.
      intros row _. apply Forall_map, Forall_forall. intros; simpl; lra.
    + rewrite (matrix_sum_ones M k Hr).
      apply Rmult_lt_0_compat; apply lt_0_INR; lia.
  - rewrite (is_zero_false _ E). split; [exact Hn|].
    pose proof (matrix_sum_nonneg M Hn). lra.
Qed.

(** The disentanglement score of a non-negative matrix with at least one
    code and two factors. *)
Lemma disentanglement_range (M : list (list R)) (k : nat) :
  rectangular k M -> nonnegative M -> (1 <= length M)%nat -> (2 <= k)%nat ->
  exists x, disentanglement_score M = Fin x /\ 0 <= x <= 1.
Proof.
  intros Hr Hn Hd Hk. rewrite disentanglement_score_weighted.
  destruct (importance_weights_positive M k Hr Hn Hd) as [Wn Wp]; [lia|].
  set (W := importance_weights M) in *.
  assert (Hc : ncols M = k).
  { destruct M as [|r M]; [simpl in Hd; lia|]. simpl.
    unfold rectangular in Hr. now inversion Hr. }
  unfold weighted_disentanglement, nrows, share. rewrite Hc.
  assert (Hterm : forall i, (i < length M)%nat ->
            exists h, sp_entropy (smooth (nth i M [])) k = Fin h /\ 0 <= h <= 1).
  { intros i Hi. unfold rectangular, nonnegative in Hr, Hn.
    rewrite Forall_forall in Hr, Hn.
    assert (Hin : In (nth i M []) M) by now apply nth_In.
    apply sp_entropy_range; [|unfold smooth; rewrite length_map; now apply Hr|exact Hk].
    apply smooth_positive. now apply Hn. }
  assert (E : exists g, (forall i, (i < length M)%nat ->
                           sp_entropy (smooth (nth i M [])) k = Fin (g i)
                           /\ 0 <= g i <= 1)).
  { clear -Hterm. induction (length M) as [|n IH].
    - exists (fun _ => 0). intros i Hi. lia.
    - destruct IH as [g Hg]; [intros i Hi; apply Hterm; lia|].
      destruct (Hterm n) as [h Hh]; [lia|].
      exists (fun i => if Nat.eqb i n then h else g i). intros i Hi.
      destruct (Nat.eqb_spec i n) as [->|Hne]; [exact Hh|]. apply Hg. lia. }
  destruct E as [g Hg].
  rewrite (fsum_fin_map _ (fun i => (1 + - g i)
                                    * (Rsum (nth i W []) / matrix_sum W))).
  - eexists. split; [reflexivity|].
    assert (Hw : forall i, 0 <= Rsum (nth i W []) / matrix_sum W).
    { intros i. apply Rmult_le_pos; [|left; now apply Rinv_0_lt_compat].
      destruct (Nat.lt_ge_cases i (length W)) as [Hi|Hi].
      - apply Rsum_nonneg. unfold nonnegative in Wn. rewrite Forall_forall in Wn.
        apply Wn. now apply nth_In.
      - rewrite nth_overflow by assumption. simpl. lra. }
    assert (Htot : Rsum (map (fun i => Rsum (nth i W []) / matrix_sum W)
                             (seq 0 (length M))) = 1).
    { rewrite <- (length_importance_weights M). fold W.
      rewrite (Rsum_map_ext_in _ (fun i => / matrix_sum W * Rsum (nth i W [])))
        by (intros; field; lra).
      rewrite Rsum_map_scal.
      rewrite <- (map_map (fun i => nth i W []) Rsum), nth_all.
      fold (matrix_sum W). field. lra. }
    split.
    + apply Rsum_map_nonneg. intros i Hi. apply in_seq in Hi.
      destruct (Hg i) as [_ Hb]; [lia|]. specialize (Hw i). nra.
    + rewrite <- Htot. apply Rsum_map_le. intros i Hi. apply in_seq in Hi.
      destruct (Hg i) as [_ Hb]; [lia|]. specialize (Hw i). nra.
  - intros i Hi. apply in_seq in Hi. destruct (Hg i) as [-> _]; [lia|].
    rewrite fdiv_fin by lra. reflexivity.
Qed.

(** ** Completeness is the disentanglement of the transpose *)

Lemma Rsum_nth_all (r : list R) : Rsum (map (fun j => nth j r 0) (seq 0 (length r))) = Rsum r.
Proof. now rewrite nth_all. Qed.

(** A rectangular matrix has the same total by columns and by rows. *)
Lemma matrix_sum_columns (M : list (list R)) (k : nat) :
  rectangular k M ->
  Rsum (map (fun j => Rsum (column 0 M j)) (seq 0 k)) = matrix_sum M.
Proof.
  unfold matrix_sum. induction 1 as [|r M Hr HM IH]; simpl.
  - rewrite Rsum_map_const. lra.
  - fold (Rsum (map Rsum M)). rewrite <- IH. rewrite <- (Rsum_nth_all r), Hr.
    rewrite <- Rsum_map_plus. apply Rsum_map_ext_in. intros j _.
    unfold Rsum. reflexivity.
Qed.

Lemma ncols_rectangular {A : Type} (M : list (list A)) (k : nat) :
  rectangular k M -> (1 <= length M)%nat -> ncols M = k.
Proof.
  intros Hr Hd. destruct M as [|r M]; [simpl in Hd; lia|].
  simpl. now inversion Hr.
Qed.

Lemma transpose_shape (M : list (list R)) (k : nat) :
  rectangular k M -> (1 <= length M)%nat ->
  length (transpose M) = k /\ rectangular (length M) (transpose M)
  /\ ((1 <= k)%nat -> ncols (transpose M) = length M).
Proof.
  intros Hr Hd. unfold transpose, columns.
  rewrite (ncols_rectangular M k Hr Hd), length_map, length_seq.
  split; [reflexivity|]. split.
  - unfold rectangular. apply Forall_map, Forall_forall. intros j _.
    apply column_length.
  - intros Hk. destruct k; [lia|]. simpl. apply column_length.
Qed.

Lemma matrix_sum_transpose (M : list (list R)) (k : nat) :
  rectangular k M -> (1 <= length M)%nat ->
  matrix_sum (transpose M) = matrix_sum M.
Proof.
  intros Hr Hd. unfold transpose, columns.
  rewrite (ncols_rectangular M k Hr Hd).
  unfold matrix_sum at 1. rewrite map_map. now apply matrix_sum_columns.
Qed.

Lemma column_ones_like (M : list (list R)) (k j : nat) :
  rectangular k M -> (j < k)%nat ->
  column 0 (ones_like M) j = map (fun _ => 1) (column 0 M j).
Proof.
  intros Hr Hj. unfold column, ones_like. rewrite !map_map.
  apply map_ext_in. intros r Hin. unfold rectangular in Hr.
  rewrite Forall_forall in Hr. specialize (Hr r Hin).
  rewrite (nth_indep _ 0 1) by (rewrite length_map; lia).
  exact (map_nth (fun _ : R => 1) r 0 j).
Qed.

Lemma transpose_ones_like (M : list (list R)) (k : nat) :
  rectangular k M -> transpose (ones_like M) = ones_like (transpose M).
Proof.
  intros Hr. unfold transpose, columns. rewrite ncols_ones_like.
  unfold ones_like at 2. rewrite map_map.
  destruct M as [|r M]; [reflexivity|].
  assert (Hk : ncols (r :: M) = k) by (simpl; now inversion Hr).
  apply map_ext_in. intros j Hj. apply in_seq in Hj.
  apply (column_ones_like _ k); [exact Hr|lia].
Qed.

Lemma rectangular_importance_weights (M : list (list R)) (k : nat) :
  rectangular k M -> rectangular k (importance_weights M).
Proof.
  intros Hr. unfold importance_weights. destruct (is_zero _); [|exact Hr].
  unfold rectangular, ones_like. apply Forall_map.
  eapply Forall_impl; [|exact Hr]. intros r. simpl. now rewrite length_map.
Qed.

Lemma completeness_as_disentanglement (M : list (list R)) (k : nat) :
  rectangular k M -> (1 <= length M)%nat -> (1 <= k)%nat ->
  completeness_score M = disentanglement_score (transpose M).
Proof.
  intros Hr Hd Hk.
  destruct (transpose_shape M k Hr Hd) as [Tl [Tr Tc]].
  unfold completeness_score, disentanglement_score.
  fold (importance_weights M). fold (importance_weights (transpose M)).
  rewrite (Tc Hk). fold (transpose M). fold (transpose (importance_weights M)).
  assert (EW : importance_weights (transpose M) = transpose (importance_weights M)).
  { unfold importance_weights. rewrite (matrix_sum_transpose M k Hr Hd).
    destruct (is_zero (matrix_sum M)); [|reflexivity].
    symmetry. now apply (transpose_ones_like M k). }
  rewrite EW.
  rewrite (matrix_sum_transpose (importance_weights M) k);
    [reflexivity | now apply rectangular_importance_weights |].
  now rewrite length_importance_weights.
Qed.

Lemma nonnegative_transpose (M : list (list R)) :
  nonnegative M -> nonnegative (transpose M).
Proof.
  intros Hn. unfold nonnegative, transpose, columns, column.
  apply Forall_map, Forall_forall. intros j _.
  apply Forall_map. eapply Forall_impl; [|exact Hn].
  intros r Hr. simpl. rewrite Forall_forall in Hr.
  destruct (Nat.lt_ge_cases j (length r)) as [H|H].
  - apply Hr. now apply nth_In.
  - rewrite nth_overflow by assumption. lra.
Qed.

(** X8: for a non-negative importance matrix the disentanglement score
    (at least one code and two factors) and the completeness score (at
    least two codes and one factor) are finite numbers between 0 and 1. *)
Theorem dci_scores_range (M : list (list R)) (k : nat) :
  rectangular k M -> nonnegative M ->
  ((1 <= length M)%nat -> (2 <= k)%nat ->
   exists x, disentanglement_score M = Fin x /\ 0 <= x <= 1)
  /\ ((2 <= length M)%nat -> (1 <= k)%nat ->
      exists y, completeness_score M = Fin y /\ 0 <= y <= 1).
Proof.
  intros Hr Hn. split; intros Hd Hk.
  - now apply (disentanglement_range M k).
  - rewrite (completeness_as_disentanglement M k) by (assumption || lia).
    destruct (transpose_shape M k Hr) as [Tl [Tr _]]; [lia|].
    apply (disentanglement_range (transpose M) (length M));
      [exact Tr | now apply nonnegative_transpose | lia | exact Hd].
Qed.

Lemma dci_scores_range_witness :
  (exists x, disentanglement_score [[3; 1]; [0; 2]] = Fin x /\ 0 <= x <= 1)
  /\ (exists y, completeness_score [[3; 1]; [0; 2]] = Fin y /\ 0 <= y <= 1).
Proof.
  assert (Hr : rectangular 2 [[3; 1]; [0; 2]]) by (repeat constructor).
  assert (Hn : nonnegative [[3; 1]; [0; 2]]) by (repeat constructor; lra).
  destruct (dci_scores_range [[3; 1]; [0; 2]] 2 Hr Hn) as [Hd Hc].
  split; [apply Hd | apply Hc]; simpl; lia.
Defined.

Lemma nth_column_R (m : list (list R)) (i j : nat) :
  nth i (column 0 m j) 0 = nth j (nth i m []) 0.
Proof.
  unfold column.
  destruct (Nat.lt_ge_cases i (length m)) as [H|H].
  - rewrite (nth_indep _ 0 (nth j [] 0)) by now rewrite length_map.
    apply (map_nth (fun r => nth j r 0)).
  - rewrite nth_overflow by now rewrite length_map.
    rewrite (nth_overflow m) by assumption. now destruct j.
Qed.

Lemma transpose_involutive (M : list (list R)) (k : nat) :
  rectangular k M -> (1 <= length M)%nat -> (1 <= k)%nat ->
  transpose (transpose M) = M.
Proof.
  intros Hr Hd Hk. destruct (transpose_shape M k Hr Hd) as [Tl [Tr Tc]].
  unfold transpose at 1. unfold columns. rewrite (Tc Hk).
  transitivity (map (fun i => nth i M []) (seq 0 (length M)));
    [|apply nth_all].
  apply map_ext_in. intros i Hi.
  apply in_seq in Hi. unfold column, transpose, columns.
  rewrite (ncols_rectangular M k Hr Hd), map_map.
  assert (Hrow : length (nth i M []) = k).
  { unfold rectangular in Hr. rewrite Forall_forall in Hr. apply Hr, nth_In. lia. }
  transitivity (map (fun j => nth j (nth i M []) 0) (seq 0 k));
    [|rewrite <- Hrow; apply nth_all].
  apply map_ext. intros j. apply nth_column_R.
Qed.

(** X9: for a matrix with at least one row and one column the completeness
    score is the disentanglement score of the transposed matrix, and the
    disentanglement score the completeness score of the transposed
    matrix. *)
Theorem completeness_is_disentanglement_of_transpose (M : list (list R)) (k : nat) :
  rectangular k M -> (1 <= length M)%nat -> (1 <= k)%nat ->
  completeness_score M = disentanglement_score (transpose M)
  /\ disentanglement_score M = completeness_score (transpose M).
Proof.
  intros Hr Hd Hk. split; [now apply (completeness_as_disentanglement M k)|].
  destruct (transpose_shape M k Hr Hd) as [Tl [Tr _]].
  rewrite (completeness_as_disentanglement (transpose M) (length M))
    by (assumption || lia).
  now rewrite (transpose_involutive M k).
Qed.

Lemma completeness_is_disentanglement_of_transpose_witness :
  completeness_score [[3; 1; 0]; [0; 2; 5]]
  = disentanglement_score (transpose [[3; 1; 0]; [0; 2; 5]])
  /\ disentanglement_score [[3; 1; 0]; [0; 2; 5]]
     = completeness_score (transpose [[3; 1; 0]; [0; 2; 5]]).
Proof.
  apply (completeness_is_disentanglement_of_transpose [[3; 1; 0]; [0; 2; 5]] 3);
    [repeat constructor | simpl; lia | lia].
Defined.

(** ** A single factor, a single code *)

Lemma fmul_nan_l (a : npfloat) : fmul NaN a = NaN.
Proof. now destruct a. Qed.

Lemma map2_fmul_nan (l : list R) (f : R -> npfloat) (ws : list npfloat) :
  (forall x, In x l -> f x = NaN) -> length ws = length l -> l <> [] ->
  In NaN (map2 fmul (map f l) ws).
Proof.
  intros H Hl Hne. destruct l as [|x l]; [now elim Hne|].
  destruct ws as [|w ws]; [discriminate|]. simpl.
  rewrite (H x (or_introl eq_refl)), fmul_nan_l. now left.
Qed.

Lemma disentanglement_single_factor (M : list (list R)) :
  rectangular 1 M -> nonnegative M -> (1 <= length M)%nat ->
  disentanglement_score M = NaN.
Proof.
  intros Hr Hn Hd. unfold disentanglement_score.
  fold (importance_weights M). rewrite (ncols_rectangular M 1 Hr Hd).
  apply fsum_nan.
  destruct M as [|r M]; [simpl in Hd; lia|].
  assert (E : fsub (Fin 1) (sp_entropy (map (fun x => x + smoothing) r) 1) = NaN).
  { unfold rectangular in Hr. inversion Hr as [|? ? Hlen _]; subst.
    unfold nonnegative in Hn. inversion Hn as [|? ? Hpos _]; subst.
    destruct r as [|x [|y r]]; try discriminate.
    inversion Hpos; subst. cbn [map].
    rewrite sp_entropy_single by (pose proof smoothing_pos; lra). reflexivity. }
  pose proof (length_importance_weights (r :: M)) as L.
  destruct (importance_weights (r :: M)) as [|w W]; [discriminate|].
  cbn [map map2]. rewrite E, fmul_nan_l. now left.
Qed.

(** X10: with a single factor the disentanglement score is NaN for every
    non-negative matrix (the entropy is divided by [log 1]), and with a
    single code so is the completeness score. *)
Theorem dci_scores_single_line (M : list (list R)) (k : nat) :
  rectangular k M -> nonnegative M -> (1 <= length M)%nat -> (1 <= k)%nat ->
  (k = 1%nat -> disentanglement_score M = NaN)
  /\ (length M = 1%nat -> completeness_score M = NaN).
Proof.
  intros Hr Hn Hd Hk. split.
  - intros ->. now apply disentanglement_single_factor.
  - intros H1. rewrite (completeness_as_disentanglement M k) by assumption.
    destruct (transpose_shape M k Hr Hd) as [Tl [Tr _]].
    apply disentanglement_single_factor.
    + now rewrite <- H1.
    + now apply nonnegative_transpose.
    + lia.
Qed.

Lemma dci_scores_single_line_witness :
  disentanglement_score [[3]; [1]; [2]] = NaN
  /\ completeness_score [[3; 1; 2]] = NaN.
Proof.
  split.
  - apply (dci_scores_single_line [[3]; [1]; [2]] 1);
      [repeat constructor | repeat constructor; lra | simpl; lia | lia | reflexivity].
  - apply (dci_scores_single_line [[3; 1; 2]] 3);
      [repeat constructor | repeat constructor; lra | simpl; lia | lia | reflexivity].
Defined.

(** ** Relative strength: errors, transposition, range *)

Lemma fadd_comm (a b : npfloat) : fadd a b = fadd b a.
Proof. destruct a, b; simpl; try reflexivity. f_equal. lra. Qed.

Lemma relative_strength_scores (mat : list (list R)) :
  mat <> [] -> ncols mat <> 0%nat ->
  relative_strength mat
  = Ok (fdiv (fadd (axis_score (map largest (columns 0 mat))
                               (map Rsum (columns 0 mat)))
                   (axis_score (map largest mat) (map Rsum mat)))
             (Fin 2)).
Proof.
  intros Hr Hc. unfold relative_strength.
  now rewrite (reduce_axis0_largest _ Hr), (reduce_axis1_largest _ Hc).
Qed.

(** X11: [relative_strength] raises a ValueError when the matrix has no row
    or no column, and returns a number for every other matrix. *)
Theorem relative_strength_empty (mat : list (list R)) :
  (mat = [] \/ ncols mat = 0%nat ->
   exists msg, relative_strength mat = Raise (ValueError msg))
  /\ (mat <> [] -> ncols mat <> 0%nat ->
      exists v, relative_strength mat = Ok v).
Proof.
  split.
  - intros [->|Hc]; unfold relative_strength; [simpl; eauto|].
    destruct mat as [|r mat]; [simpl; eauto|].
    cbn [reduce_axis0 bind]. unfold reduce_axis1. rewrite Hc. simpl. eauto.
  - intros Hr Hc. rewrite relative_strength_scores by assumption. eauto.
Qed.

Lemma relative_strength_empty_witness :
  (exists msg, relative_strength [] = Raise (ValueError msg))
  /\ (exists msg, relative_strength [[]; []] = Raise (ValueError msg))
  /\ (exists v, relative_strength [[1; 0]; [0; 1]] = Ok v).
Proof.
  split; [|split].
  - apply (relative_strength_empty []). now left.
  - apply (relative_strength_empty [[]; []]). now right.
  - apply (relative_strength_empty [[1; 0]; [0; 1]]); [discriminate | simpl; lia].
Defined.

(** X12: the relative strength of a matrix with at least one row and one
    column is that of its transpose. *)
Theorem relative_strength_transpose (mat : list (list R)) (k : nat) :
  rectangular k mat -> (1 <= length mat)%nat -> (1 <= k)%nat ->
  relative_strength (transpose mat) = relative_strength mat.
Proof.
  intros Hr Hd Hk. destruct (transpose_shape mat k Hr Hd) as [Tl [Tr Tc]].
  assert (Hm : mat <> []) by (destruct mat; [simpl in Hd; lia | discriminate]).
  assert (Ht : transpose mat <> [])
    by (destruct (transpose mat); [simpl in Tl; lia | discriminate]).
  rewrite (relative_strength_scores (transpose mat)) by (rewrite ?Tc; lia || assumption).
  rewrite (relative_strength_scores mat)
    by (rewrite ?(ncols_rectangular mat k Hr Hd); lia || assumption).
  fold (transpose (transpose mat)). rewrite (transpose_involutive mat k) by assumption.
  fold (transpose mat). now rewrite fadd_comm.
Qed.

Lemma relative_strength_transpose_witness :
  relative_strength (transpose [[1; 2; 3]; [4; 5; 6]])
  = relative_strength [[1; 2; 3]; [4; 5; 6]].
Proof.
  apply (relative_strength_transpose [[1; 2; 3]; [4; 5; 6]] 3);
    [repeat constructor | simpl; lia | lia].
Defined.

(** A matrix whose entries all lie between 0 and [b]. *)

Lemma largest_le_sum (line : list R) :
  Forall (fun x => 0 <= x) line -> 0 <= largest line <= Rsum line.
Proof.
  intros H. destruct line as [|x line]; [simpl; lra|].
  assert (Hin : In (largest (x :: line)) (x :: line)) by (apply largest_in; discriminate).
  split.
  - rewrite Forall_forall in H. now apply H.
  - remember (largest (x :: line)) as m eqn:E. clear E.
    induction (x :: line) as [|y l IH]; [contradiction|].
    inversion H as [|? ? Hy Hl]; subst. pose proof (Rsum_nonneg l Hl).
    destruct Hin as [->|Hin]; simpl.
    + change (fold_right Rplus 0 l) with (Rsum l). lra.
    + specialize (IH Hl Hin). change (fold_right Rplus 0 l) with (Rsum l). lra.
Qed.

Lemma line_term_range (b : R) (line : list R) :
  Forall (fun x => 0 <= x <= b) line ->
  exists y, nan_to_num (fdiv (Fin (largest line ^ 2)) (Fin (Rsum line))) = Fin y
            /\ 0 <= y <= Rmax 0 b.
Proof.
  intros H.
  assert (Hn : Forall (fun x => 0 <= x) line)
    by (eapply Forall_impl; [|exact H]; simpl; intros; lra).
  destruct (largest_le_sum line Hn) as [L0 LS].
  assert (Lb : largest line <= Rmax 0 b).
  { destruct line as [|x line]; [simpl; apply Rmax_l|].
    assert (Hin : In (largest (x :: line)) (x :: line)) by (apply largest_in; discriminate).
    rewrite Forall_forall in H. specialize (H _ Hin).
    pose proof (Rmax_r 0 b). lra. }
  destruct (Req_dec (Rsum line) 0) as [E|E].
  - assert (E0 : largest line = 0) by lra.
    cbn [fdiv]. rewrite (is_zero_true _ E), is_zero_true by (rewrite E0; lra).
    exists 0. split; [reflexivity|]. pose proof (Rmax_l 0 b). lra.
  - rewrite fdiv_fin by assumption. eexists. split; [reflexivity|].
    assert (Hs : 0 < Rsum line) by lra.
    split.
    + apply Rmult_le_pos; [nra | left; now apply Rinv_0_lt_compat].
    + apply Rle_trans with (largest line); [|exact Lb].
      apply (Rmult_le_reg_r (Rsum line)); [exact Hs|].
      unfold Rdiv. rewrite Rmult_assoc, Rinv_l by assumption. nra.
Qed.

Lemma axis_score_range (b : R) (lines : list (list R)) :
  lines <> [] -> Forall (Forall (fun x => 0 <= x <= b)) lines ->
  exists s, axis_score (map largest lines) (map Rsum lines) = Fin s
            /\ 0 <= s <= Rmax 0 b.
Proof.
  intros Hne H. rewrite axis_score_lines. unfold fmean.
  destruct (fsum_bounds
              (fun line => nan_to_num (fdiv (Fin (largest line ^ 2)) (Fin (Rsum line))))
              lines 0 (Rmax 0 b)) as [x [E [Lo Hi]]].
  { intros line Hl. rewrite Forall_forall in H. now apply line_term_range, H. }
  rewrite E, length_map.
  assert (Hlen : 0 < INR (length lines)).
  { destruct lines; [now elim Hne|]. change (length (l :: lines)) with (S (length lines)).
    rewrite S_INR. pose proof (pos_INR (length lines)). lra. }
  rewrite fdiv_fin by lra. eexists. split; [reflexivity|].
  remember (INR (length lines)) as n eqn:En. clear En.
  split.
  + apply Rmult_le_pos; [lra | left; now apply Rinv_0_lt_compat].
  + apply (Rmult_le_reg_r n); [exact Hlen|].
    unfold Rdiv. rewrite Rmult_assoc, Rinv_l by lra. lra.
Qed.

Lemma bounded_columns (b : R) (mat : list (list R)) :
  0 <= b -> Forall (Forall (fun x => 0 <= x <= b)) mat ->
  Forall (Forall (fun x => 0 <= x <= b)) (columns 0 mat).
Proof.
  intros Hb H. unfold columns, column.
  apply Forall_map, Forall_forall. intros j _.
  apply Forall_map. eapply Forall_impl; [|exact H].
  intros r Hr. simpl. rewrite Forall_forall in Hr.
  destruct (Nat.lt_ge_cases j (length r)) as [Hj|Hj].
  - apply Hr. now apply nth_In.
  - rewrite nth_overflow by assumption. lra.
Qed.

(** X13: for a matrix (at least one row and one column) whose entries all
    lie between 0 and [b], the relative strength is a number between 0 and
    [b]; for entries between 0 and 1 it lies between 0 and 1. *)
Theorem relative_strength_range (mat : list (list R)) (b : R) :
  mat <> [] -> ncols mat <> 0%nat -> 0 <= b ->
  Forall (Forall (fun x => 0 <= x <= b)) mat ->
  exists s, relative_strength mat = Ok (Fin s) /\ 0 <= s <= b.
Proof.
  intros Hr Hc Hb H. rewrite relative_strength_scores by assumption.
  destruct (axis_score_range b (columns 0 mat)) as [x [-> Hx]];
    [now apply columns_nonempty | now apply bounded_columns |].
  destruct (axis_score_range b mat Hr H) as [y [-> Hy]].
  rewrite Rmax_right in Hx, Hy by assumption.
  cbn [fadd]. rewrite fdiv_fin by lra. eexists. split; [reflexivity|]. lra.
Qed.

Lemma relative_strength_range_witness :
  exists s, relative_strength [[1; / 2]; [0; / 4]] = Ok (Fin s) /\ 0 <= s <= 1.
Proof.
  apply (relative_strength_range [[1; / 2]; [0; / 4]] 1);
    [discriminate | simpl; lia | lra | repeat constructor; lra].
Defined.

(** ** Sample counts that differ, one-dimensional inputs *)

Lemma mapM_raises_first {A B : Type} (f : A -> result B) (a : A) (l : list A) (e : exn) :
  f a = Raise e -> mapM f (a :: l) = Raise e.
Proof. intros H. cbn [mapM]. now rewrite H. Qed.

Lemma mutual_info_score_mismatch (a b : list Z) :
  length a <> length b ->
  mutual_info_score a b
  = Raise (ValueError "Found input variables with inconsistent numbers of samples").
Proof.
  intros H. unfold mutual_info_score.
  destruct (Nat.eqb_spec (length a) (length b)); [contradiction|reflexivity].
Qed.

Lemma discrete_mutual_info_raises (codes factors : list (list Z)) :
  length codes <> length factors ->
  (1 <= ncols codes)%nat -> (1 <= ncols factors)%nat ->
  discrete_mutual_info (Arr2 codes) (Arr2 factors)
  = Raise (ValueError "Found input variables with inconsistent numbers of samples").
Proof.
  intros Hn Hc Hf. unfold discrete_mutual_info. cbn [atleast_2d].
  destruct (ncols codes) as [|d]; [lia|]. destruct (ncols factors) as [|k]; [lia|].
  cbn [seq]. apply mapM_raises_first. apply mapM_raises_first.
  apply mutual_info_score_mismatch. rewrite !column_length. congruence.
Qed.

(** X14: when the codes and the factors have different numbers of samples
    (and each at least one column), [discrete_mutual_info] and
    [mutual_info_gap] raise the ValueError of [mutual_info_score]; with no
    code column [discrete_mutual_info] returns an empty matrix instead. *)
Theorem sample_count_mismatch (codes factors : list (list Z)) :
  length codes <> length factors -> (1 <= ncols factors)%nat ->
  ((1 <= ncols codes)%nat ->
   (exists msg, discrete_mutual_info (Arr2 codes) (Arr2 factors)
                = Raise (ValueError msg))
   /\ (exists msg, mutual_info_gap (Arr2 codes) (Arr2 factors)
                   = Raise (ValueError msg)))
  /\ (ncols codes = 0%nat ->
      discrete_mutual_info (Arr2 codes) (Arr2 factors) = Ok []).
Proof.
  intros Hn Hf. split.
  - intros Hc. pose proof (discrete_mutual_info_raises codes factors Hn Hc Hf) as E.
    split; [rewrite E; eauto|].
    unfold mutual_info_gap. cbn [atleast_2d]. rewrite E. cbn [bind]. eauto.
  - intros Hc. unfold discrete_mutual_info. cbn [atleast_2d]. now rewrite Hc.
Qed.

Lemma sample_count_mismatch_witness :
  ((exists msg, discrete_mutual_info (Arr2 [[0; 1]; [1; 0]; [1; 1]]%Z)
                                     (Arr2 [[0]; [1]]%Z)
                = Raise (ValueError msg))
   /\ (exists msg, mutual_info_gap (Arr2 [[0; 1]; [1; 0]; [1; 1]]%Z)
                                   (Arr2 [[0]; [1]]%Z)
                   = Raise (ValueError msg)))
  /\ discrete_mutual_info (Arr2 [[]; []; []]) (Arr2 [[0]; [1]]%Z) = Ok [].
Proof.
  split.
  - apply (sample_count_mismatch [[0; 1]; [1; 0]; [1; 1]]%Z [[0]; [1]]%Z);
      simpl; lia.
  - apply (sample_count_mismatch [[]; []; []] [[0]; [1]]%Z); simpl; lia || reflexivity.
Defined.

Lemma mi_value_single (a b : Z) : mi_value [a] [b] = 0.
Proof.
  pose proof (mi_value_nonneg [a] [b] eq_refl) as H0.
  pose proof (mi_value_le_entropy [a] [b] eq_refl) as H1.
  pose proof (entropy1D_constant a 0) as E0. change (repeat a 1) with [a] in E0.
  rewrite E0 in H1. specialize (H1 ltac:(discriminate)). lra.
Qed.

Lemma mutual_info_gap_zero_entropy
  (representations factors : list (list Z)) (j : nat) :
  length representations = length factors ->
  (2 <= ncols representations)%nat -> (j < ncols factors)%nat ->
  constant (column 0%Z factors j) ->
  mutual_info_gap (Arr2 representations) (Arr2 factors) = Ok NaN.
Proof.
  intros Hn Hd Hj [a [n Hc]]. rewrite (mutual_info_gap_value _ _ Hn Hd).
  unfold mutual_info_gap_spec, fmean.
  assert (Lh : length (factor_entropies factors) = ncols factors)
    by (unfold factor_entropies; now rewrite length_map, length_seq).
  rewrite Lh. rewrite fsum_nan; [reflexivity|].
  apply in_map_iff. exists j. split; [|apply in_seq; lia].
  unfold factor_entropies.
  rewrite (nth_map_seq (fun j => entropy1D (column 0%Z factors j))) by lia.
  rewrite Hc, entropy1D_constant.
  rewrite column_mi_matrix by lia.
  destruct (top_gap_bounds
              (map (fun i => mi_value (column 0%Z factors j)
                                      (column 0%Z representations i))
                   (seq 0 (ncols representations))) 0) as [G0 G1].
  - rewrite length_map, length_seq. exact Hd.
  - apply Forall_forall. intros t Ht. apply in_map_iff in Ht as [i [<- _]].
    assert (L : length (column 0%Z factors j)
                = length (column 0%Z representations i))
      by now rewrite !column_length.
    split; [now apply mi_value_nonneg|].
    rewrite <- (entropy1D_constant a n), <- Hc.
    apply mi_value_le_entropy; [exact L|]. rewrite Hc. discriminate.
  - cbn [fdiv]. rewrite !is_zero_true by lra. reflexivity.
Qed.

(** X15: two one-dimensional arrays are read as one sample each, not as
    two columns of samples: [discrete_mutual_info] returns a matrix of
    zeros with one row per entry of the first array and one column per
    entry of the second, and [mutual_info_gap] (at least two entries in the
    first array) returns NaN. *)
Theorem one_dimensional_inputs (c f : list Z) :
  discrete_mutual_info (Arr1 c) (Arr1 f)
  = Ok (repeat (repeat 0 (length f)) (length c))
  /\ ((2 <= length c)%nat -> mutual_info_gap (Arr1 c) (Arr1 f) = Ok NaN).
Proof.
  split.
  - change (discrete_mutual_info (Arr1 c) (Arr1 f))
      with (discrete_mutual_info (Arr2 [c]) (Arr2 [f])).
    rewrite discrete_mutual_info_ok by reflexivity. cbn [ncols]. f_equal.
    assert (R0 : forall {A : Type} (n : nat) (v : A) (g : nat -> A),
               (forall i, g i = v) -> map g (seq 0 n) = repeat v n).
    { intros A n v g Hg. rewrite (map_ext g (fun _ => v) Hg).
      generalize 0%nat. induction n as [|n IH]; intros s; simpl; [reflexivity|].
      now rewrite IH. }
    apply R0. intros i. apply R0. intros j. cbn [column map]. apply mi_value_single.
  - intros Hc.
    change (mutual_info_gap (Arr1 c) (Arr1 f))
      with (mutual_info_gap (Arr2 [c]) (Arr2 [f])).
    destruct f as [|x f].
    + rewrite mutual_info_gap_value by (reflexivity || exact Hc).
      unfold mutual_info_gap_spec, factor_entropies, fmean. cbn [ncols length seq map].
      unfold fsum. cbn [fold_left INR fdiv]. now rewrite is_zero_true by reflexivity.
    + apply (mutual_info_gap_zero_entropy [c] [x :: f] 0);
        [reflexivity | exact Hc | simpl; lia |].
      exists x, 0%nat. reflexivity.
Qed.

Lemma one_dimensional_inputs_witness :
  mutual_info_gap (Arr1 [0; 1; 1]%Z) (Arr1 [0; 1; 1]%Z) = Ok NaN.
Proof.
  apply (one_dimensional_inputs [0; 1; 1]%Z [0; 1; 1]%Z). simpl. lia.
Defined.

(** ** The range of the entropy *)

Lemma length_unique_pos (x : list Z) : x <> [] -> (1 <= length (unique x))%nat.
Proof.
  intros H. destruct x as [|a x]; [now elim H|].
  assert (Hin : In a (unique (a :: x))) by (apply nodup_In; now left).
  destruct (unique (a :: x)); [contradiction|simpl; lia].
Qed.

Lemma entropy1D_le_ln_unique (x : list Z) :
  x <> [] -> entropy1D x <= ln (INR (length (unique x))).
Proof.
  intros Hne. pose proof (length_unique_pos x Hne) as HK1.
  assert (HK : 0 < INR (length (unique x))) by (apply lt_0_INR; lia).
  assert (Hn : 0 < INR (length x)).
  { destruct x; [now elim Hne|]. apply lt_0_INR. simpl. lia. }
  assert (E : entropy1D x
              = Rsum (map (fun a => - (INR (count a x) / INR (length x)
                                       * (ln (INR (count a x)) - ln (INR (length x)))))
                          (unique x))).
  { destruct x; [now elim Hne|]. unfold entropy1D. now rewrite Rsum_map_opp. }
  rewrite E. remember (INR (length x)) as n eqn:En.
  remember (INR (length (unique x))) as K eqn:EK.
  assert (G : Rsum (map (fun a => - (INR (count a x) / n
                                     * (ln (INR (count a x)) - ln n))) (unique x))
              <= Rsum (map (fun a => / K + ((- / n) * INR (count a x)
                                            + (ln K * / n) * INR (count a x)))
                           (unique x))).
  { apply Rsum_map_le. intros a Ha. apply nodup_In in Ha.
    pose proof (count_pos a x Ha) as Hc. remember (INR (count a x)) as c eqn:Ec.
    assert (Hz : 0 < n * / (K * c)).
    { apply Rmult_lt_0_compat; [lra|]. apply Rinv_0_lt_compat, Rmult_lt_0_compat; lra. }
    pose proof (ln_le_sub1 _ Hz) as L.
    rewrite ln_mult, ln_Rinv, ln_mult in L
      by (try apply Rinv_0_lt_compat; try apply Rmult_lt_0_compat; lra).
    assert (Hq : 0 < c / n) by (apply Rdiv_lt_0_compat; lra).
    assert (M : c / n * (ln n + - (ln K + ln c)) <= c / n * (n * / (K * c) - 1))
      by (apply Rmult_le_compat_l; lra).
    assert (F : c / n * (n * / (K * c) - 1) = / K - / n * c) by (field; lra).
    assert (F2 : ln K * / n * c = c / n * ln K) by (field; lra).
    lra. }
  rewrite Rsum_map_plus, Rsum_map_const, Rsum_map_plus in G.
  rewrite !Rsum_map_scal in G.
  rewrite Rsum_counts, <- En, <- EK in G.
  replace (K * / K) with 1 in G by (field; lra).
  replace (- / n * n) with (- 1) in G by (field; lra).
  replace (ln K * / n * n) with (ln K) in G by (field; lra).
  lra.
Qed.

(** X16: the entropy [discrete_entropy] returns for a non-empty column lies
    between 0 and the logarithm of the number of different labels of the
    column: one number for a 1-D array, one per column for a 2-D array. *)
Theorem discrete_entropy_range :
  (forall v : list Z,
      v <> [] ->
      exists h, discrete_entropy (Arr1 v) = Ok (Scalar h)
                /\ 0 <= h <= ln (INR (length (unique v))))
  /\ (forall labels : list (list Z),
         (1 <= length labels)%nat ->
         exists h, discrete_entropy (Arr2 labels) = Ok (Vector h)
                   /\ length h = ncols labels
                   /\ forall j, (j < ncols labels)%nat ->
                        0 <= nth j h 0
                        <= ln (INR (length (unique (column 0%Z labels j))))).
Proof.
  split.
  - intros v Hv. eexists. split; [reflexivity|]. split;
      [apply entropy1D_nonneg | now apply entropy1D_le_ln_unique].
  - intros labels Hl. eexists. split; [reflexivity|]. split;
      [now rewrite length_map, length_seq|].
    intros j Hj.
    rewrite (nth_map_seq (fun j => entropy1D (column 0%Z labels j))) by exact Hj.
    split; [apply entropy1D_nonneg|]. apply entropy1D_le_ln_unique.
    destruct labels; [simpl in Hl; lia|discriminate].
Qed.

Lemma discrete_entropy_range_witness :
  (exists h, discrete_entropy (Arr1 [0; 0; 1; 2]%Z) = Ok (Scalar h)
             /\ 0 <= h <= ln (INR (length (unique [0; 0; 1; 2]%Z))))
  /\ (exists h, discrete_entropy (Arr2 [[0; 5]; [0; 6]; [1; 5]]%Z) = Ok (Vector h)
                /\ length h = ncols [[0; 5]; [0; 6]; [1; 5]]%Z
                /\ forall j, (j < ncols [[0; 5]; [0; 6]; [1; 5]]%Z)%nat ->
                     0 <= nth j h 0
                     <= ln (INR (length (unique (column 0%Z [[0; 5]; [0; 6]; [1; 5]]%Z j))))).
Proof.
  destruct discrete_entropy_range as [H1 H2]. split.
  - apply H1. discriminate.
  - apply H2. simpl. lia.
Defined.

(** ** Per-factor jobs *)

Lemma update_length {A : Type} (i : nat) (x : A) (l : list A) :
  length (update i x l) = length l.
Proof.
  revert i. induction l as [|a l IH]; intros [|i]; simpl; try reflexivity.
  now rewrite IH.
Qed.

Lemma update_map_seq {A : Type} (h : nat -> A) (x : A) (i s n : nat) :
  update i x (map h (seq s n))
  = map (fun j => if Nat.eqb j (s + i) then x else h j) (seq s n).
Proof.
  revert i s. induction n as [|n IH]; intros i s; [now destruct i|].
  destruct i as [|i]; cbn [seq map update].
  - rewrite Nat.add_0_r, Nat.eqb_refl. f_equal.
    apply map_ext_in. intros j Hj. apply in_seq in Hj.
    destruct (Nat.eqb_spec j s); [lia|reflexivity].
  - destruct (Nat.eqb_spec s (s + S i)); [lia|]. f_equal.
    rewrite IH. apply map_ext. intros j.
    now replace (S s + i)%nat with (s + S i)%nat by lia.
Qed.

Lemma list_setitem_map_seq {A : Type} (h : nat -> A) (x : A) (i k : nat) :
  (i < k)%nat ->
  list_setitem (map h (seq 0 k)) i x
  = Ok (map (fun j => if Nat.eqb j i then x else h j) (seq 0 k)).
Proof.
  intros H. unfold list_setitem. rewrite length_map, length_seq.
  destruct (Nat.ltb_spec i k); [|lia]. now rewrite update_map_seq.
Qed.

Lemma length_from_columns (d k : nat) (g : nat -> list R) :
  length (from_columns d k g) = d.
Proof. unfold from_columns. now rewrite length_map, length_seq. Qed.

Lemma rectangular_from_columns (d k : nat) (g : nat -> list R) :
  rectangular k (from_columns d k g).
Proof.
  unfold rectangular, from_columns. apply Forall_map, Forall_forall.
  intros l _. now rewrite length_map, length_seq.
Qed.

Lemma from_columns_ext (d k : nat) (g g' : nat -> list R) :
  (forall j, (j < k)%nat -> g j = g' j) -> from_columns d k g = from_columns d k g'.
Proof.
  intros H. unfold from_columns. apply map_ext. intros l.
  apply map_ext_in. intros j Hj. apply in_seq in Hj. rewrite H by lia. reflexivity.
Qed.

Lemma set_column_from_columns (d k i : nat) (g : nat -> list R) (v : list R) :
  (i < k)%nat -> length v = d ->
  set_column k (from_columns d k g) i v
  = Ok (from_columns d k (fun j => if Nat.eqb j i then v else g j)).
Proof.
  intros Hi Hv. unfold set_column. rewrite length_from_columns.
  destruct (Nat.leb_spec k i); [lia|].
  rewrite Hv, Nat.eqb_refl. f_equal. unfold from_columns.
  rewrite <- (nth_all v 0) at 1. rewrite Hv, map2_map.
  apply map_ext. intros l. rewrite update_map_seq. cbn [Nat.add].
  apply map_ext. intros j. now destruct (Nat.eqb j i).
Qed.

Lemma from_columns_of_matrix (M : list (list R)) (k : nat) :
  rectangular k M -> M = from_columns (length M) k (column 0 M).
Proof.
  intros Hr. unfold from_columns.
  transitivity (map (fun l => nth l M []) (seq 0 (length M)));
    [symmetry; apply nth_all|].
  apply map_ext_in. intros l Hl. apply in_seq in Hl.
  assert (Hrow : length (nth l M []) = k).
  { unfold rectangular in Hr. rewrite Forall_forall in Hr. apply Hr, nth_In. lia. }
  transitivity (map (fun j => nth j (nth l M []) 0) (seq 0 k));
    [rewrite <- Hrow; symmetry; apply nth_all|].
  apply map_ext. intros j. symmetry. apply nth_column_R.
Qed.

Lemma zeros_from_columns (d k : nat) :
  repeat (repeat 0 k) d = from_columns d k (fun _ => repeat 0 d).
Proof.
  assert (R0 : forall {A : Type} (n : nat) (v : A) (g : nat -> A),
             (forall i, g i = v) -> repeat v n = map g (seq 0 n)).
  { intros A n v g Hg. rewrite (map_ext g (fun _ => v) Hg).
    generalize 0%nat. induction n as [|n IH]; intros s; simpl; [reflexivity|].
    now rewrite <- IH. }
  unfold from_columns. apply R0. intros l. symmetry. apply R0. intros j.
  destruct (Nat.lt_ge_cases l d) as [H|H].
  - now rewrite nth_repeat_lt.
  - apply nth_overflow. now rewrite repeat_length.
Qed.

(** The loop that stores one column per result: every column whose job is
    among the results holds the vector of that job, whatever the order of
    the results. *)
Lemma store_columns (d k : nat) (f : nat -> list R) (order : list nat)
  (g : nat -> list R) :
  (forall j, In j order -> (j < k)%nat /\ length (f j) = d) ->
  exists g',
    foldM (fun m '(i, v) => set_column k m i v)
          (map (fun j => (j, f j)) order) (from_columns d k g)
    = Ok (from_columns d k g')
    /\ (forall j, In j order -> g' j = f j)
    /\ (forall j, ~ In j order -> g' j = g j).
Proof.
  revert g. induction order as [|i order IH]; intros g H.
  - exists g. simpl. repeat split; contradiction || reflexivity.
  - destruct (H i (or_introl eq_refl)) as [Hi Hl].
    cbn [map foldM]. rewrite set_column_from_columns by assumption. cbn [bind].
    destruct (IH (fun j => if Nat.eqb j i then f i else g j)) as [g' [E [G1 G2]]].
    { intros j Hj. apply H. now right. }
    exists g'. split; [exact E|]. split.
    + intros j [<-|Hj]; [|now apply G1].
      destruct (in_dec Nat.eq_dec i order) as [Hin|Hin]; [now apply G1|].
      rewrite (G2 i Hin). now rewrite Nat.eqb_refl.
    + intros j Hj. rewrite G2 by (intros Hin; apply Hj; now right).
      destruct (Nat.eqb_spec j i) as [->|]; [|reflexivity].
      elim Hj. now left.
Qed.

Lemma store_all_columns (d k : nat) (f : nat -> list R) (order : list nat)
  (M : list (list R)) :
  Permutation order (seq 0 k) -> length M = d -> rectangular k M ->
  (forall j, (j < k)%nat -> length (f j) = d) ->
  foldM (fun m '(i, v) => set_column k m i v) (map (fun j => (j, f j)) order) M
  = Ok (from_columns d k f).
Proof.
  intros P HM Hr Hf. rewrite (from_columns_of_matrix M k Hr), HM.
  assert (Hin : forall j, In j order <-> (j < k)%nat).
  { intros j. split; intros Hj.
    - apply (Permutation_in _ P), in_seq in Hj. lia.
    - apply (Permutation_in _ (Permutation_sym P)), in_seq. lia. }
  destruct (store_columns d k f order (column 0 M)) as [g' [E [G1 _]]].
  { intros j Hj. apply Hin in Hj. split; [exact Hj | now apply Hf]. }
  rewrite E. f_equal. apply from_columns_ext. intros j Hj. apply G1. now apply Hin.
Qed.

(** The loop of [representative_importance_matrix], on a state given by its
    columns and entries. *)
Lemma store_results (d k : nat) (f : nat -> list R) (tr te : nat -> npfloat)
  (order : list nat) (g : nat -> list R) (a b : nat -> npfloat) :
  (forall j, In j order -> (j < k)%nat /\ length (f j) = d) ->
  exists g' a' b',
    foldM (store_result k) (map (fun j => (j, f j, tr j, te j)) order)
          (from_columns d k g, map a (seq 0 k), map b (seq 0 k))
    = Ok (from_columns d k g', map a' (seq 0 k), map b' (seq 0 k))
    /\ (forall j, In j order -> g' j = f j /\ a' j = tr j /\ b' j = te j)
    /\ (forall j, ~ In j order -> g' j = g j /\ a' j = a j /\ b' j = b j).
Proof.
  revert g a b. induction order as [|i order IH]; intros g a b H.
  - exists g, a, b. simpl. repeat split; contradiction || reflexivity.
  - destruct (H i (or_introl eq_refl)) as [Hi Hl].
    cbn [map foldM store_result].
    rewrite set_column_from_columns by assumption. cbn [bind].
    rewrite !list_setitem_map_seq by assumption. cbn [bind].
    destruct (IH (fun j => if Nat.eqb j i then f i else g j)
                 (fun j => if Nat.eqb j i then tr i else a j)
                 (fun j => if Nat.eqb j i then te i else b j))
      as [g' [a' [b' [E [G1 G2]]]]].
    { intros j Hj. apply H. now right. }
    exists g', a', b'. split; [exact E|]. split.
    + intros j [<-|Hj]; [|now apply G1].
      destruct (in_dec Nat.eq_dec i order) as [Hin|Hin]; [now apply G1|].
      destruct (G2 i Hin) as [-> [-> ->]]. now rewrite Nat.eqb_refl.
    + intros j Hj.
      destruct (G2 j) as [-> [-> ->]]; [intros Hin; apply Hj; now right|].
      destruct (Nat.eqb_spec j i) as [->|]; [|now repeat split].
      elim Hj. now left.
Qed.

Lemma store_all_results (d k : nat) (f : nat -> list R) (tr te : nat -> npfloat)
  (order : list nat) :
  Permutation order (seq 0 k) ->
  (forall j, (j < k)%nat -> length (f j) = d) ->
  foldM (store_result k) (map (fun j => (j, f j, tr j, te j)) order)
        (repeat (repeat 0 k) d,
         map (fun i => Fin (INR i)) (seq 0 k), map (fun i => Fin (INR i)) (seq 0 k))
  = Ok (from_columns d k f, map tr (seq 0 k), map te (seq 0 k)).
Proof.
  intros P Hf. rewrite zeros_from_columns.
  assert (Hin : forall j, In j order <-> (j < k)%nat).
  { intros j. split; intros Hj.
    - apply (Permutation_in _ P), in_seq in Hj. lia.
    - apply (Permutation_in _ (Permutation_sym P)), in_seq. lia. }
  destruct (store_results d k f tr te order (fun _ => repeat 0 d)
                          (fun i => Fin (INR i)) (fun i => Fin (INR i)))
    as [g' [a' [b' [E [G _]]]]].
  { intros j Hj. apply Hin in Hj. split; [exact Hj | now apply Hf]. }
  rewrite E. f_equal. f_equal; [f_equal|].
  - apply from_columns_ext. intros j Hj. apply G. now apply Hin.
  - apply map_ext_in. intros j Hj. apply in_seq in Hj. apply G, Hin. lia.
  - apply map_ext_in. intros j Hj. apply in_seq in Hj. apply G, Hin. lia.
Qed.

Section Completion.

Variable MPI : forall B : Type, list nat -> (nat -> result B) -> result (list B).
Hypothesis MPI_order : completion_order MPI.

Lemma MPI_yields {B : Type} (k : nat) (func : nat -> result B) (g : nat -> B) :
  (forall j, (j < k)%nat -> func j = Ok (g j)) ->
  exists order, Permutation order (seq 0 k)
                /\ MPI B (seq 0 k) func = Ok (map g order).
Proof.
  intros H. destruct (MPI_order B (seq 0 k) func) as [order [P E]].
  { intros j Hj. apply in_seq in Hj. exists (g j). apply H. lia. }
  exists order. split; [exact P|]. rewrite E. apply mapM_ok_map.
  intros j Hj. apply (Permutation_in _ P), in_seq in Hj. apply H. lia.
Qed.

Lemma representative_importance_matrix_returns (algo : estimator)
  (random_state : Z) (repr_train : list (list R)) (factor_train : list (list Z))
  (repr_test : list (list R)) (factor_test : list (list Z))
  (feat : nat -> list R) (train test : nat -> npfloat) :
  has_feature_importances algo = true ->
  (forall j, (j < ncols factor_train)%nat ->
     _train algo random_state repr_train factor_train repr_test factor_test j
     = Ok (j, feat j, train j, test j)
     /\ length (feat j) = ncols repr_train) ->
  representative_importance_matrix MPI repr_train factor_train repr_test
    factor_test random_state algo
  = Ok (from_columns (ncols repr_train) (ncols factor_train) feat,
        map train (seq 0 (ncols factor_train)),
        map test (seq 0 (ncols factor_train))).
Proof.
  intros Ha H. unfold representative_importance_matrix. rewrite Ha. cbn [negb].
  destruct (MPI_yields (ncols factor_train)
              (_train algo random_state repr_train factor_train repr_test factor_test)
              (fun j => (j, feat j, train j, test j))) as [order [P E]].
  { intros j Hj. now apply H. }
  rewrite E. cbn [bind]. apply store_all_results; [exact P|].
  intros j Hj. now apply H.
Qed.

(** X17: [representative_importance_matrix] does not depend on the order in
    which the workers complete the jobs.  When the job of every factor [j]
    returns [(j, feat j, train j, test j)] with one importance per code,
    column [j] of the matrix returned is [feat j] and entry [j] of the two
    lists of accuracies is [train j] and [test j]: nothing of the initial
    zeros and of the placeholders [range(num_factors)] is left.  A class
    without the attribute [feature_importances_] is refused before any job
    is started. *)
Theorem representative_importance_matrix_columns (algo : estimator)
  (random_state : Z) (repr_train : list (list R)) (factor_train : list (list Z))
  (repr_test : list (list R)) (factor_test : list (list Z))
  (feat : nat -> list R) (train test : nat -> npfloat) :
  (has_feature_importances algo = true ->
   (forall j, (j < ncols factor_train)%nat ->
      _train algo random_state repr_train factor_train repr_test factor_test j
      = Ok (j, feat j, train j, test j)
      /\ length (feat j) = ncols repr_train) ->
   representative_importance_matrix MPI repr_train factor_train repr_test
     factor_test random_state algo
   = Ok (from_columns (ncols repr_train) (ncols factor_train) feat,
         map train (seq 0 (ncols factor_train)),
         map test (seq 0 (ncols factor_train))))
  /\ (has_feature_importances algo = false ->
      representative_importance_matrix MPI repr_train factor_train repr_test
        factor_test random_state algo
      = Raise AssertionError).
Proof.
  split.
  - apply representative_importance_matrix_returns.
  - intros Ha. unfold representative_importance_matrix. now rewrite Ha.
Qed.

End Completion.

Lemma MPI_reversed_order : completion_order MPI_reversed.
Proof.
  intros B jobs func _. exists (rev jobs). split; [|reflexivity].
  apply Permutation_sym, Permutation_rev.
Qed.

Lemma representative_importance_matrix_columns_witness :
  representative_importance_matrix MPI_reversed
    [[1; 2]; [3; 4]] [[0; 1]; [0; 0]]%Z [[5; 6]] [[0; 1]]%Z 1234 zero_classifier
  = Ok (from_columns 2 2
          (fun j => job_feat (_train zero_classifier 1234 [[1; 2]; [3; 4]]
                                [[0; 1]; [0; 0]]%Z [[5; 6]] [[0; 1]]%Z j)),
        map (fun j => job_train (_train zero_classifier 1234 [[1; 2]; [3; 4]]
                                   [[0; 1]; [0; 0]]%Z [[5; 6]] [[0; 1]]%Z j))
            (seq 0 2),
        map (fun j => job_test (_train zero_classifier 1234 [[1; 2]; [3; 4]]
                                  [[0; 1]; [0; 0]]%Z [[5; 6]] [[0; 1]]%Z j))
            (seq 0 2)).
Proof.
  apply (proj1 (representative_importance_matrix_columns
                  MPI_reversed MPI_reversed_order zero_classifier 1234
                  [[1; 2]; [3; 4]] [[0; 1]; [0; 0]]%Z [[5; 6]] [[0; 1]]%Z _ _ _));
    [reflexivity|].
  intros [|[|j]] Hj; [split; reflexivity | split; reflexivity | simpl in Hj; lia].
Defined.

(** ** The three scores of [dci_scores] *)

Lemma accuracy_range (pred y : list Z) :
  length pred = length y -> (1 <= length y)%nat ->
  exists t, accuracy pred y = Ok (Fin t) /\ 0 <= t <= 1.
Proof.
  intros Hl Hy. unfold accuracy. rewrite Hl, Nat.eqb_refl.
  rewrite (map2_nth agree pred y 0%Z 0%Z Hl). unfold fmean.
  rewrite length_map, length_seq.
  destruct (fsum_bounds (fun i => agree (nth i pred 0%Z) (nth i y 0%Z))
                        (seq 0 (length pred)) 0 1) as [x [E [Lo Hi]]].
  { intros i _. unfold agree. eexists. split; [reflexivity|].
    destruct (Z.eqb _ _); lra. }
  rewrite E, length_seq in *.
  assert (Hn : 0 < INR (length pred)) by (apply lt_0_INR; lia).
  rewrite fdiv_fin by lra. eexists. split; [reflexivity|]. split.
  - apply div_ge_bound; lra.
  - apply div_le_bound; lra.
Qed.

Lemma accuracy_returns (pred y : list Z) :
  length pred = length y -> exists a, accuracy pred y = Ok a.
Proof. intros Hl. unfold accuracy. rewrite Hl, Nat.eqb_refl. eauto. Qed.

Lemma getcolumn_ok {A : Type} (d : A) (m : list (list A)) (j : nat) :
  (j < ncols m)%nat -> getcolumn d m j = Ok (column d m j).
Proof. intros H. unfold getcolumn. now destruct (Nat.ltb_spec j (ncols m)); [|lia]. Qed.

Lemma _train_fits (algo : estimator) (random_state : Z)
  (repr_train : list (list R)) (factor_train : list (list Z))
  (repr_test : list (list R)) (factor_test : list (list Z)) (j : nat) :
  (j < ncols factor_train)%nat -> (j < ncols factor_test)%nat ->
  length repr_train = length factor_train ->
  length repr_test = length factor_test -> (1 <= length repr_test)%nat ->
  fits algo random_state repr_train (column 0%Z factor_train j) repr_test ->
  exists importances a t,
    _train algo random_state repr_train factor_train repr_test factor_test j
    = Ok (j, map Rabs importances, a, Fin t)
    /\ length importances = ncols repr_train /\ 0 <= t <= 1.
Proof.
  intros Hj Hj' Ltr Lte Hte [m [imp [p1 [p2 [Ef [Ei [Li [E1 [L1 [E2 L2]]]]]]]]]].
  unfold _train. rewrite !getcolumn_ok by assumption. cbn [bind].
  rewrite Ef. cbn [bind]. rewrite Ei. cbn [bind]. rewrite E1. cbn [bind].
  destruct (accuracy_returns p1 (column 0%Z factor_train j)) as [a ->];
    [rewrite column_length; congruence|]. cbn [bind].
  rewrite E2. cbn [bind].
  destruct (accuracy_range p2 (column 0%Z factor_test j)) as [t [-> Ht]];
    [rewrite column_length; congruence | rewrite column_length; lia |].
  cbn [bind]. now exists imp, a, t.
Qed.

Lemma nonnegative_from_columns (d k : nat) (g : nat -> list R) :
  (forall j, (j < k)%nat -> Forall (fun x => 0 <= x) (g j)) ->
  nonnegative (from_columns d k g).
Proof.
  intros H. unfold nonnegative, from_columns.
  apply Forall_map, Forall_forall. intros l _.
  apply Forall_map, Forall_forall. intros j Hj. apply in_seq in Hj.
  specialize (H j ltac:(lia)). rewrite Forall_forall in H.
  destruct (Nat.lt_ge_cases l (length (g j))) as [Hl|Hl].
  - apply H. now apply nth_In.
  - rewrite nth_overflow by assumption. lra.
Qed.

Lemma completeness_range (M : list (list R)) (k : nat) :
  rectangular k M -> nonnegative M -> (2 <= length M)%nat -> (1 <= k)%nat ->
  exists y, completeness_score M = Fin y /\ 0 <= y <= 1.
Proof.
  intros Hr Hn Hd Hk.
  rewrite (completeness_as_disentanglement M k) by (assumption || lia).
  destruct (transpose_shape M k Hr) as [Tl [Tr _]]; [lia|].
  apply (disentanglement_range (transpose M) (length M));
    [exact Tr | now apply nonnegative_transpose | lia | exact Hd].
Qed.

Section Scores.

Variable MPI : forall B : Type, list nat -> (nat -> result B) -> result (list B).
Hypothesis MPI_order : completion_order MPI.
Variable GradientBoostingClassifier : estimator.

(** X18: [dci_scores] returns three finite numbers between 0 and 1,
    whatever the order in which the workers complete: train and test data
    with as many rows of factors as of codes, at least one test sample, at
    least two codes and two factors, the same factors in the test data, and
    a classifier that fits every factor, reports one importance per code
    (of any sign) and predicts one label per sample. *)
Theorem dci_scores_bounds (random_state : Z)
  (repr_train : list (list R)) (factor_train : list (list Z))
  (repr_test : list (list R)) (factor_test : list (list Z)) :
  has_feature_importances GradientBoostingClassifier = true ->
  length repr_train = length factor_train ->
  length repr_test = length factor_test -> (1 <= length repr_test)%nat ->
  ncols factor_test = ncols factor_train ->
  (2 <= ncols repr_train)%nat -> (2 <= ncols factor_train)%nat ->
  (forall j, (j < ncols factor_train)%nat ->
     fits GradientBoostingClassifier random_state repr_train
          (column 0%Z factor_train j) repr_test) ->
  exists d c i,
    dci_scores MPI GradientBoostingClassifier repr_train factor_train
               repr_test factor_test random_state
    = Ok (Fin d, Fin c, Fin i)
    /\ 0 <= d <= 1 /\ 0 <= c <= 1 /\ 0 <= i <= 1.
Proof.
  intros Ha Ltr Lte Hte Hc Hd Hk Hfit.
  remember (_train GradientBoostingClassifier random_state repr_train factor_train
                   repr_test factor_test) as job eqn:Ejob.
  assert (J : forall j, (j < ncols factor_train)%nat ->
            exists importances a t,
              job j = Ok (j, map Rabs importances, a, Fin t)
              /\ length importances = ncols repr_train /\ 0 <= t <= 1).
  { intros j Hj. rewrite Ejob. apply _train_fits; try assumption; [lia|].
    now apply Hfit. }
  unfold dci_scores.
  rewrite (representative_importance_matrix_returns MPI MPI_order
             GradientBoostingClassifier random_state repr_train factor_train
             repr_test factor_test
             (fun j => job_feat (job j)) (fun j => job_train (job j))
             (fun j => job_test (job j)) Ha).
  2:{ intros j Hj. destruct (J j Hj) as [imp [a [t [E [Li _]]]]].
      rewrite <- Ejob, E. cbn [job_feat job_train job_test].
      split; [reflexivity|]. now rewrite length_map. }
  cbn [bind].
  remember (from_columns (ncols repr_train) (ncols factor_train)
                         (fun j => job_feat (job j))) as M eqn:EM.
  assert (Mr : rectangular (ncols factor_train) M)
    by (rewrite EM; apply rectangular_from_columns).
  assert (Ml : length M = ncols repr_train)
    by (rewrite EM; apply length_from_columns).
  assert (Mn : nonnegative M).
  { rewrite EM. apply nonnegative_from_columns. intros j Hj.
    destruct (J j Hj) as [imp [a [t [E _]]]]. rewrite E. cbn [job_feat].
    apply Forall_map, Forall_forall. intros x _. apply Rabs_pos. }
  destruct (disentanglement_range M (ncols factor_train) Mr Mn) as [d [Ed Rd]];
    [lia | lia |].
  destruct (completeness_range M (ncols factor_train) Mr Mn) as [c [Ec Rc]];
    [lia | lia |].
  destruct (fsum_bounds (fun j => job_test (job j)) (seq 0 (ncols factor_train)) 0 1)
    as [x [Ex [Lo Hi]]].
  { intros j Hj. apply in_seq in Hj. destruct (J j) as [imp [a [t [E [_ Ht]]]]]; [lia|].
    rewrite E. cbn [job_test]. eauto. }
  rewrite length_seq in Lo, Hi.
  assert (Hn : 0 < INR (ncols factor_train)) by (apply lt_0_INR; lia).
  exists d, c, (x / INR (ncols factor_train)).
  rewrite Ed, Ec. unfold fmean. rewrite Ex, length_map, length_seq.
  rewrite fdiv_fin by lra. split; [reflexivity|].
  repeat split; try lra; [apply div_ge_bound | apply div_le_bound]; lra.
Qed.

End Scores.

Lemma zero_classifier_fits (random_state : Z) (repr_train : list (list R))
  (y : list Z) (repr_test : list (list R)) :
  ncols repr_train = 2%nat -> fits zero_classifier random_state repr_train y repr_test.
Proof.
  intros H. exists tt, [-1; 3], (map (fun _ => 0%Z) repr_train),
                   (map (fun _ => 0%Z) repr_test).
  rewrite H, !length_map. now repeat split.
Qed.

Lemma dci_scores_bounds_witness :
  exists d c i,
    dci_scores MPI_reversed zero_classifier
               [[1; 2]; [3; 4]] [[0; 1]; [0; 0]]%Z [[5; 6]] [[0; 1]]%Z 1234
    = Ok (Fin d, Fin c, Fin i)
    /\ 0 <= d <= 1 /\ 0 <= c <= 1 /\ 0 <= i <= 1.
Proof.
  apply (dci_scores_bounds MPI_reversed MPI_reversed_order zero_classifier 1234
           [[1; 2]; [3; 4]] [[0; 1]; [0; 0]]%Z [[5; 6]] [[0; 1]]%Z);
    try reflexivity; try (simpl; lia).
  intros j _. now apply zero_classifier_fits.
Defined.

(** ** The matrix of [mutual_info_estimate] *)

Section Estimate.

Variable MPI : forall B : Type, list nat -> (nat -> result B) -> result (list B).
Hypothesis MPI_order : completion_order MPI.
Variable mutual_info_classif mutual_info_regression :
  list (list R) -> list R -> bool -> nat -> Z -> result (list R).
Variable np_empty : nat -> nat -> list (list R).
Hypothesis np_empty_shape :
  forall rows cols, length (np_empty rows cols) = rows
                    /\ rectangular cols (np_empty rows cols).

(** X19: [mutual_info_estimate] returns the matrix whose column [j] is the
    vector the estimator returns for factor [j] (the regression estimator
    for continuous factors, the classification estimator otherwise),
    whatever the order in which the workers complete: nothing of the
    uninitialised content of [np.empty] is left in the result. *)
Theorem mutual_info_estimate_columns (representations factors : list (list R))
  (continuous_representations continuous_factors : bool)
  (n_neighbors : nat) (random_state : Z) (mi : nat -> list R) :
  (forall j, (j < ncols factors)%nat ->
     (if continuous_factors then mutual_info_regression else mutual_info_classif)
       representations (column 0 factors j) (negb continuous_representations)
       n_neighbors random_state
     = Ok (mi j)
     /\ length (mi j) = ncols representations) ->
  mutual_info_estimate MPI mutual_info_classif mutual_info_regression np_empty
    representations factors continuous_representations continuous_factors
    n_neighbors random_state
  = Ok (from_columns (ncols representations) (ncols factors) mi).
Proof.
  intros H. unfold mutual_info_estimate.
  destruct (MPI_yields MPI MPI_order (ncols factors)
              (fun idx =>
                 y <- getcolumn 0 factors idx ;;
                 mi <- (if continuous_factors then mutual_info_regression
                        else mutual_info_classif)
                         representations y (negb continuous_representations)
                         n_neighbors random_state ;;
                 Ok (idx, mi))
              (fun j => (j, mi j))) as [order [P E]].
  { intros j Hj. rewrite getcolumn_ok by exact Hj. cbn [bind].
    destruct (H j Hj) as [-> _]. reflexivity. }
  rewrite E. cbn [bind].
  destruct (np_empty_shape (ncols representations) (ncols factors)) as [El Er].
  apply store_all_columns; try assumption. intros j Hj. now apply H.
Qed.

End Estimate.

Lemma mutual_info_estimate_columns_witness :
  mutual_info_estimate MPI_reversed
    (fun X y _ _ _ => Ok (map Rsum (columns 0 X)))
    (fun X y _ _ _ => Ok (map (fun _ => 0) (columns 0 X)))
    (fun rows cols => repeat (repeat 7 cols) rows)
    [[1; 2]; [3; 4]; [5; 6]] [[0; 1; 0]; [0; 0; 1]; [1; 1; 1]] true false 3 1234
  = Ok (from_columns 2 3 (fun _ => map Rsum (columns 0 [[1; 2]; [3; 4]; [5; 6]]))).
Proof.
  apply (mutual_info_estimate_columns MPI_reversed MPI_reversed_order
           (fun X y _ _ _ => Ok (map Rsum (columns 0 X)))
           (fun X y _ _ _ => Ok (map (fun _ => 0) (columns 0 X)))
           (fun rows cols => repeat (repeat 7 cols) rows)).
  - intros rows cols. split; [apply repeat_length|].
    apply Forall_forall. intros r Hr. apply repeat_spec in Hr. subst.
    apply repeat_length.
  - intros j _. split; reflexivity.
Defined.

(** ** The order of the factors *)

Lemma fadd_swap (a x y : npfloat) : fadd (fadd a x) y = fadd (fadd a y) x.
Proof. destruct a, x, y; simpl; try reflexivity; f_equal; lra. Qed.

Lemma fold_fadd_perm (l l' : list npfloat) :
  Permutation l l' -> forall a, fold_left fadd l a = fold_left fadd l' a.
Proof.
  induction 1 as [|x l l' P IH|x y l|l l' l'' P1 IH1 P2 IH2]; intros a; simpl.
  - reflexivity.
  - apply IH.
  - now rewrite fadd_swap.
  - now rewrite IH1.
Qed.

Lemma fmean_perm (l l' : list npfloat) : Permutation l l' -> fmean l = fmean l'.
Proof.
  intros P. unfold fmean, fsum.
  now rewrite (fold_fadd_perm l l' P), (Permutation_length P).
Qed.

(** X20: [mutual_info_gap] does not depend on the order of the factors:
    with as many rows of codes as of factors and at least two codes, taking
    the factor columns in another order leaves the result unchanged. *)
Theorem mutual_info_gap_factor_order
  (p : list nat) (representations factors : list (list Z)) :
  Permutation p (seq 0 (ncols factors)) ->
  length representations = length factors ->
  (2 <= ncols representations)%nat ->
  mutual_info_gap (Arr2 representations) (Arr2 (permute_columns p factors))
  = mutual_info_gap (Arr2 representations) (Arr2 factors).
Proof.
  intros P Hn Hd.
  assert (Hl : length (permute_columns p factors) = length factors)
    by apply length_map.
  pose proof (ncols_permute_columns _ _ P) as Hc.
  assert (Lp : length p = ncols factors)
    by (apply Permutation_length in P; now rewrite length_seq in P).
  rewrite !mutual_info_gap_value by congruence. f_equal.
  unfold mutual_info_gap_spec.
  assert (Lh : forall F, length (factor_entropies F) = ncols F)
    by (intros F; unfold factor_entropies; now rewrite length_map, length_seq).
  rewrite !Lh, Hc.
  set (term := fun j : nat =>
         fdiv (Fin (largest (column 0 (mi_matrix representations factors) j)
                    - second_largest (column 0 (mi_matrix representations factors) j)))
              (Fin (nth j (factor_entropies factors) 0))).
  transitivity (fmean (map term p)).
  - f_equal.
    replace (map term p)
      with (map term (map (fun i => nth i p 0%nat) (seq 0 (length p))))
      by now rewrite nth_all.
    rewrite map_map, Lp.
    apply map_ext_in. intros j Hj. apply in_seq in Hj. unfold term.
    assert (Hpj : (nth j p 0 < ncols factors)%nat).
    { assert (In (nth j p 0%nat) p) by (apply nth_In; lia).
      apply (Permutation_in _ P), in_seq in H. lia. }
    rewrite !column_mi_matrix by lia.
    rewrite column_permute_columns by lia.
    unfold factor_entropies. rewrite Hc.
    rewrite (nth_map_seq (fun j => entropy1D (column 0%Z (permute_columns p factors) j)))
      by lia.
    rewrite (nth_map_seq (fun j => entropy1D (column 0%Z factors j))) by lia.
    now rewrite column_permute_columns by lia.
  - apply fmean_perm, Permutation_map, P.
Qed.

Lemma mutual_info_gap_factor_order_witness :
  mutual_info_gap (Arr2 [[0; 1]; [0; 2]; [1; 3]]%Z)
                  (Arr2 (permute_columns [1; 0]%nat [[5; 0]; [6; 0]; [7; 1]]%Z))
  = mutual_info_gap (Arr2 [[0; 1]; [0; 2]; [1; 3]]%Z)
                    (Arr2 [[5; 0]; [6; 0]; [7; 1]]%Z).
Proof.
  apply (mutual_info_gap_factor_order [1; 0]%nat
           [[0; 1]; [0; 2]; [1; 3]]%Z [[5; 0]; [6; 0]; [7; 1]]%Z);
    [apply perm_swap | reflexivity | simpl; lia].
Defined.

(** ** The order of the codes and of the factors in the importance matrix *)

Lemma fsum_perm (l l' : list npfloat) : Permutation l l' -> fsum l = fsum l'.
Proof. intros P. unfold fsum. now apply fold_fadd_perm. Qed.

Lemma sp_entropy_perm (pk pk' : list R) (base : nat) :
  Permutation pk pk' -> sp_entropy pk base = sp_entropy pk' base.
Proof.
  intros P. unfold sp_entropy. rewrite (Rsum_perm _ _ P). f_equal.
  apply fsum_perm. now do 2 apply Permutation_map.
Qed.

(** The term of one row in [disentanglement_score]: [k] columns, weights all
    ones when [z], total weight [S]. *)
Lemma disentanglement_score_rows (M : list (list R)) :
  disentanglement_score M
  = fsum (map (fun row =>
                 fmul (fsub (Fin 1) (sp_entropy (map (fun x => x + smoothing) row)
                                                (ncols M)))
                      (fdiv (Fin (Rsum (if is_zero (matrix_sum M)
                                        then map (fun _ => 1) row else row)))
                            (Fin (matrix_sum (if is_zero (matrix_sum M)
                                              then ones_like M else M)))))
              M).
Proof.
  unfold disentanglement_score. destruct (is_zero (matrix_sum M)).
  - unfold ones_like. rewrite (map_map (map (fun _ : R => 1))). now rewrite map2_map.
  - now rewrite map2_map.
Qed.

Lemma matrix_sum_perm (M M' : list (list R)) :
  Permutation M M' -> matrix_sum M = matrix_sum M'.
Proof. intros P. unfold matrix_sum. now apply Rsum_perm, Permutation_map. Qed.

Lemma disentanglement_row_order (M M' : list (list R)) :
  Permutation M M' -> ncols M = ncols M' ->
  disentanglement_score M = disentanglement_score M'.
Proof.
  intros P Hc. rewrite !disentanglement_score_rows.
  rewrite <- Hc, <- (matrix_sum_perm M M' P).
  assert (E : matrix_sum (if is_zero (matrix_sum M) then ones_like M else M)
              = matrix_sum (if is_zero (matrix_sum M) then ones_like M' else M')).
  { destruct (is_zero (matrix_sum M)); apply matrix_sum_perm; [|exact P].
    unfold ones_like. now apply Permutation_map. }
  rewrite <- E. now apply fsum_perm, Permutation_map.
Qed.

Lemma rowwise_sums (h : list R -> list R) (M M' : list (list R)) :
  (forall r r', Permutation r r' -> Permutation (h r) (h r')) ->
  Forall2 (@Permutation R) M M' -> matrix_sum (map h M) = matrix_sum (map h M').
Proof.
  intros Hh F. unfold matrix_sum. f_equal. rewrite !map_map.
  induction F as [|r r' M M' P F IH]; simpl; [reflexivity|].
  now rewrite IH, (Rsum_perm _ _ (Hh r r' P)).
Qed.

Lemma disentanglement_within_rows (M M' : list (list R)) :
  Forall2 (@Permutation R) M M' ->
  disentanglement_score M = disentanglement_score M'.
Proof.
  intros F. rewrite !disentanglement_score_rows.
  assert (Hc : ncols M = ncols M').
  { inversion F as [|r r' M0 M0' P _]; subst; [reflexivity|].
    simpl. now apply Permutation_length. }
  assert (Hs : matrix_sum M = matrix_sum M').
  { rewrite <- (map_id M), <- (map_id M'). apply (rowwise_sums (fun r => r)); auto. }
  assert (Ho : matrix_sum (ones_like M) = matrix_sum (ones_like M')).
  { unfold ones_like. apply (rowwise_sums (map (fun _ => 1))); [|exact F].
    intros r r' P. now apply Permutation_map. }
  rewrite <- Hc, <- Hs.
  assert (E : matrix_sum (if is_zero (matrix_sum M) then ones_like M else M)
              = matrix_sum (if is_zero (matrix_sum M) then ones_like M' else M'))
    by (destruct (is_zero (matrix_sum M)); assumption).
  rewrite <- E. f_equal. clear Hc Hs Ho E.
  generalize (ncols M) as c.
  generalize (matrix_sum (if is_zero (matrix_sum M) then ones_like M else M)) as S.
  generalize (is_zero (matrix_sum M)) as z. intros z S c.
  induction F as [|r r' M0 M0' P F IH]; [reflexivity|]. cbn [map]. f_equal.
  - rewrite (sp_entropy_perm (map (fun x => x + smoothing) r)
                             (map (fun x => x + smoothing) r'))
      by now apply Permutation_map.
    do 3 f_equal. destruct z.
    + now apply Rsum_perm, Permutation_map.
    + now apply Rsum_perm.
  - exact IH.
Qed.

Lemma take_columns_rows (q : list nat) (M : list (list R)) (k : nat) :
  rectangular k M -> Permutation q (seq 0 k) ->
  Forall2 (@Permutation R) (take_columns q M) M.
Proof.
  intros Hr P. unfold take_columns.
  induction Hr as [|r M Hl Hr IH]; simpl; constructor; [|exact IH].
  apply Permutation_trans with (map (fun j => nth j r 0) (seq 0 k));
    [now apply Permutation_map|].
  rewrite <- Hl, nth_all. apply Permutation_refl.
Qed.

Lemma rectangular_take_columns (q : list nat) (M : list (list R)) :
  rectangular (length q) (take_columns q M).
Proof.
  unfold rectangular, take_columns. apply Forall_map, Forall_forall.
  intros r _. apply length_map.
Qed.

Lemma transpose_take_columns (q : list nat) (M : list (list R)) (k : nat) :
  rectangular k M -> (1 <= length M)%nat -> Permutation q (seq 0 k) ->
  transpose (take_columns q M) = map (column 0 M) q.
Proof.
  intros Hr Hd P.
  assert (Lq : length q = k)
    by (apply Permutation_length in P; now rewrite length_seq in P).
  unfold transpose, columns.
  rewrite (ncols_rectangular (take_columns q M) (length q));
    [|apply rectangular_take_columns | unfold take_columns; now rewrite length_map].
  transitivity (map (column 0 M) (map (fun j => nth j q 0%nat) (seq 0 (length q))));
    [|now rewrite nth_all].
  rewrite map_map. apply map_ext_in. intros j Hj. apply in_seq in Hj.
  unfold column, take_columns. rewrite map_map. apply map_ext. intros r.
  rewrite (nth_indep _ 0 (nth 0%nat r 0)) by (rewrite length_map; lia).
  apply (map_nth (fun c => nth c r 0)).
Qed.

Lemma transpose_reorder (p : list nat) (M : list (list R)) (k : nat) :
  rectangular k M -> (1 <= length M)%nat ->
  Permutation p (seq 0 (length M)) ->
  Forall2 (@Permutation R) (transpose (reorder p M)) (transpose M).
Proof.
  intros Hr Hd P.
  assert (Pm : Permutation (reorder p M) M) by now apply reorder_permutation.
  assert (Hc : ncols (reorder p M) = ncols M).
  { apply ncols_reorder; [|exact P]. now rewrite (ncols_rectangular M k Hr Hd). }
  unfold transpose, columns. rewrite Hc.
  induction (seq 0 (ncols M)) as [|j l IH]; simpl; constructor; [|exact IH].
  unfold column. now apply Permutation_map.
Qed.

(** X21: the disentanglement and the completeness score do not depend on
    the order of the codes (rows) nor on the order of the factors (columns)
    of the importance matrix. *)
Theorem dci_order_invariant (M : list (list R)) (k : nat) (p q : list nat) :
  rectangular k M -> (1 <= length M)%nat -> (1 <= k)%nat ->
  Permutation p (seq 0 (length M)) -> Permutation q (seq 0 k) ->
  disentanglement_score (reorder p (take_columns q M)) = disentanglement_score M
  /\ completeness_score (reorder p (take_columns q M)) = completeness_score M.
Proof.
  intros Hr Hd Hk Pp Pq.
  assert (Lq : length q = k)
    by (apply Permutation_length in Pq; now rewrite length_seq in Pq).
  remember (take_columns q M) as N eqn:EN.
  assert (Nl : length N = length M) by (rewrite EN; apply length_map).
  assert (Nr : rectangular k N)
    by (rewrite EN, <- Lq; apply rectangular_take_columns).
  assert (Nc : ncols N = k) by (apply ncols_rectangular; [exact Nr | lia]).
  assert (Pp' : Permutation p (seq 0 (length N))) by now rewrite Nl.
  assert (PN : Permutation (reorder p N) N) by now apply reorder_permutation.
  assert (Rc : ncols (reorder p N) = ncols N)
    by (apply ncols_reorder; [now rewrite Nc | exact Pp']).
  assert (Rr : rectangular k (reorder p N)).
  { unfold rectangular in *. rewrite Forall_forall in *. intros r Hin.
    apply Nr. now apply (Permutation_in _ PN). }
  assert (Rl : length (reorder p N) = length M)
    by (rewrite (Permutation_length PN); exact Nl).
  split.
  - rewrite (disentanglement_row_order (reorder p N) N PN Rc).
    rewrite EN. apply disentanglement_within_rows. now apply (take_columns_rows q M k).
  - rewrite (completeness_as_disentanglement (reorder p N) k Rr) by lia.
    rewrite (completeness_as_disentanglement M k Hr) by lia.
    rewrite (disentanglement_within_rows _ _ (transpose_reorder p N k Nr ltac:(lia) Pp')).
    rewrite EN, (transpose_take_columns q M k Hr Hd Pq).
    destruct (transpose_shape M k Hr Hd) as [Tl [Tr Tc]].
    apply disentanglement_row_order.
    + unfold transpose, columns. rewrite (ncols_rectangular M k Hr Hd).
      now apply Permutation_map.
    + fold (transpose M). rewrite (Tc Hk).
      destruct q as [|j q]; [simpl in Lq; lia|]. simpl. apply column_length.
Qed.

Lemma dci_order_invariant_witness :
  disentanglement_score (reorder [1; 0]%nat (take_columns [2; 0; 1]%nat
                                               [[3; 1; 0]; [0; 2; 5]]))
  = disentanglement_score [[3; 1; 0]; [0; 2; 5]]
  /\ completeness_score (reorder [1; 0]%nat (take_columns [2; 0; 1]%nat
                                               [[3; 1; 0]; [0; 2; 5]]))
     = completeness_score [[3; 1; 0]; [0; 2; 5]].
Proof.
  apply (dci_order_invariant [[3; 1; 0]; [0; 2; 5]] 3 [1; 0]%nat [2; 0; 1]%nat);
    [repeat constructor | simpl; lia | lia | apply perm_swap |].
  apply (Permutation_cons_app [0; 1]%nat [] 2%nat). apply Permutation_refl.
Defined.

(** ** The order of the rows and columns in [relative_strength] *)

Lemma largest_perm (l l' : list R) : Permutation l l' -> largest l = largest l'.
Proof.
  intros P. destruct l as [|x l].
  - apply Permutation_nil in P. now subst.
  - assert (Hl : x :: l <> []) by discriminate.
    assert (Hl' : l' <> []).
    { intros ->. apply Permutation_sym, Permutation_nil in P. discriminate. }
    pose proof (largest_in _ Hl) as I. pose proof (largest_in _ Hl') as I'.
    pose proof (largest_upper (x :: l)) as U. pose proof (largest_upper l') as U'.
    rewrite Forall_forall in U, U'.
    apply (Permutation_in _ P) in I. apply (Permutation_in _ (Permutation_sym P)) in I'.
    specialize (U _ I'). specialize (U' _ I). lra.
Qed.

Lemma line_terms_within (L L' : list (list R)) :
  Forall2 (@Permutation R) L L' ->
  axis_score (map largest L) (map Rsum L)
  = axis_score (map largest L') (map Rsum L').
Proof.
  intros F. rewrite !axis_score_lines. f_equal.
  induction F as [|r r' L L' P F IH]; [reflexivity|]. cbn [map].
  now rewrite IH, (largest_perm _ _ P), (Rsum_perm _ _ P).
Qed.

Lemma line_terms_order (L L' : list (list R)) :
  Permutation L L' ->
  axis_score (map largest L) (map Rsum L)
  = axis_score (map largest L') (map Rsum L').
Proof.
  intros P. rewrite !axis_score_lines. now apply fmean_perm, Permutation_map.
Qed.

(** X22: the relative strength does not depend on the order of the rows nor
    on the order of the columns of the matrix. *)
Theorem relative_strength_order_invariant
  (mat : list (list R)) (k : nat) (p q : list nat) :
  rectangular k mat -> (1 <= length mat)%nat -> (1 <= k)%nat ->
  Permutation p (seq 0 (length mat)) -> Permutation q (seq 0 k) ->
  relative_strength (reorder p (take_columns q mat)) = relative_strength mat.
Proof.
  intros Hr Hd Hk Pp Pq.
  assert (Lq : length q = k)
    by (apply Permutation_length in Pq; now rewrite length_seq in Pq).
  remember (take_columns q mat) as N eqn:EN.
  assert (Nl : length N = length mat) by (rewrite EN; apply length_map).
  assert (Nr : rectangular k N)
    by (rewrite EN, <- Lq; apply rectangular_take_columns).
  assert (Nc : ncols N = k) by (apply ncols_rectangular; [exact Nr | lia]).
  assert (Pp' : Permutation p (seq 0 (length N))) by now rewrite Nl.
  assert (PN : Permutation (reorder p N) N) by now apply reorder_permutation.
  assert (Rc : ncols (reorder p N) = ncols N)
    by (apply ncols_reorder; [now rewrite Nc | exact Pp']).
  assert (Rl : length (reorder p N) = length mat)
    by (rewrite (Permutation_length PN); exact Nl).
  rewrite (relative_strength_scores (reorder p N));
    [| destruct (reorder p N); [simpl in Rl; lia | discriminate] | lia].
  rewrite (relative_strength_scores mat);
    [| destruct mat; [simpl in Hd; lia | discriminate]
     | rewrite (ncols_rectangular mat k Hr Hd); lia].
  do 3 f_equal.
  - (* the columns *)
    fold (transpose (reorder p N)). fold (transpose mat).
    rewrite (line_terms_within _ _ (transpose_reorder p N k Nr ltac:(lia) Pp')).
    rewrite EN, (transpose_take_columns q mat k Hr Hd Pq).
    apply line_terms_order. unfold transpose, columns.
    rewrite (ncols_rectangular mat k Hr Hd). now apply Permutation_map.
  - (* the rows *)
    rewrite (line_terms_order _ _ PN). rewrite EN.
    apply line_terms_within. now apply (take_columns_rows q mat k).
Qed.

Lemma relative_strength_order_invariant_witness :
  relative_strength (reorder [1; 0]%nat (take_columns [2; 0; 1]%nat
                                           [[1; 2; 3]; [4; 5; 6]]))
  = relative_strength [[1; 2; 3]; [4; 5; 6]].
Proof.
  apply (relative_strength_order_invariant [[1; 2; 3]; [4; 5; 6]] 3
           [1; 0]%nat [2; 0; 1]%nat);
    [repeat constructor | simpl; lia | lia | apply perm_swap |].
  apply (Permutation_cons_app [0; 1]%nat [] 2%nat). apply Permutation_refl.
Defined.
